(** * Afropair translation pipeline: a shallow embedding and its properties

    The development follows the JavaScript source module by module:
    [Splitter], [DictionaryLookup], [CorpusRetriever], [Referee], [Scorer]
    and the orchestrator [AfropairPipeline].  Strings are sequences of
    UTF-16 code units, the [Map] behind the dictionary is a [gmap], the
    [Set]s of the similarity measure are [gset]s, and plain objects used as
    dictionaries keep their keys in the JavaScript enumeration order. *)

From Stdlib Require Import QArith Qcanon Qabs Qround Ascii String DecimalString DecimalN.
From stdpp Require Import gmap list numbers sorting.

#[local] Set Warnings "-clear-no-such-hyp".

Close Scope Q_scope.
Close Scope Qc_scope.
Close Scope string_scope.
Open Scope list_scope.

(** ** JavaScript numbers

    A [Number] is either one of the three non-finite values or a finite
    value.  Finite values are kept as exact rationals: rounding to binary64
    is not modelled, and the two zeros are identified (every division in the
    source divides by a length, a size or a count, which is never [-0]).
    Overflow to an infinity and underflow to zero are not modelled either:
    a concrete value below is the exact rational where the code has its
    nearest binary64 neighbour. *)

Module Num.

Inductive number : Type :=
| NaN
| PosInf
| NegInf
| Fin (q : Qc).

Definition dec (n : Z) (d : positive) : number := Fin (Q2Qc (Qmake n d)).
Definition of_nat (n : nat) : number := Fin (Qc_of_Z (Z.of_nat n)).

Definition zero : number := Fin 0%Qc.
Definition one : number := Fin 1%Qc.

Definition sign (q : Qc) : comparison := (q ?= 0)%Qc.

Definition inf_of (c : comparison) : number :=
  match c with Gt => PosInf | Lt => NegInf | Eq => NaN end.

Definition flip (c : comparison) : comparison := CompOpp c.

(** [x + y] *)
Definition add (x y : number) : number :=
  match x, y with
  | NaN, _ | _, NaN => NaN
  | PosInf, NegInf | NegInf, PosInf => NaN
  | PosInf, _ | _, PosInf => PosInf
  | NegInf, _ | _, NegInf => NegInf
  | Fin a, Fin b => Fin (a + b)%Qc
  end.

(** [x - y] *)
Definition sub (x y : number) : number :=
  match x, y with
  | NaN, _ | _, NaN => NaN
  | PosInf, PosInf | NegInf, NegInf => NaN
  | PosInf, _ | _, NegInf => PosInf
  | NegInf, _ | _, PosInf => NegInf
  | Fin a, Fin b => Fin (a - b)%Qc
  end.

(** [x * y] *)
Definition mul (x y : number) : number :=
  match x, y with
  | NaN, _ | _, NaN => NaN
  | PosInf, PosInf | NegInf, NegInf => PosInf
  | PosInf, NegInf | NegInf, PosInf => NegInf
  | PosInf, Fin b | Fin b, PosInf => inf_of (sign b)
  | NegInf, Fin b | Fin b, NegInf => inf_of (flip (sign b))
  | Fin a, Fin b => Fin (a * b)%Qc
  end.

(** [x / y]; a zero divisor is the positive zero. *)
Definition div (x y : number) : number :=
  match x, y with
  | NaN, _ | _, NaN => NaN
  | (PosInf | NegInf), (PosInf | NegInf) => NaN
  | PosInf, Fin b => match sign b with Lt => NegInf | _ => PosInf end
  | NegInf, Fin b => match sign b with Lt => PosInf | _ => NegInf end
  | Fin _, (PosInf | NegInf) => zero
  | Fin a, Fin b =>
      match sign b with
      | Eq => inf_of (sign a)
      | _ => Fin (a / b)%Qc
      end
  end.

(** [x < y]; every comparison with [NaN] is false. *)
Definition ltb (x y : number) : bool :=
  match x, y with
  | NaN, _ | _, NaN => false
  | _, NegInf | PosInf, _ => false
  | NegInf, _ | _, PosInf => true
  | Fin a, Fin b => bool_decide (a < b)%Qc
  end.

(** [x > y] *)
Definition gtb (x y : number) : bool := ltb y x.

(** [x >= y] *)
Definition geb (x y : number) : bool :=
  match x, y with
  | NaN, _ | _, NaN => false
  | PosInf, _ | _, NegInf => true
  | NegInf, _ | _, PosInf => false
  | Fin a, Fin b => bool_decide (b ≤ a)%Qc
  end.

(** [Math.min(x, y)] and [Math.max(x, y)]: [NaN] as soon as one argument
    is [NaN]. *)
Definition Math_min (x y : number) : number :=
  match x, y with
  | NaN, _ | _, NaN => NaN
  | _, _ => if ltb y x then y else x
  end.

Definition Math_max (x y : number) : number :=
  match x, y with
  | NaN, _ | _, NaN => NaN
  | _, _ => if ltb x y then y else x
  end.

(** [Math.pow(b, n)] for a finite base and a count [n]. *)
Definition Math_pow (b : Qc) (n : nat) : number := Fin (b ^ n)%Qc.

(** ToBoolean on a number: [0] and [NaN] are falsy. *)
Definition truthy (x : number) : bool :=
  match x with
  | NaN => false
  | Fin q => negb (bool_decide (q = 0%Qc))
  | _ => true
  end.

(** [x || d] *)
Definition or_default (x d : number) : number := if truthy x then x else d.

Definition is_NaN (x : number) : bool :=
  match x with NaN => true | _ => false end.

(** The closed unit interval, as a proposition on numbers. *)
Definition in_unit (x : number) : Prop :=
  match x with
  | Fin q => (0 ≤ q)%Qc ∧ (q ≤ 1)%Qc
  | _ => False
  end.

Global Instance number_eq_dec : EqDecision number.
Proof. solve_decision. Defined.

(** Equality test on numbers by value, for evaluating closed terms. *)
Definition eqb (x y : number) : bool :=
  match x, y with
  | NaN, NaN | PosInf, PosInf | NegInf, NegInf => true
  | Fin a, Fin b => Qeq_bool a b
  | _, _ => false
  end.

End Num.

Export Num.

Declare Scope js_scope.
Delimit Scope js_scope with js.
Infix "+" := Num.add : js_scope.
Infix "-" := Num.sub : js_scope.
Infix "*" := Num.mul : js_scope.
Infix "/" := Num.div : js_scope.
Infix "<?" := Num.ltb : js_scope.
Infix ">?" := Num.gtb : js_scope.
Infix ">=?" := Num.geb : js_scope.

(** ** JavaScript strings

    A string is its sequence of UTF-16 code units, so that [length] is the
    JavaScript [length]. *)

Abbreviation jsstring := (list N).

Module Str.

(** An ASCII literal as a string. *)
Definition js (s : string) : jsstring :=
  (λ a, N_of_ascii a) <$> list_ascii_of_string s.

(** WhiteSpace and LineTerminator code units: what [trim] removes and what
    the class [\s] matches. *)
Definition isWhiteSpace (c : N) : bool :=
  ((9 <=? c) && (c <=? 13) || (c =? 32) || (c =? 160) || (c =? 5760)
   || (8192 <=? c) && (c <=? 8202) || (c =? 8232) || (c =? 8233)
   || (c =? 8239) || (c =? 8287) || (c =? 12288) || (c =? 65279))%N.

Fixpoint drop_while (p : N → bool) (s : jsstring) : jsstring :=
  match s with
  | c :: s' => if p c then drop_while p s' else s
  | [] => []
  end.

Definition trimStart (s : jsstring) : jsstring := drop_while isWhiteSpace s.
Definition trimEnd (s : jsstring) : jsstring := rev (drop_while isWhiteSpace (rev s)).
Definition trim (s : jsstring) : jsstring := trimEnd (trimStart s).

(** [s.split(c)] for a one-character separator string. *)
Fixpoint split_char_aux (sep : N) (cur : jsstring) (s : jsstring) : list jsstring :=
  match s with
  | [] => [rev cur]
  | c :: s' =>
      if (c =? sep)%N then rev cur :: split_char_aux sep [] s'
      else split_char_aux sep (c :: cur) s'
  end.

Definition split_char (sep : N) (s : jsstring) : list jsstring :=
  split_char_aux sep [] s.

(** [s.split(/[...]+/)] for a character class [sep]: the fields between
    maximal runs of separator characters, with an empty first or last field
    when the string starts or ends with a separator. *)
Fixpoint split_runs_aux (sep : N → bool) (cur : jsstring) (in_run : bool)
    (s : jsstring) : list jsstring :=
  match s with
  | [] => [rev cur]
  | c :: s' =>
      if sep c then
        if in_run then split_runs_aux sep [] true s'
        else rev cur :: split_runs_aux sep [] true s'
      else split_runs_aux sep (c :: cur) false s'
  end.

Definition split_runs (sep : N → bool) (s : jsstring) : list jsstring :=
  split_runs_aux sep [] false s.

(** [parts.join(sep)] *)
Fixpoint join (sep : jsstring) (parts : list jsstring) : jsstring :=
  match parts with
  | [] => []
  | [p] => p
  | p :: ps => p ++ sep ++ join sep ps
  end.

Fixpoint is_prefix (pat s : jsstring) : bool :=
  match pat, s with
  | [], _ => true
  | p :: pat', c :: s' => (p =? c)%N && is_prefix pat' s'
  | _ :: _, [] => false
  end.

(** The number of matches of a global regular expression that is a literal
    [pat]: leftmost matches, each search resuming after the previous match. *)
Fixpoint count_from (pat : jsstring) (skip : nat) (s : jsstring) : nat :=
  match s with
  | [] => 0
  | _ :: s' =>
      match skip with
      | S k => count_from pat k s'
      | O =>
          if is_prefix pat s then S (count_from pat (length pat - 1) s')
          else count_from pat 0 s'
      end
  end.

Definition count_matches (pat s : jsstring) : nat := count_from pat 0 s.

(** Decimal digits of a natural number, as template literals print it. *)
Definition decimal (n : N) : jsstring :=
  js (NilEmpty.string_of_uint (N.to_uint n)).

(** Code points of a string (the view of a regular expression with the [u]
    flag) and back. *)
Definition is_high (c : N) : bool := ((55296 <=? c) && (c <=? 56319))%N.
Definition is_low (c : N) : bool := ((56320 <=? c) && (c <=? 57343))%N.

Fixpoint codePoints (s : jsstring) : list N :=
  match s with
  | [] => []
  | hi :: rest =>
      match rest with
      | lo :: s' =>
          if is_high hi && is_low lo
          then (65536 + (hi - 55296) * 1024 + (lo - 56320))%N :: codePoints s'
          else hi :: codePoints rest
      | [] => [hi]
      end
  end.

Definition codeUnits (cps : list N) : jsstring :=
  cps ≫= (λ cp,
    if (65536 <=? cp)%N
    then [55296 + (cp - 65536) / 1024; 56320 + (cp - 65536) mod 1024]%N
    else [cp]).

End Str.

Export Str.

(** ** The host's Unicode tables

    [String.prototype.toLowerCase] and the property class [\p{P}] belong to
    the JavaScript engine, not to the repository; the development is
    parametric in them. *)

Class Host := {
  toLowerCase : jsstring → jsstring;
  isPunctuation : N → bool;
  (** The one fact about [\p{P}] that is used: LOW LINE (U+005F) has the
      category Pc. *)
  underscore_is_punctuation : isPunctuation 95 = true
}.

(** The tables restricted to Basic Latin and Latin-1 Supplement, where they
    are short enough to write down; used to run the pipeline on examples
    whose source text stays in that range. *)
Definition latin1_lower (c : N) : N :=
  if ((65 <=? c) && (c <=? 90) || (192 <=? c) && (c <=? 222) && negb (c =? 215))%N
  then (c + 32)%N else c.

Definition latin1_punct (c : N) : bool :=
  ((33 <=? c) && (c <=? 35) || (37 <=? c) && (c <=? 42) || (44 <=? c) && (c <=? 47)
   || (c =? 58) || (c =? 59) || (c =? 63) || (c =? 64)
   || (91 <=? c) && (c <=? 93) || (c =? 95) || (c =? 123) || (c =? 125)
   || (c =? 161) || (c =? 167) || (c =? 171) || (c =? 182) || (c =? 183)
   || (c =? 187) || (c =? 191))%N.

Definition latin1Host : Host :=
  {| toLowerCase := fmap latin1_lower;
     isPunctuation := latin1_punct;
     underscore_is_punctuation := eq_refl |}.

(** ** Numbers and strings: [parseFloat] and [toFixed] *)

Module NumStr.

Definition is_digit (c : N) : bool := ((48 <=? c) && (c <=? 57))%N.

Fixpoint span_digits (s : jsstring) : jsstring * jsstring :=
  match s with
  | c :: s' =>
      if is_digit c then let '(ds, r) := span_digits s' in (c :: ds, r)
      else ([], s)
  | [] => ([], [])
  end.

Definition digits_value (ds : jsstring) : Z :=
  fold_left (λ acc c, acc * 10 + (Z.of_N c - 48))%Z ds 0%Z.

(** An optional sign: [+] is 43, [-] is 45. *)
Definition take_sign (s : jsstring) : bool * jsstring :=
  match s with
  | 43%N :: r => (false, r)
  | 45%N :: r => (true, r)
  | _ => (false, s)
  end.

(** The exponent after the mantissa: [e] or [E], an optional sign and at
    least one digit; anything else is not part of the number. *)
Definition exponent (s : jsstring) : Z :=
  match s with
  | c :: r =>
      if ((c =? 101) || (c =? 69))%N then
        let '(eneg, r') := take_sign r in
        let '(ed, _) := span_digits r' in
        match ed with
        | [] => 0%Z
        | _ => if eneg then (- digits_value ed)%Z else digits_value ed
        end
      else 0%Z
  | [] => 0%Z
  end.

Definition scale10 (m k : Z) : Qc :=
  if (0 <=? k)%Z then Qc_of_Z (m * 10 ^ k)
  else Q2Qc (Qmake m (Z.to_pos (10 ^ (- k)))).

(** [parseFloat(arg)]: the longest prefix of the trimmed argument that is a
    decimal literal, [NaN] when there is none.  [None] is [undefined], whose
    string form is not a number.  The value is the exact one: a literal
    beyond the binary64 range, as [1e400], is an infinity in JavaScript, and
    one below it, as [1e-400], is zero. *)
Definition parseFloat (arg : option jsstring) : number :=
  match arg with
  | None => NaN
  | Some s =>
      let '(neg, s1) := take_sign (trimStart s) in
      if is_prefix (js "Infinity") s1 then (if neg then NegInf else PosInf)
      else
        let '(ip, r1) := span_digits s1 in
        let '(fp, r2) :=
          match r1 with
          | 46%N :: r => span_digits r
          | _ => ([], r1)
          end in
        match ip ++ fp with
        | [] => NaN
        | ds =>
            let m := digits_value ds in
            let k := (exponent r2 - Z.of_nat (length fp))%Z in
            Fin (scale10 (if neg then - m else m)%Z k)
        end
  end.

(** [x.toFixed(1)]: the nearest multiple of one tenth, the larger one on a
    tie, printed with one digit after the point.  (From 1e21 on JavaScript
    switches to exponent notation; the pipeline prints percentages, and the
    model keeps the positional form.  The argument is the exact value, not
    its binary64 neighbour, so a tie here need not be a tie in the code.) *)
Definition toFixed1 (x : number) : jsstring :=
  match x with
  | NaN => js "NaN"
  | PosInf => js "Infinity"
  | NegInf => js "-Infinity"
  | Fin q =>
      let a := Qabs q in
      let n := Z.to_N (Qfloor (Qplus (Qmult a (Qmake 10 1)) (Qmake 1 2))) in
      (if bool_decide (q < 0)%Qc then js "-" else [])
        ++ decimal (n / 10) ++ js "." ++ decimal (n mod 10)
  end.

End NumStr.

Export NumStr.

(** ** 1. Splitter *)

Module Splitter.

Record Segment := {
  seg_id : jsstring;
  text : jsstring;
  tokens : list jsstring;
  seg_start : nat;
  seg_end : nat
}.

(** The class of [/[.!?]+/]. *)
Definition isTerminator (c : N) : bool := ((c =? 46) || (c =? 33) || (c =? 63))%N.

Section WithHost.
Context `{Host}.

(** [text.split(/[\s\p{P}]+/u).filter(token => token.length > 0)] *)
Definition tokenize (text : jsstring) : list jsstring :=
  filter (λ token, 0 < length token)
    (codeUnits <$> split_runs (λ c, isWhiteSpace c || isPunctuation c) (codePoints text)).

Definition process (src : jsstring) : list Segment :=
  let sentences :=
    filter (λ s, 0 < length (trim s)) (split_runs isTerminator src) in
  imap (λ index sentence,
          {| seg_id := js "s" ++ decimal (N.of_nat (index + 1));
             text := trim sentence;
             tokens := tokenize (trim sentence);
             seg_start := 0;
             seg_end := length (trim sentence) |})
       sentences.

End WithHost.

End Splitter.

(** ** Plain objects used as dictionaries

    An object literal [{}] filled by [o[k] = v] and read by [for (k in o)]:
    the own properties in enumeration order, which is array indices in
    ascending numeric order followed by the other keys in creation order.
    Assigning to the key [__proto__] does not create a property (it replaces
    the prototype); such a run is outside the fragment modelled here and
    [obj_set] answers [None] for it. *)

Module Obj.

Definition obj (V : Type) : Type := list (jsstring * V).

Definition proto_key : jsstring := js "__proto__".

(** Array indices: canonical decimal strings below 2^32 - 1. *)
Definition array_index (k : jsstring) : option N :=
  match k with
  | [] => None
  | c :: r =>
      if forallb is_digit k && (negb (c =? 48)%N || bool_decide (r = [])) then
        let n := Z.to_N (digits_value k) in
        if (n <? 4294967295)%N then Some n else None
      else None
  end.

Section Ops.
Context {V : Type}.

Definition obj_has (o : obj V) (k : jsstring) : bool := bool_decide (k ∈ o.*1).

Fixpoint obj_get (o : obj V) (k : jsstring) : option V :=
  match o with
  | [] => None
  | (k', v) :: o' => if decide (k' = k) then Some v else obj_get o' k
  end.

Fixpoint obj_replace (k : jsstring) (v : V) (o : obj V) : obj V :=
  match o with
  | [] => []
  | (k', v') :: o' =>
      if decide (k' = k) then (k, v) :: o' else (k', v') :: obj_replace k v o'
  end.

Fixpoint obj_insert_index (n : N) (k : jsstring) (v : V) (o : obj V) : obj V :=
  match o with
  | [] => [(k, v)]
  | (k', v') :: o' =>
      match array_index k' with
      | Some n' =>
          if (n' <? n)%N then (k', v') :: obj_insert_index n k v o'
          else (k, v) :: o
      | None => (k, v) :: o
      end
  end.

Definition obj_add (k : jsstring) (v : V) (o : obj V) : obj V :=
  match array_index k with
  | Some n => obj_insert_index n k v o
  | None => o ++ [(k, v)]
  end.

Definition obj_put (k : jsstring) (v : V) (o : obj V) : obj V :=
  if obj_has o k then obj_replace k v o else obj_add k v o.

(** [o[k] = v] *)
Definition obj_set (k : jsstring) (v : V) (o : obj V) : option (obj V) :=
  if decide (k = proto_key) then None else Some (obj_put k v o).

End Ops.

End Obj.

Export Obj.

(** ** 2. Dictionary lookup *)

Module DictionaryLookup.

Import Splitter.

Record LexEntry := {
  mos : jsstring;
  pos : jsstring;
  score : number
}.

(** The fields of the class; [dictionary] is the [Map]. *)
Record t := {
  dictPath : jsstring;
  dictionary : gmap jsstring (list LexEntry);
  loaded : bool
}.

(** [new DictionaryLookup(dictPath)] *)
Definition new (path : jsstring) : t :=
  {| dictPath := path; dictionary := ∅; loaded := false |}.

(** Truthiness of a possibly [undefined] string. *)
Definition truthy_str (s : option jsstring) : bool :=
  match s with
  | Some (_ :: _) => true
  | _ => false
  end.

(** [s || d] *)
Definition str_or (s : option jsstring) (d : jsstring) : jsstring :=
  match s with
  | Some (c :: r) => c :: r
  | _ => d
  end.

Section WithHost.
Context `{Host}.

(** The body of the loop over the lines of the table:
    [const [frWord, mosWord, pos, score] = line.split('\t')] and the
    guarded [push]. *)
Definition addLine (d : gmap jsstring (list LexEntry)) (line : jsstring)
    : gmap jsstring (list LexEntry) :=
  let fields := split_char 9 line in
  let frWord := fields !! 0 in
  let mosWord := fields !! 1 in
  let pos := fields !! 2 in
  let score := fields !! 3 in
  if truthy_str frWord && truthy_str mosWord then
    let key := toLowerCase (default [] frWord) in
    let d1 := if bool_decide (is_Some (d !! key)) then d else <[key := []]> d in
    <[key := default [] (d1 !! key)
               ++ [{| mos := default [] mosWord;
                      pos := str_or pos (js "UNK");
                      score := or_default (parseFloat score) (dec 1 2) |}]]> d1
  else d.

(** [loadDictionary()], given what [fs.readFile(this.dictPath)] yields:
    [None] when the read is rejected. *)
Definition loadDictionary (readFile : jsstring → option jsstring) (this : t) : t :=
  if loaded this then this
  else
    match readFile (dictPath this) with
    | Some data =>
        let lines := filter (λ line, 0 < length (trim line)) (split_char 10 data) in
        {| dictPath := dictPath this;
           dictionary := fold_left addLine lines (dictionary this);
           loaded := true |}
    | None =>
        {| dictPath := dictPath this;
           dictionary := dictionary this;
           loaded := true |}
    end.

(** The entry synthesised for a token the table does not know. *)
Definition unknownEntry (token : jsstring) : LexEntry :=
  {| mos := js "<UNK:" ++ token ++ js ">";
     pos := js "UNK";
     score := dec 1 10 |}.

(** What the loop over the tokens stores under [token]. *)
Definition lookup (d : gmap jsstring (list LexEntry)) (token : jsstring)
    : list LexEntry :=
  let key := toLowerCase token in
  let candidates := default [] (d !! key) in
  if bool_decide (length candidates = 0) then [unknownEntry token]
  else candidates.

(** The entry that [composeDictionaryTranslation] takes for a token: the
    first one of its lookup. *)
Definition winner (d : gmap jsstring (list LexEntry)) (token : jsstring) : LexEntry :=
  default (unknownEntry token) (head (lookup d token)).

(** Every property of the object holds the lookup of its own key. *)
Definition holds_lookups (d : gmap jsstring (list LexEntry)) (o : obj (list LexEntry)) : Prop :=
  ∀ k v, (k, v) ∈ o → v = lookup d k.

(** The inner loop: [segmentResults[token] = ...] for each token. *)
Fixpoint segmentLoop (d : gmap jsstring (list LexEntry)) (tokens : list jsstring)
    (segmentResults : obj (list LexEntry)) : option (obj (list LexEntry)) :=
  match tokens with
  | [] => Some segmentResults
  | token :: rest =>
      segmentResults' ← obj_set token (lookup d token) segmentResults;
      segmentLoop d rest segmentResults'
  end.

(** The outer loop: [results[segment.seg_id] = segmentResults]. *)
Fixpoint resultsLoop (d : gmap jsstring (list LexEntry)) (segments : list Segment)
    (results : obj (obj (list LexEntry))) : option (obj (obj (list LexEntry))) :=
  match segments with
  | [] => Some results
  | segment :: rest =>
      segmentResults ← segmentLoop d (tokens segment) [];
      results' ← obj_set (seg_id segment) segmentResults results;
      resultsLoop d rest results'
  end.

End WithHost.

(** [calculateCoverage(results)]; reading [results[segId][token][0].score]
    throws when the array is empty, which is [None] here. *)
Fixpoint coverageCount (entries : list (list LexEntry)) : option (nat * nat) :=
  match entries with
  | [] => Some (0, 0)
  | candidates :: rest =>
      first ← head candidates;
      '(total, covered) ← coverageCount rest;
      Some (S total, if (score first >? dec 1 10)%js then S covered else covered)
  end.

Definition calculateCoverage (results : obj (obj (list LexEntry))) : option number :=
  '(total, covered) ← coverageCount (results.*2 ≫= (λ o, o.*2));
  Some (if bool_decide (0 < total) then (of_nat covered / of_nat total)%js else zero).

Record Output := {
  dictionary_results : obj (obj (list LexEntry));
  dict_coverage : number
}.

(** [process(inputJSON)]: the table is loaded on first use. *)
Definition process `{Host} (readFile : jsstring → option jsstring) (this : t)
    (segments : list Segment) : t * option Output :=
  let this' := loadDictionary readFile this in
  (this',
   results ← resultsLoop (dictionary this') segments [];
   coverage ← calculateCoverage results;
   Some {| dictionary_results := results; dict_coverage := coverage |}).

End DictionaryLookup.

(** ** 3. Corpus retriever *)

Module CorpusRetriever.

Import Splitter.

(** What [JSON.parse] makes of one line, as far as the loader looks at it:
    the string-valued members [fr], [mos] and [source], each possibly
    missing.  Corpus files are taken to hold strings in these members, as
    the files written by [setup.js] do: a line whose [fr], [mos] or
    [source] is a number, a boolean or an object is not described here. *)
Record JsonEntry := {
  j_fr : option jsstring;
  j_mos : option jsstring;
  j_source : option jsstring
}.

(** An entry that passed the guard [entry.fr && entry.mos]. *)
Record CorpusEntry := {
  fr : jsstring;
  mos : jsstring;
  source : option jsstring
}.

Record t := {
  corpusPath : jsstring;
  corpus : list CorpusEntry;
  loaded : bool
}.

Definition new (path : jsstring) : t :=
  {| corpusPath := path; corpus := []; loaded := false |}.

Record Match := {
  m_fr : jsstring;
  m_mos : jsstring;
  sim : number;
  m_source : jsstring
}.

(** The loop body of [loadCorpus]: [None] is a line on which [JSON.parse]
    throws, which the inner [catch] skips. *)
Definition addLine (parsed : option JsonEntry) (c : list CorpusEntry) : list CorpusEntry :=
  match parsed with
  | Some entry =>
      match j_fr entry, j_mos entry with
      | Some (a :: fr'), Some (b :: mos') =>
          c ++ [{| fr := a :: fr'; mos := b :: mos'; source := j_source entry |}]
      | _, _ => c
      end
  | None => c
  end.

Definition loadCorpus (JSON_parse : jsstring → option JsonEntry)
    (readFile : jsstring → option jsstring) (this : t) : t :=
  if loaded this then this
  else
    match readFile (corpusPath this) with
    | Some data =>
        let lines := filter (λ line, 0 < length (trim line)) (split_char 10 data) in
        {| corpusPath := corpusPath this;
           corpus := fold_left (λ c line, addLine (JSON_parse line) c) lines (corpus this);
           loaded := true |}
    | None =>
        {| corpusPath := corpusPath this; corpus := corpus this; loaded := true |}
    end.

(** Jaccard similarity of the whitespace-separated words. *)
Definition calculateSimilarity (str1 str2 : jsstring) : number :=
  let set1 : gset jsstring := list_to_set (split_runs isWhiteSpace str1) in
  let set2 : gset jsstring := list_to_set (split_runs isWhiteSpace str2) in
  let intersection : gset jsstring :=
    list_to_set (filter (λ x, x ∈ set2) (elements set1)) in
  let union : gset jsstring := list_to_set (elements set1 ++ elements set2) in
  if bool_decide (size union = 0) then zero
  else (of_nat (size intersection) / of_nat (size union))%js.

(** [array.sort(compare)]: the sort is stable, and an element moves in
    front of another only when [compare] says so with a positive number. *)
Fixpoint sort_insert {A} (compare : A → A → number) (x : A) (l : list A) : list A :=
  match l with
  | [] => [x]
  | y :: l' =>
      if (compare x y >? zero)%js then y :: sort_insert compare x l'
      else x :: l
  end.

Definition Array_sort {A} (compare : A → A → number) (l : list A) : list A :=
  foldr (sort_insert compare) [] l.

(** The comparator [(a, b) => b.sim - a.sim]. *)
Definition bySimilarityDesc (a b : Match) : number := (sim b - sim a)%js.

(** A list of matches in which no match is followed, anywhere later, by one
    of greater similarity. *)
Definition nonIncreasing (l : list Match) : Prop :=
  StronglySorted (λ a b, (sim a >=? sim b)%js = true) l.

Section WithHost.
Context `{Host}.

(** The matches pushed by the loop of [searchCorpus], in corpus order. *)
Fixpoint collectMatches (c : list CorpusEntry) (queryLower : jsstring) : list Match :=
  match c with
  | [] => []
  | entry :: rest =>
      let similarity := calculateSimilarity queryLower (toLowerCase (fr entry)) in
      if (similarity >? dec 6 10)%js then
        {| m_fr := fr entry;
           m_mos := mos entry;
           sim := similarity;
           m_source := DictionaryLookup.str_or (source entry) (js "unknown") |}
          :: collectMatches rest queryLower
      else collectMatches rest queryLower
  end.

Definition searchCorpus (c : list CorpusEntry) (query : jsstring) : list Match :=
  let queryLower := toLowerCase query in
  let matches := collectMatches c queryLower in
  take 5 (Array_sort bySimilarityDesc matches).

Record Result := {
  seg_id : jsstring;
  matches : list Match
}.

Definition process (JSON_parse : jsstring → option JsonEntry)
    (readFile : jsstring → option jsstring) (this : t) (segments : list Segment)
    : t * list Result :=
  let this' := loadCorpus JSON_parse readFile this in
  (this',
   (λ segment, {| seg_id := Splitter.seg_id segment;
                  matches := searchCorpus (corpus this') (text segment) |})
     <$> segments).

End WithHost.

End CorpusRetriever.

(** ** 4. Referee *)

Module Referee.

Import Splitter.

Inductive Origin := corpus | dictionary | none.

Record DictionaryComposition := {
  dc_mos : jsstring;
  dc_confidence : number;
  word_count : nat
}.

Inductive Details :=
| ofMatch (m : CorpusRetriever.Match)
| ofComposition (c : DictionaryComposition)
| noDetails.

Record Candidate := {
  mos : jsstring;
  source : Origin;
  confidence : number;
  details : Details
}.

Record Decision := {
  seg_id : jsstring;
  src_text : jsstring;
  final : jsstring;
  candidates : list Candidate;
  explanation : jsstring
}.

(** A running total of scores, added from the left as [totalScore += ...]
    does. *)
Definition totalOf (scores : list number) : number := fold_left Num.add scores zero.

(** [composeDictionaryTranslation(dictResult)]: the loop state is
    [(mosWords, totalScore, wordCount)]. *)
Definition composeStep (st : list jsstring * number * nat)
    (prop : jsstring * list DictionaryLookup.LexEntry) : list jsstring * number * nat :=
  let '(mosWords, totalScore, wordCount) := st in
  match prop.2 with
  | best :: _ =>
      (mosWords ++ [DictionaryLookup.mos best],
       (totalScore + DictionaryLookup.score best)%js,
       S wordCount)
  | [] => st
  end.

Definition composeDictionaryTranslation (dictResult : obj (list DictionaryLookup.LexEntry))
    : DictionaryComposition :=
  let '(mosWords, totalScore, wordCount) :=
    fold_left composeStep dictResult ([], zero, 0) in
  {| dc_mos := join (js " ") mosWords;
     dc_confidence :=
       if bool_decide (0 < wordCount) then (totalScore / of_nat wordCount)%js else zero;
     word_count := wordCount |}.

Definition percent (x : number) : jsstring := toFixed1 (x * of_nat 100)%js.

Definition generateExplanation (bestCandidate : Candidate) (candidates : list Candidate)
    : jsstring :=
  if bool_decide (length candidates = 0) then js "No translation candidates found"
  else
    match source bestCandidate with
    | corpus =>
        js "Corpus match selected with " ++ percent (confidence bestCandidate)
          ++ js "% similarity"
    | dictionary =>
        js "Dictionary composition with " ++ percent (confidence bestCandidate)
          ++ js "% average word confidence"
    | none => js "Fallback translation used"
    end.

Definition corpusCandidate (m : CorpusRetriever.Match) : Candidate :=
  {| mos := CorpusRetriever.m_mos m;
     source := corpus;
     confidence := CorpusRetriever.sim m;
     details := ofMatch m |}.

(** The list [candidates] as [makeDecision] assembles it. *)
Definition assemble (dictResult : option (obj (list DictionaryLookup.LexEntry)))
    (corpusResult : CorpusRetriever.Result) : list Candidate :=
  (corpusCandidate <$> CorpusRetriever.matches corpusResult)
  ++ match dictResult with
     | Some dr =>
         let dictComposition := composeDictionaryTranslation dr in
         if bool_decide (0 < length (trim (dc_mos dictComposition))) then
           [{| mos := dc_mos dictComposition;
               source := dictionary;
               confidence := dc_confidence dictComposition;
               details := ofComposition dictComposition |}]
         else []
     | None => []
     end.

(** The object literal used when there is no candidate. *)
Definition sentinel (segment : Segment) : Candidate :=
  {| mos := js "<UNTRANSLATED:" ++ text segment ++ js ">";
     source := none;
     confidence := zero;
     details := noDetails |}.

(** The callback of [reduce]. *)
Definition pick (best current : Candidate) : Candidate :=
  if (confidence current >? confidence best)%js then current else best.

(** [candidates.reduce((best, current) => ...)] with the sentinel for the
    empty list. *)
Definition selectBest (segment : Segment) (candidates : list Candidate) : Candidate :=
  match candidates with
  | first :: rest => fold_left pick rest first
  | [] => sentinel segment
  end.

Definition makeDecision (segment : Segment)
    (dictResult : option (obj (list DictionaryLookup.LexEntry)))
    (corpusResult : CorpusRetriever.Result) : Decision :=
  let candidates := assemble dictResult corpusResult in
  let bestCandidate := selectBest segment candidates in
  {| seg_id := Splitter.seg_id segment;
     src_text := text segment;
     final := mos bestCandidate;
     candidates := candidates;
     explanation := generateExplanation bestCandidate candidates |}.

(** [process]: [dictionary_results[segment.seg_id]] is an own-property
    read, [corpus_results[i]] an array read; reading [.matches] of a
    missing element throws. *)
Fixpoint processLoop (i : nat) (segments : list Segment)
    (dictionary_results : obj (obj (list DictionaryLookup.LexEntry)))
    (corpus_results : list CorpusRetriever.Result) : option (list Decision) :=
  match segments with
  | [] => Some []
  | segment :: rest =>
      let dictResult := obj_get dictionary_results (Splitter.seg_id segment) in
      corpusResult ← corpus_results !! i;
      finalResults ← processLoop (S i) rest dictionary_results corpus_results;
      Some (makeDecision segment dictResult corpusResult :: finalResults)
  end.

Definition process (segments : list Segment)
    (dictionary_results : obj (obj (list DictionaryLookup.LexEntry)))
    (corpus_results : list CorpusRetriever.Result) : option (list Decision) :=
  processLoop 0 segments dictionary_results corpus_results.

End Referee.

(** ** 5. Scorer *)

Module Scorer.

Import Referee.

Record Features := {
  source_confidence : number;
  candidate_count : nat;
  length_ratio : number;
  unknown_words : nat
}.

Record Score := {
  confidence : number;
  features : Features
}.

Definition extractFeatures (result : Decision) : Features :=
  let srcLength := length (src_text result) in
  let tgtLength := length (final result) in
  {| source_confidence :=
       match candidates result with
       | first :: _ => Referee.confidence first
       | [] => zero
       end;
     candidate_count := length (candidates result);
     length_ratio :=
       if bool_decide (0 < srcLength)
       then Math_min (of_nat tgtLength / of_nat srcLength)%js
                     (of_nat srcLength / of_nat tgtLength)%js
       else zero;
     unknown_words := count_matches (js "<UNK:") (final result) |}.

(** The penalties and the bonus, in the order of the source. *)
Definition adjust (f : Features) : number :=
  let confidence := source_confidence f in
  let confidence :=
    if bool_decide (0 < unknown_words f)
    then (confidence * Math_pow (Q2Qc (Qmake 7 10)) (unknown_words f))%js
    else confidence in
  let confidence :=
    if (length_ratio f <? dec 3 10)%js then (confidence * dec 8 10)%js
    else confidence in
  let confidence :=
    if bool_decide (1 < candidate_count f)
    then Math_min one (confidence * dec 11 10)%js
    else confidence in
  confidence.

(** The same derivation in the words of the specification: start from
    [sourceConfidence]; multiply by 0.7 once for each unknown-token
    occurrence; multiply by 0.8 if [lengthRatio < 0.3]; if
    [candidateCount > 1], multiply by 1.1 and cap at 1.0; clamp the final
    value to [0,1]. *)
Definition compositeBySpec (sourceConfidence : number) (unknownTokenCount : nat)
    (lengthRatio : number) (candidateCount : nat) : number :=
  let c := Nat.iter unknownTokenCount (λ c, (c * dec 7 10)%js) sourceConfidence in
  let c := if (lengthRatio <? dec 3 10)%js then (c * dec 8 10)%js else c in
  let c := if bool_decide (1 < candidateCount) then Math_min one (c * dec 11 10)%js else c in
  Math_max zero (Math_min one c).

Definition calculateCompositeScore (result : Decision) : Score :=
  let features := extractFeatures result in
  {| confidence := Math_max zero (Math_min one (adjust features));
     features := features |}.

Record ScoredResult := {
  result : Decision;
  composite_confidence : number;
  quality_features : Features
}.

Definition process (final_results : list Decision) : list ScoredResult :=
  (λ result,
     let compositeScore := calculateCompositeScore result in
     {| result := result;
        composite_confidence := confidence compositeScore;
        quality_features := features compositeScore |})
    <$> final_results.

End Scorer.

(** ** 6. The orchestrator

    [translateSentence] up to the scorer: the logger copies the scored
    results into records and appends them to a file.  [None] stands for a
    run in which a stage throws, so that the [catch] branch answers
    [success: false], or in which a stage assigns to [__proto__]; on corpus
    files whose [fr], [mos] and [source] members are strings neither
    happens, see [translateSentence_returns]. *)

Module AfropairPipeline.

Record t := {
  dictLookup : DictionaryLookup.t;
  corpusRetriever : CorpusRetriever.t
}.

Definition translateSentence `{Host}
    (JSON_parse : jsstring → option CorpusRetriever.JsonEntry)
    (readFile : jsstring → option jsstring)
    (this : t) (frenchSentence : jsstring) : t * option (list Scorer.ScoredResult) :=
  let segments := Splitter.process frenchSentence in
  let '(dl, dictResult) := DictionaryLookup.process readFile (dictLookup this) segments in
  match dictResult with
  | None => ({| dictLookup := dl; corpusRetriever := corpusRetriever this |}, None)
  | Some dictOut =>
      let '(cr, corpus_results) :=
        CorpusRetriever.process JSON_parse readFile (corpusRetriever this) segments in
      ({| dictLookup := dl; corpusRetriever := cr |},
       final_results ← Referee.process segments
                         (DictionaryLookup.dictionary_results dictOut) corpus_results;
       Some (Scorer.process final_results))
  end.

End AfropairPipeline.

(** ** 7. Logger: the review status of a record *)

Module Logger.

Inductive Status := auto_accepted | review_recommended | manual_review_required.

Definition determineStatus (confidence : number) : Status :=
  if (confidence >=? dec 8 10)%js then auto_accepted
  else if (confidence >=? dec 5 10)%js then review_recommended
  else manual_review_required.

End Logger.

(** ** 8. What the orchestrator reports

    [translateSentence] answers with the first record's target, or the empty
    string, and with the average of the composite confidences;
    [batchTranslate] runs the sentences one after the other on the same
    pipeline object.  Both are given up to the scorer, as [translateSentence]
    above. *)

Module Report.

(** [scored_results.reduce((sum, r) => sum + r.composite_confidence, 0)
     / scored_results.length] *)
Definition avgConfidence (scored_results : list Scorer.ScoredResult) : number :=
  (fold_left (λ sum r, (sum + Scorer.composite_confidence r)%js) scored_results zero
   / of_nat (length scored_results))%js.

(** [records[0]?.tgt || ''] *)
Definition translation (scored_results : list Scorer.ScoredResult) : jsstring :=
  match scored_results with
  | r :: _ => Referee.final (Scorer.result r)
  | [] => []
  end.

Fixpoint batchTranslate `{Host}
    (JSON_parse : jsstring → option CorpusRetriever.JsonEntry)
    (readFile : jsstring → option jsstring)
    (this : AfropairPipeline.t) (frenchSentences : list jsstring)
    : AfropairPipeline.t * list (option (list Scorer.ScoredResult)) :=
  match frenchSentences with
  | [] => (this, [])
  | sentence :: rest =>
      let '(this1, result) :=
        AfropairPipeline.translateSentence JSON_parse readFile this sentence in
      let '(this2, results) := batchTranslate JSON_parse readFile this1 rest in
      (this2, result :: results)
  end.

End Report.

(** ** Sample data

    Excerpts of the tables written by [setup.js] and the first sentence of
    the test harness, with the few other inputs the statements below are
    evaluated at.  All source text stays in Latin-1. *)

Module Samples.

Import Splitter.

Definition tab : jsstring := [9%N].
Definition nl : jsstring := [10%N].

Definition tsv (frWord mosWord pos score : jsstring) : jsstring :=
  frWord ++ tab ++ mosWord ++ tab ++ pos ++ tab ++ score.

(** "Je vais au marché." *)
Definition marche_sentence : jsstring := js "Je vais au march" ++ [233%N] ++ js ".".

(** "N zɩ̀ nà zaabā." *)
Definition marche_target : jsstring :=
  js "N z" ++ [617; 768]%N ++ js " n" ++ [224%N] ++ js " zaab" ++ [257%N] ++ js ".".

(** The header and the rows of [je], [marché] and [au]. *)
Definition sampleDictionary : jsstring :=
  tsv (js "fr_word") (js "mos_word") (js "pos") (js "score") ++ nl
  ++ tsv (js "je") ([224; 110; 603]%N) (js "PRON") (js "0.95") ++ nl
  ++ tsv (js "march" ++ [233%N]) (js "zaab" ++ [257%N]) (js "NOUN") (js "0.97") ++ nl
  ++ tsv (js "au") (js "n" ++ [224%N]) (js "PREP") (js "0.85").

Definition dictPath : jsstring := js "./data/fr_mos_dict.tsv".
Definition corpusPath : jsstring := js "./data/fr_mos_corpus.jsonl".

(** The first line of the sample corpus, and what [JSON.parse] makes of it. *)
Definition sampleCorpusLine : jsstring :=
  js "{" ++ [34%N] ++ js "fr" ++ [34%N] ++ js ":" ++ [34%N] ++ marche_sentence ++ [34%N]
  ++ js "," ++ [34%N] ++ js "mos" ++ [34%N] ++ js ":" ++ [34%N] ++ marche_target ++ [34%N]
  ++ js "," ++ [34%N] ++ js "source" ++ [34%N] ++ js ":" ++ [34%N] ++ js "manual_v1" ++ [34%N]
  ++ js "," ++ [34%N] ++ js "sim" ++ [34%N] ++ js ":1}".

Definition sampleEntry : CorpusRetriever.JsonEntry :=
  {| CorpusRetriever.j_fr := Some marche_sentence;
     CorpusRetriever.j_mos := Some marche_target;
     CorpusRetriever.j_source := Some (js "manual_v1") |}.

Definition parseSample (line : jsstring) : option CorpusRetriever.JsonEntry :=
  if decide (line = sampleCorpusLine) then Some sampleEntry else None.

(** A file system holding the given dictionary and corpus files. *)
Definition files (dict corpus : option jsstring) (path : jsstring) : option jsstring :=
  if decide (path = dictPath) then dict
  else if decide (path = corpusPath) then corpus
  else None.

(** [new AfropairPipeline()] *)
Definition newPipeline : AfropairPipeline.t :=
  {| AfropairPipeline.dictLookup := DictionaryLookup.new dictPath;
     AfropairPipeline.corpusRetriever := CorpusRetriever.new corpusPath |}.

(** One run of [translateSentence] on a fresh pipeline over Latin-1 text. *)
Definition run (dict corpus : option jsstring) (sentence : jsstring)
    : option (list Scorer.ScoredResult) :=
  (AfropairPipeline.translateSentence (H := latin1Host) parseSample
     (files dict corpus) newPipeline sentence).2.

(** The sample corpus once loaded. *)
Definition sampleCorpus : list CorpusRetriever.CorpusEntry :=
  CorpusRetriever.corpus
    (CorpusRetriever.loadCorpus parseSample (files None (Some sampleCorpusLine))
       (CorpusRetriever.new corpusPath)).

(** The sample dictionary once loaded. *)
Definition sampleTable : gmap jsstring (list DictionaryLookup.LexEntry) :=
  DictionaryLookup.dictionary
    (DictionaryLookup.loadDictionary (H := latin1Host)
       (files (Some sampleDictionary) None) (DictionaryLookup.new dictPath)).

(** The harness sentence against the sample tables. *)
Definition marche_run : option (list Scorer.ScoredResult) :=
  run (Some sampleDictionary) (Some sampleCorpusLine) marche_sentence.

(** A corpus line of three words and a table knowing two of them well. *)
Definition rizCorpus : list CorpusRetriever.CorpusEntry :=
  [{| CorpusRetriever.fr := js "le riz blanc";
      CorpusRetriever.mos := js "riis peelga";
      CorpusRetriever.source := None |}].

Definition rizDictionary : jsstring :=
  tsv (js "le") (js "la") (js "DET") (js "0.75") ++ nl
  ++ tsv (js "riz") (js "riis") (js "NOUN") (js "0.96").

Definition rizSegment : Segment :=
  {| seg_id := js "s1"; text := js "le riz"; tokens := [js "le"; js "riz"];
     seg_start := 0; seg_end := 6 |}.

Definition rizTable : gmap jsstring (list DictionaryLookup.LexEntry) :=
  DictionaryLookup.dictionary
    (DictionaryLookup.loadDictionary (H := latin1Host)
       (files (Some rizDictionary) None) (DictionaryLookup.new dictPath)).

Definition rizDecision : option Referee.Decision :=
  dictResult ← DictionaryLookup.segmentLoop (H := latin1Host) rizTable (tokens rizSegment) [];
  Some (Referee.makeDecision rizSegment (Some dictResult)
          {| CorpusRetriever.seg_id := js "s1";
             CorpusRetriever.matches :=
               CorpusRetriever.searchCorpus (H := latin1Host) rizCorpus (text rizSegment) |}).

(** A table whose scores are the two infinities. *)
Definition infiniteDictionary : jsstring :=
  tsv (js "oui") (js "nyee") (js "ADV") (js "Infinity") ++ nl
  ++ tsv (js "non") (js "ayo") (js "ADV") (js "-Infinity").

(** «Bonjour!» *)
Definition quoted_sentence : jsstring := [171%N] ++ js "Bonjour!" ++ [187%N].

(** Two words that neither sample table knows. *)
Definition unknown_sentence : jsstring := js "chat noir".

Definition unknownSegment : Segment :=
  {| seg_id := js "s1"; text := unknown_sentence; tokens := [js "chat"; js "noir"];
     seg_start := 0; seg_end := 9 |}.

(** A sentence that repeats a word, and its segment. *)
Definition repeated_sentence : jsstring := js "le riz, le riz blanc".

Definition repeatedSegment : Segment :=
  {| seg_id := js "s1"; text := repeated_sentence;
     tokens := [js "le"; js "riz"; js "le"; js "riz"; js "blanc"];
     seg_start := 0; seg_end := 20 |}.

(** A row with the explicit score 0. *)
Definition zeroScoreLine : jsstring := tsv (js "eau") (js "koom") (js "NOUN") (js "0").

End Samples.

(** ** Further sample inputs *)

Module Examples.

Import Splitter.

(** A source of terminators and blanks only. *)
Definition blank_sentence : jsstring := js " ...  !? ".

(** The decision for "chat noir", which the sample table does not know. *)
Definition unknownResult : Referee.Decision :=
  Referee.makeDecision Samples.unknownSegment
    (DictionaryLookup.segmentLoop (H := latin1Host) Samples.sampleTable
       (tokens Samples.unknownSegment) [])
    {| CorpusRetriever.seg_id := js "s1"; CorpusRetriever.matches := [] |}.

(** A decision without lookup object and without corpus match. *)
Definition emptyResult : Referee.Decision :=
  Referee.makeDecision Samples.unknownSegment None
    {| CorpusRetriever.seg_id := js "s1"; CorpusRetriever.matches := [] |}.

(** A sentence that the corpus line "le riz blanc" answers, its segment and
    the entry of the line. *)
Definition riz_sentence : jsstring := js "Le riz blanc.".

Definition rizBlancSegment : Segment :=
  {| seg_id := js "s1"; text := js "Le riz blanc";
     tokens := [js "Le"; js "riz"; js "blanc"];
     seg_start := 0; seg_end := 12 |}.

Definition rizBlancEntry : CorpusRetriever.CorpusEntry :=
  {| CorpusRetriever.fr := js "le riz blanc";
     CorpusRetriever.mos := js "riis peelga";
     CorpusRetriever.source := None |}.

End Examples.

(** * Properties *)

(** ** Numbers *)

Lemma eqb_eq (x y : number) : Num.eqb x y = true → x = y.
Proof.
  destruct x as [| | |a], y as [| | |b]; simpl; try done.
  intros Hq. f_equal. apply Qc_is_canon. by apply Qeq_bool_iff.
Qed.

Ltac num_eq := apply eqb_eq; vm_compute; reflexivity.

Lemma ltb_irrefl (x : number) : (x <? x)%js = false.
Proof.
  destruct x as [| | |a]; simpl; try done.
  apply bool_decide_eq_false. apply (irreflexivity Qclt).
Qed.

Lemma ltb_trans (x y z : number) :
  (x <? y)%js = true → (y <? z)%js = true → (x <? z)%js = true.
Proof.
  destruct x as [| | |a], y as [| | |b], z as [| | |c]; simpl; try done.
  repeat case_bool_decide; try done. intros _ _.
  exfalso. eauto using Qclt_trans.
Qed.

Lemma gtb_irrefl (x : number) : (x >? x)%js = false.
Proof. apply ltb_irrefl. Qed.

Lemma gtb_trans (x y z : number) :
  (x >? y)%js = true → (y >? z)%js = true → (x >? z)%js = true.
Proof. unfold gtb. eauto using ltb_trans. Qed.

Lemma Qcpower_pos (q : Qc) (n : nat) : (0 < q)%Qc → (0 < q ^ n)%Qc.
Proof.
  intros Hq. induction n as [|n IH]; simpl; [done|].
  by apply Qcmult_pos_pos.
Qed.

Lemma sign_pos (q : Qc) : (0 < q)%Qc → sign q = Gt.
Proof.
  intros Hq. unfold sign. apply Qcgt_alt. exact Hq.
Qed.

Lemma sign_of_pos_nat (n : nat) : 0 < n → sign (Qc_of_Z (Z.of_nat n)) = Gt.
Proof.
  intros Hn. apply sign_pos. unfold Qclt. simpl.
  unfold Qlt. simpl. lia.
Qed.

(** Multiplying by a positive finite factor. *)
Lemma mul_pos_NaN (x : number) (q : Qc) :
  (0 < q)%Qc → is_NaN (x * Fin q)%js = is_NaN x.
Proof.
  intros Hq. destruct x; simpl; try done; by rewrite (sign_pos _ Hq).
Qed.

Lemma mul_pos_assoc (x : number) (p q : Qc) :
  (0 < p)%Qc → (0 < q)%Qc → (x * Fin p * Fin q)%js = (x * Fin (p * q))%js.
Proof.
  intros Hp Hq. pose proof (Qcmult_pos_pos _ _ Hp Hq) as Hpq.
  destruct x as [| | |a]; simpl;
    rewrite ?(sign_pos _ Hp), ?(sign_pos _ Hpq); simpl;
    rewrite ?(sign_pos _ Hq); simpl; try done.
  by rewrite Qcmult_assoc.
Qed.

Lemma Math_min_NaN (x y : number) :
  is_NaN (Math_min x y) = is_NaN x || is_NaN y.
Proof.
  destruct x, y; simpl; try done; by case_bool_decide.
Qed.

Lemma Math_max_NaN (x y : number) :
  is_NaN (Math_max x y) = is_NaN x || is_NaN y.
Proof.
  destruct x, y; simpl; try done; by case_bool_decide.
Qed.

(** The final clamp [Math.max(0.0, Math.min(1.0, c))]. *)
Lemma clamp_in_unit (c : number) :
  is_NaN c = false → in_unit (Math_max zero (Math_min one c)).
Proof.
  assert (H01 : (0 ≤ 1)%Qc) by done.
  destruct c as [| | |q]; intros Hc; try done; simpl;
    repeat (case_bool_decide; simpl);
    repeat split; auto using Qcle_refl, Qclt_le_weak.
Qed.

Lemma Math_min_one_le (q : Qc) : (q ≤ 1)%Qc → Math_min one (Fin q) = Fin q.
Proof.
  intros H1. simpl. case_bool_decide as Hlt; [done|].
  apply Qcnot_lt_le in Hlt. unfold one. f_equal. by apply Qcle_antisym.
Qed.

Lemma Math_max_zero_ge (q : Qc) : (0 ≤ q)%Qc → Math_max zero (Fin q) = Fin q.
Proof.
  intros H0. simpl. case_bool_decide as Hlt; [done|].
  apply Qcnot_lt_le in Hlt. unfold zero. f_equal. by apply Qcle_antisym.
Qed.

Lemma clamp_unit (q : Qc) :
  (0 ≤ q)%Qc → (q ≤ 1)%Qc → Math_max zero (Math_min one (Fin q)) = Fin q.
Proof.
  intros H0 H1. by rewrite Math_min_one_le, Math_max_zero_ge.
Qed.

(** What [x || d] keeps: every value except [NaN] and zero. *)
Lemma or_default_keeps (x d : number) :
  or_default x d = x ↔ (truthy x = true ∨ x = d).
Proof.
  unfold or_default. destruct (truthy x); split; auto.
  intros [?|?]; done.
Qed.

Lemma truthy_false (x : number) : truthy x = false ↔ (x = NaN ∨ x = zero).
Proof.
  destruct x as [| | |q]; simpl.
  - split; auto.
  - split; [done|intros [?|?]; done].
  - split; [done|intros [?|?]; done].
  - rewrite negb_false_iff, bool_decide_eq_true. unfold zero.
    split; [intros ->; by right|intros [?|[= ->]]; done].
Qed.

(** ** The dictionary table and the lookup *)

Section Lexicon.
Context `{Host}.
Import DictionaryLookup.

Lemma lookup_nonempty (d : gmap jsstring (list LexEntry)) (token : jsstring) :
  lookup d token ≠ [].
Proof.
  unfold lookup. case_bool_decide as Hlen; [done|].
  intros Hnil. by rewrite Hnil in Hlen.
Qed.

(** C7. A token whose lower-cased form is not a key of the table is looked
    up as exactly one entry: score 0.1, part of speech "UNK", and a target
    that wraps the token itself, unchanged, in the marker [<UNK:...>]. *)
Theorem C7_unknown_token_single_placeholder
    (d : gmap jsstring (list LexEntry)) (token : jsstring) :
  d !! toLowerCase token = None →
  ∃ e, lookup d token = [e]
       ∧ score e = dec 1 10
       ∧ pos e = js "UNK"
       ∧ mos e = js "<UNK:" ++ token ++ js ">".
Proof.
  intros Habsent. exists (unknownEntry token).
  unfold lookup. rewrite Habsent. simpl. done.
Qed.

(** A row with non-empty source and target fields is appended under the
    lower-cased source word. *)
Lemma addLine_stores (d : gmap jsstring (list LexEntry)) (line : jsstring)
    (c1 c2 : N) (fr' mos' : jsstring) (others : list jsstring) :
  split_char 9 line = (c1 :: fr') :: (c2 :: mos') :: others →
  addLine d line
  = <[toLowerCase (c1 :: fr') :=
        default [] (d !! toLowerCase (c1 :: fr'))
        ++ [{| mos := c2 :: mos';
               pos := str_or (others !! 0) (js "UNK");
               score := or_default (parseFloat (others !! 1)) (dec 1 2) |}]]> d.
Proof.
  intros Hfields. unfold addLine. rewrite Hfields. simpl.
  case_bool_decide as Hin.
  - done.
  - rewrite lookup_insert_eq, insert_insert_eq.
    apply eq_None_not_Some in Hin. by rewrite Hin.
Qed.

End Lexicon.

(** C8. The row [eau<TAB>koom<TAB>NOUN<TAB>0] carries the explicit score 0,
    which [parseFloat] reads as 0; the entry stored for it has the part of
    speech of the row but the score 0.5. *)
Theorem C8_explicit_zero_score_becomes_half :
  parseFloat (Some (js "0")) = zero
  ∧ DictionaryLookup.addLine (H := latin1Host) ∅ Samples.zeroScoreLine !! js "eau"
    = Some [{| DictionaryLookup.mos := js "koom";
               DictionaryLookup.pos := js "NOUN";
               DictionaryLookup.score := dec 1 2 |}].
Proof.
  split.
  - num_eq.
  - vm_compute. reflexivity.
Qed.

Lemma C7_unknown_token_witness :
  Samples.rizTable !! toLowerCase (Host := latin1Host) (js "chat") = None
  ∧ ∃ e, DictionaryLookup.lookup (H := latin1Host) Samples.rizTable (js "chat") = [e]
         ∧ DictionaryLookup.score e = dec 1 10
         ∧ DictionaryLookup.pos e = js "UNK"
         ∧ DictionaryLookup.mos e = js "<UNK:" ++ js "chat" ++ js ">".
Proof.
  split; [vm_compute; reflexivity|].
  apply (C7_unknown_token_single_placeholder (H := latin1Host)).
  vm_compute; reflexivity.
Defined.

(** ** Objects: the keys after a run of assignments *)

Section ObjFacts.
Context {V : Type}.
Implicit Types (o : obj V) (k : jsstring) (v : V).

Lemma obj_replace_keys k v o : (obj_replace k v o).*1 = o.*1.
Proof.
  induction o as [|[k' v'] o IH]; simpl; [done|].
  case_decide; simplify_eq/=; congruence.
Qed.

Lemma obj_replace_elem k v o k' v' :
  (k', v') ∈ obj_replace k v o → (k' = k ∧ v' = v) ∨ (k', v') ∈ o.
Proof.
  induction o as [|[k1 v1] o IH]; simpl; [by right|].
  case_decide; rewrite !elem_of_cons.
  - intros [[= -> ->]|?]; auto.
  - intros [?|Hin]; auto. destruct (IH Hin); auto.
Qed.

Lemma obj_insert_index_perm n k v o : obj_insert_index n k v o ≡ₚ (k, v) :: o.
Proof.
  induction o as [|[k' v'] o IH]; simpl; [done|].
  destruct (array_index k') as [n'|]; [|done].
  destruct (n' <? n)%N; [|done].
  rewrite IH. apply perm_swap.
Qed.

Lemma obj_add_perm k v o : obj_add k v o ≡ₚ (k, v) :: o.
Proof.
  unfold obj_add. destruct (array_index k).
  - apply obj_insert_index_perm.
  - symmetry. apply Permutation_cons_append.
Qed.

Lemma obj_put_keys_elem k v o k' :
  k' ∈ (obj_put k v o).*1 ↔ k' = k ∨ k' ∈ o.*1.
Proof.
  unfold obj_put, obj_has. case_bool_decide as Hin.
  - rewrite obj_replace_keys. split; [auto|intros [->|?]; done].
  - rewrite obj_add_perm. simpl. by rewrite elem_of_cons.
Qed.

Lemma obj_put_keys_NoDup k v o : NoDup o.*1 → NoDup (obj_put k v o).*1.
Proof.
  unfold obj_put, obj_has. case_bool_decide as Hin.
  - by rewrite obj_replace_keys.
  - rewrite obj_add_perm. simpl. by constructor.
Qed.

Lemma obj_put_elem k v o k' v' :
  (k', v') ∈ obj_put k v o → (k' = k ∧ v' = v) ∨ (k', v') ∈ o.
Proof.
  unfold obj_put. destruct (obj_has o k).
  - apply obj_replace_elem.
  - rewrite obj_add_perm, elem_of_cons. intros [[= -> ->]|?]; auto.
Qed.

Lemma obj_set_Some k v o : k ≠ proto_key → obj_set k v o = Some (obj_put k v o).
Proof. intros Hk. unfold obj_set. by case_decide. Qed.

Lemma obj_get_elem o k v : NoDup o.*1 → (k, v) ∈ o → obj_get o k = Some v.
Proof.
  induction o as [|[k' v'] o IH]; simpl; [by rewrite elem_of_nil|].
  rewrite NoDup_cons, elem_of_cons. intros [Hk' Hnd] [[= <- <-]|Hin].
  - by case_decide.
  - case_decide as Heq; [|by apply IH].
    subst k'. destruct Hk'. apply list_elem_of_fmap. by exists (k, v).
Qed.

End ObjFacts.

(** ** The per-segment lookup object *)

Section SegmentResults.
Context `{Host}.
Import DictionaryLookup.

Lemma segmentLoop_invariant (d : gmap jsstring (list LexEntry)) (tokens : list jsstring)
    (o : obj (list LexEntry)) :
  proto_key ∉ tokens → NoDup o.*1 → holds_lookups d o →
  ∃ o', segmentLoop d tokens o = Some o'
        ∧ NoDup o'.*1
        ∧ holds_lookups d o'
        ∧ (∀ k, k ∈ o'.*1 ↔ k ∈ tokens ∨ k ∈ o.*1).
Proof.
  revert o. induction tokens as [|token rest IH]; intros o Hproto Hnd Hval; simpl.
  - exists o. split_and!; auto. intros k. rewrite elem_of_nil. tauto.
  - rewrite not_elem_of_cons in Hproto. destruct Hproto as [Hne Hproto].
    rewrite obj_set_Some by done. simpl.
    destruct (IH (obj_put token (lookup d token) o)) as (o' & Hrun & Hnd' & Hval' & Hkeys).
    + done.
    + by apply obj_put_keys_NoDup.
    + intros k v Hin. destruct (obj_put_elem _ _ _ _ _ Hin) as [[-> ->]|Hin']; auto.
    + exists o'. split_and!; auto.
      intros k. rewrite Hkeys, obj_put_keys_elem, elem_of_cons. tauto.
Qed.

Lemma segmentLoop_total (d : gmap jsstring (list LexEntry)) (tokens : list jsstring) :
  proto_key ∉ tokens →
  ∃ o, segmentLoop d tokens [] = Some o
       ∧ NoDup o.*1
       ∧ holds_lookups d o
       ∧ (∀ k, k ∈ o.*1 ↔ k ∈ tokens).
Proof.
  intros Hproto.
  destruct (segmentLoop_invariant d tokens [] Hproto) as (o & Hrun & Hnd & Hval & Hkeys).
  - constructor.
  - intros k v. by rewrite elem_of_nil.
  - exists o. split_and!; auto.
    intros k. rewrite Hkeys. simpl. rewrite elem_of_nil. tauto.
Qed.

(** An unknown token is stored as its single placeholder. *)
Lemma segmentLoop_stores_placeholder (d : gmap jsstring (list LexEntry))
    (tokens : list jsstring) (token : jsstring) :
  proto_key ∉ tokens → token ∈ tokens → d !! toLowerCase token = None →
  ∃ o, segmentLoop d tokens [] = Some o ∧ obj_get o token = Some [unknownEntry token].
Proof.
  intros Hproto Hin Habsent.
  destruct (segmentLoop_total d tokens Hproto) as (o & Hrun & Hnd & Hval & Hkeys).
  exists o. split; [done|].
  apply Hkeys, list_elem_of_fmap in Hin. destruct Hin as ([k v] & Hk & Hin).
  simpl in Hk. subst k.
  rewrite (obj_get_elem _ _ _ Hnd Hin). f_equal.
  rewrite (Hval _ _ Hin). unfold lookup. by rewrite Habsent.
Qed.

End SegmentResults.

(** ** Composing the dictionary translation *)

Section Composition.
Context `{Host}.
Import Referee DictionaryLookup.

Lemma winner_head (d : gmap jsstring (list LexEntry)) (token : jsstring) :
  ∃ es, lookup d token = winner d token :: es.
Proof.
  unfold winner. pose proof (lookup_nonempty d token) as Hne.
  destruct (lookup d token) as [|e es]; [done|]. by exists es.
Qed.

Lemma compose_fold (d : gmap jsstring (list LexEntry)) (o : obj (list LexEntry))
    (mosWords : list jsstring) (totalScore : number) (wordCount : nat) :
  holds_lookups d o →
  fold_left composeStep o (mosWords, totalScore, wordCount)
  = (mosWords ++ ((λ t, mos (winner d t)) <$> o.*1),
     fold_left Num.add ((λ t, score (winner d t)) <$> o.*1) totalScore,
     wordCount + length o).
Proof.
  revert mosWords totalScore wordCount.
  induction o as [|[k v] o IH]; intros mosWords totalScore wordCount Hval; simpl.
  - by rewrite app_nil_r, Nat.add_0_r.
  - assert (Hv : v = lookup d k) by (apply Hval; left).
    destruct (winner_head d k) as [es Hes]. rewrite Hv, Hes.
    rewrite IH.
    + by rewrite <-app_assoc, Nat.add_succ_r.
    + intros k' v' Hin. apply Hval. by right.
Qed.

(** The composition of a lookup object: one word and one score per key. *)
Lemma compose_lookups (d : gmap jsstring (list LexEntry)) (o : obj (list LexEntry)) :
  holds_lookups d o →
  composeDictionaryTranslation o
  = {| dc_mos := join (js " ") ((λ t, mos (winner d t)) <$> o.*1);
       dc_confidence :=
         if bool_decide (0 < length o)
         then (totalOf ((λ t, score (winner d t)) <$> o.*1) / of_nat (length o))%js
         else zero;
       word_count := length o |}.
Proof.
  intros Hval. unfold composeDictionaryTranslation.
  by rewrite (compose_fold d o [] zero 0 Hval).
Qed.

(** A duplicate-free list drawn from a list with a repetition is shorter. *)
Lemma NoDup_shorter (keys tokens : list jsstring) :
  NoDup keys → (∀ k, k ∈ keys ↔ k ∈ tokens) → ¬ NoDup tokens →
  length keys < length tokens.
Proof.
  intros Hnd Hsame Hdup.
  assert (Hle : length keys ≤ length tokens).
  { apply submseteq_length, NoDup_submseteq; [done|]. intros k. apply Hsame. }
  destruct (decide (length keys = length tokens)) as [Heq|]; [|lia].
  destruct Hdup. rewrite NoDup_ListNoDup.
  apply NoDup_incl_NoDup with (l := keys).
  - by rewrite <-NoDup_ListNoDup.
  - lia.
  - intros k. rewrite <-!list_elem_of_In. apply Hsame.
Qed.

(** Tokens with a repetition: the keys of the lookup object are the
    distinct tokens, and the composition takes one word and one score per
    key. *)
Lemma repeated_tokens_compose_once
    (d : gmap jsstring (list LexEntry)) (tokens : list jsstring) :
  proto_key ∉ tokens → ¬ NoDup tokens →
  ∃ dictResult,
    segmentLoop d tokens [] = Some dictResult
    ∧ NoDup dictResult.*1
    ∧ (∀ t, t ∈ dictResult.*1 ↔ t ∈ tokens)
    ∧ dc_mos (composeDictionaryTranslation dictResult)
      = join (js " ") ((λ t, mos (winner d t)) <$> dictResult.*1)
    ∧ dc_confidence (composeDictionaryTranslation dictResult)
      = (totalOf ((λ t, score (winner d t)) <$> dictResult.*1)
         / of_nat (length dictResult.*1))%js
    ∧ word_count (composeDictionaryTranslation dictResult) = length dictResult.*1
    ∧ length dictResult.*1 < length tokens.
Proof.
  intros Hproto Hdup.
  destruct (segmentLoop_total d tokens Hproto) as (o & Hrun & Hnd & Hval & Hkeys).
  exists o. rewrite (compose_lookups d o Hval). simpl.
  rewrite !length_fmap.
  assert (Hpos : 0 < length o).
  { destruct tokens as [|t tokens]; [destruct Hdup; constructor|].
    assert (Hin : t ∈ o.*1) by (apply Hkeys; left).
    rewrite <-(length_fmap fst). destruct (o.*1); [by apply elem_of_nil in Hin|simpl; lia]. }
  rewrite bool_decide_eq_true_2 by done.
  split_and!; auto.
  rewrite <-(length_fmap fst o). by apply NoDup_shorter.
Qed.

End Composition.

(** ** The corpus: similarity and search *)

Section Similarity.
Import CorpusRetriever.

Lemma split_runs_aux_nonempty (sep : N → bool) (cur : jsstring) (in_run : bool)
    (s : jsstring) :
  split_runs_aux sep cur in_run s ≠ [].
Proof.
  revert cur in_run. induction s as [|c s IH]; intros cur in_run; simpl; [done|].
  destruct (sep c); [destruct in_run|]; auto.
Qed.

(** The words of a string, as the [Set] the similarity is computed on;
    there is always at least one, possibly empty, word. *)
Lemma words_size_pos (s : jsstring) :
  0 < size (list_to_set (split_runs isWhiteSpace s) : gset jsstring).
Proof.
  unfold split_runs.
  pose proof (split_runs_aux_nonempty isWhiteSpace [] false s) as Hne.
  destruct (split_runs_aux isWhiteSpace [] false s) as [|w ws]; [done|].
  simpl. apply Nat.neq_0_lt_0. intros Hsize. apply size_empty_inv in Hsize.
  assert (Hin : w ∈ ({[w]} ∪ (list_to_set ws : gset jsstring))) by set_solver.
  rewrite Hsize in Hin. set_solver.
Qed.

Lemma filter_elements_intersection (s1 s2 : gset jsstring) :
  (list_to_set (filter (λ x, x ∈ s2) (elements s1)) : gset jsstring) = s1 ∩ s2.
Proof.
  apply set_eq. intros x.
  rewrite elem_of_list_to_set, list_elem_of_filter, elem_of_elements, elem_of_intersection.
  tauto.
Qed.

Lemma elements_app_union (s1 s2 : gset jsstring) :
  (list_to_set (elements s1 ++ elements s2) : gset jsstring) = s1 ∪ s2.
Proof.
  apply set_eq. intros x.
  rewrite elem_of_list_to_set, elem_of_app, !elem_of_elements, elem_of_union.
  tauto.
Qed.

Lemma word_sets_comm (s1 s2 : gset jsstring) :
  s1 ∩ s2 = s2 ∩ s1 ∧ s1 ∪ s2 = s2 ∪ s1.
Proof. split; set_solver. Qed.

Lemma word_sets_idemp (s : gset jsstring) : s ∩ s = s ∧ s ∪ s = s.
Proof. split; set_solver. Qed.

Lemma word_sets_sizes (s1 s2 : gset jsstring) :
  size s1 ≤ size (s1 ∪ s2) ∧ size (s1 ∩ s2) ≤ size (s1 ∪ s2).
Proof. split; apply subseteq_size; set_solver. Qed.

(** The similarity as the Jaccard index of the two word sets. *)
Lemma calculateSimilarity_jaccard (str1 str2 : jsstring) :
  calculateSimilarity str1 str2
  = let set1 : gset jsstring := list_to_set (split_runs isWhiteSpace str1) in
    let set2 : gset jsstring := list_to_set (split_runs isWhiteSpace str2) in
    (of_nat (size (set1 ∩ set2)) / of_nat (size (set1 ∪ set2)))%js.
Proof.
  unfold calculateSimilarity. simpl.
  rewrite filter_elements_intersection, elements_app_union.
  case_bool_decide as Hsize; [|done].
  pose proof (words_size_pos str1) as Hpos.
  pose proof (word_sets_sizes (list_to_set (split_runs isWhiteSpace str1))
                (list_to_set (split_runs isWhiteSpace str2))).
  lia.
Qed.

Lemma div_of_nat_self (n : nat) : 0 < n → (of_nat n / of_nat n)%js = one.
Proof.
  intros Hn. unfold of_nat, one. simpl. rewrite (sign_of_pos_nat n Hn).
  f_equal. apply Qcmult_inv_r.
  intros Hz. pose proof (sign_of_pos_nat n Hn) as Hs.
  rewrite Hz in Hs. discriminate Hs.
Qed.

(** A similarity is a finite number between 0 and 1. *)
Lemma calculateSimilarity_unit (str1 str2 : jsstring) :
  in_unit (calculateSimilarity str1 str2).
Proof.
  rewrite calculateSimilarity_jaccard. simpl.
  set (s1 := list_to_set (split_runs isWhiteSpace str1) : gset jsstring).
  set (s2 := list_to_set (split_runs isWhiteSpace str2) : gset jsstring).
  assert (Hpos : 0 < size (s1 ∪ s2)).
  { pose proof (words_size_pos str1) as Hw. fold s1 in Hw.
    pose proof (word_sets_sizes s1 s2). lia. }
  assert (Hle : size (s1 ∩ s2) ≤ size (s1 ∪ s2)) by apply word_sets_sizes.
  unfold of_nat. simpl. rewrite (sign_of_pos_nat _ Hpos). simpl.
  set (i := size (s1 ∩ s2)) in *. set (u := size (s1 ∪ s2)) in *.
  assert (Hu : (0 < Qc_of_Z (Z.of_nat u))%Qc).
  { unfold Qclt, Qlt. simpl. lia. }
  assert (Hi : (0 ≤ Qc_of_Z (Z.of_nat i))%Qc).
  { unfold Qcle, Qle. simpl. lia. }
  assert (Hiu : (Qc_of_Z (Z.of_nat i) ≤ Qc_of_Z (Z.of_nat u))%Qc).
  { unfold Qcle, Qle. simpl. lia. }
  pose proof (Qcinv_pos _ Hu) as Hinv.
  split.
  - apply Qcmult_nonneg_nonneg; [done|by apply Qclt_le_weak].
  - unfold Qcdiv. rewrite <-(Qcmult_inv_r (Qc_of_Z (Z.of_nat u))).
    + apply Qcmult_le_mono_nonneg_r; [by apply Qclt_le_weak|done].
    + intros Hz. rewrite Hz in Hu. by apply (irreflexivity Qclt) in Hu.
Qed.

(** C9. The similarity is symmetric in its two arguments, and the
    similarity of a string with itself is 1.0: for every non-empty string,
    and for the empty one as well, which splits into one empty word. *)
Theorem C9_similarity_symmetric_and_reflexive :
  (∀ a b : jsstring, calculateSimilarity a b = calculateSimilarity b a)
  ∧ (∀ a : jsstring, calculateSimilarity a a = one).
Proof.
  split.
  - intros a b. rewrite !calculateSimilarity_jaccard. simpl.
    set (s1 := list_to_set (split_runs isWhiteSpace a) : gset jsstring).
    set (s2 := list_to_set (split_runs isWhiteSpace b) : gset jsstring).
    destruct (word_sets_comm s1 s2) as [Hi Hu]. by rewrite Hi, Hu.
  - intros a. rewrite calculateSimilarity_jaccard. simpl.
    set (s := list_to_set (split_runs isWhiteSpace a) : gset jsstring).
    destruct (word_sets_idemp s) as [Hi Hu].
    rewrite Hi, Hu. apply div_of_nat_self, words_size_pos.
Qed.

End Similarity.

Lemma in_unit_Fin (x : number) : in_unit x → ∃ q, x = Fin q.
Proof. destruct x as [| | |q]; simpl; try done. by exists q. Qed.

Lemma sub_self_not_pos (x y : number) : x = y → (x - y >? zero)%js = false.
Proof.
  intros <-. destruct x as [| | |q]; simpl; try done.
  apply bool_decide_eq_false. unfold Qcminus. rewrite Qcplus_opp_r.
  apply (irreflexivity Qclt).
Qed.

Lemma sub_pos_Fin (a b : Qc) : (Fin b - Fin a >? zero)%js = (Fin a <? Fin b)%js.
Proof.
  simpl. apply bool_decide_ext. symmetry. apply Qclt_minus_iff.
Qed.

Lemma geb_Fin_total (a b : Qc) :
  (Fin a <? Fin b)%js = false → (Fin a >=? Fin b)%js = true.
Proof.
  simpl. rewrite bool_decide_eq_false, bool_decide_eq_true. apply Qcnot_lt_le.
Qed.

Lemma ltb_geb_Fin (a b : Qc) :
  (Fin a <? Fin b)%js = true → (Fin b >=? Fin a)%js = true.
Proof.
  simpl. rewrite !bool_decide_eq_true. apply Qclt_le_weak.
Qed.

Lemma geb_trans (x y z : number) :
  (x >=? y)%js = true → (y >=? z)%js = true → (x >=? z)%js = true.
Proof.
  destruct x as [| | |a], y as [| | |b], z as [| | |c]; simpl; try done.
  rewrite !bool_decide_eq_true. intros Hab Hbc. by apply Qcle_trans with b.
Qed.

Section Search.
Context `{Host}.
Import CorpusRetriever.

Lemma collectMatches_sims (c : list CorpusEntry) (queryLower : jsstring) :
  Forall (λ m, (sim m >? dec 6 10)%js = true ∧ in_unit (sim m))
         (collectMatches c queryLower).
Proof.
  induction c as [|entry c IH]; [constructor|].
  cbn [collectMatches].
  destruct (calculateSimilarity queryLower (toLowerCase (fr entry)) >? dec 6 10)%js eqn:Hgt;
    [|exact IH].
  constructor; [|exact IH]. split; [exact Hgt|apply calculateSimilarity_unit].
Qed.

Lemma sort_insert_perm {A} (compare : A → A → number) (x : A) (l : list A) :
  sort_insert compare x l ≡ₚ x :: l.
Proof.
  induction l as [|y l IH]; cbn [sort_insert]; [done|].
  destruct (compare x y >? zero)%js; [|done].
  rewrite IH. apply perm_swap.
Qed.

Lemma Array_sort_perm {A} (compare : A → A → number) (l : list A) :
  Array_sort compare l ≡ₚ l.
Proof.
  induction l as [|x l IH]; simpl; [done|].
  unfold Array_sort in *. simpl. by rewrite sort_insert_perm, IH.
Qed.

Lemma sort_insert_sorted (x : Match) (l : list Match) :
  in_unit (sim x) → Forall (λ m, in_unit (sim m)) l → nonIncreasing l →
  nonIncreasing (sort_insert bySimilarityDesc x l).
Proof.
  intros Hx Hl Hs. destruct (in_unit_Fin _ Hx) as [a Ha].
  induction Hs as [|y l Hs IH Hy]; cbn [sort_insert].
  - repeat constructor.
  - apply Forall_cons in Hl. destruct Hl as [Hyu Hl].
    destruct (in_unit_Fin _ Hyu) as [b Hb].
    unfold bySimilarityDesc at 1. rewrite Ha, Hb, sub_pos_Fin.
    destruct (Fin a <? Fin b)%js eqn:Hlt.
    + constructor; [by apply IH|].
      rewrite sort_insert_perm. constructor; [|done].
      rewrite Ha, Hb. by apply ltb_geb_Fin.
    + apply geb_Fin_total in Hlt.
      constructor; [by constructor|].
      constructor; [by rewrite Ha, Hb|].
      eapply Forall_impl; [exact Hy|]. simpl. intros z Hz.
      apply geb_trans with (sim y); [by rewrite Ha, Hb|done].
Qed.

Lemma Array_sort_sorted (l : list Match) :
  Forall (λ m, in_unit (sim m)) l → nonIncreasing (Array_sort bySimilarityDesc l).
Proof.
  induction l as [|x l IH]; intros Hl.
  - constructor.
  - apply Forall_cons in Hl. destruct Hl as [Hx Hl].
    change (Array_sort bySimilarityDesc (x :: l))
      with (sort_insert bySimilarityDesc x (Array_sort bySimilarityDesc l)).
    apply sort_insert_sorted; [done| |by apply IH].
    by rewrite Array_sort_perm.
Qed.

(** The sort is stable: matches of one and the same similarity keep their
    relative order. *)
Lemma sort_insert_stable (v : number) (x : Match) (l : list Match) :
  filter (λ m, sim m = v) (sort_insert bySimilarityDesc x l)
  = filter (λ m, sim m = v) (x :: l).
Proof.
  induction l as [|y l IH]; cbn [sort_insert]; [done|].
  destruct (bySimilarityDesc x y >? zero)%js eqn:Hjump; [|done].
  rewrite (filter_cons _ y), IH, !(filter_cons _ x), (filter_cons _ y).
  destruct (decide (sim x = v)) as [Hxv|]; [|done].
  destruct (decide (sim y = v)) as [Hyv|]; [|done].
  unfold bySimilarityDesc in Hjump.
  rewrite sub_self_not_pos in Hjump by congruence. done.
Qed.

Lemma Array_sort_stable (v : number) (l : list Match) :
  filter (λ m, sim m = v) (Array_sort bySimilarityDesc l) = filter (λ m, sim m = v) l.
Proof.
  induction l as [|x l IH]; [done|].
  change (Array_sort bySimilarityDesc (x :: l))
    with (sort_insert bySimilarityDesc x (Array_sort bySimilarityDesc l)).
  by rewrite sort_insert_stable, !filter_cons, IH.
Qed.

(** C5. Whatever the query and the loaded corpus, [searchCorpus] returns at
    most 5 matches, each of similarity strictly above 0.6, in non-increasing
    order of similarity, and matches of equal similarity come in the order
    in which the corpus lists them. *)
Theorem C5_searchCorpus_top5_sorted_stable
    (c : list CorpusEntry) (query : jsstring) :
  length (searchCorpus c query) ≤ 5
  ∧ Forall (λ m, (sim m >? dec 6 10)%js = true) (searchCorpus c query)
  ∧ nonIncreasing (searchCorpus c query)
  ∧ ∀ v, filter (λ m, sim m = v) (searchCorpus c query)
         `prefix_of` filter (λ m, sim m = v) (collectMatches c (toLowerCase query)).
Proof.
  unfold searchCorpus. simpl.
  pose proof (collectMatches_sims c (toLowerCase query)) as Hsims.
  set (matches := collectMatches c (toLowerCase query)) in *.
  split_and!.
  - rewrite length_take. lia.
  - apply Forall_take. rewrite Array_sort_perm.
    eapply Forall_impl; [exact Hsims|]. by intros m [? _].
  - assert (Hs : nonIncreasing (Array_sort bySimilarityDesc matches)).
    { apply Array_sort_sorted. eapply Forall_impl; [exact Hsims|]. by intros m [_ ?]. }
    rewrite <-(take_drop 5 (Array_sort bySimilarityDesc matches)) in Hs.
    by apply StronglySorted_app_1_l in Hs.
  - intros v. rewrite <-(Array_sort_stable v matches).
    destruct (prefix_take (Array_sort bySimilarityDesc matches) 5) as [k Hk].
    rewrite Hk at 2. rewrite filter_app. by eexists.
Qed.

End Search.

(** ** The referee *)

Section Winner.
Import Referee.

(** The fold of [reduce]: the result is an element of the list, no element
    has a strictly greater confidence, and no earlier element has the same
    confidence. *)
Lemma reduce_first_maximum (first : Candidate) (rest : list Candidate) :
  ∃ i, (first :: rest) !! i = Some (fold_left pick rest first)
       ∧ (∀ c, c ∈ first :: rest →
            (confidence c >? confidence (fold_left pick rest first))%js = false)
       ∧ (∀ j c, j < i → (first :: rest) !! j = Some c →
            confidence c ≠ confidence (fold_left pick rest first)).
Proof.
  induction rest as [|x rest IH] using rev_ind.
  - exists 0. simpl. split_and!; [done| |lia].
    intros c Hc. apply list_elem_of_singleton in Hc. subst c. apply gtb_irrefl.
  - destruct IH as (i & Hi & Hmax & Hfirst).
    rewrite fold_left_app. simpl.
    set (best := fold_left pick rest first) in *.
    assert (Hlen : i < length (first :: rest)) by (by apply lookup_lt_Some in Hi).
    change (pick best x)
      with (if (confidence x >? confidence best)%js then x else best).
    destruct (confidence x >? confidence best)%js eqn:Hgt.
    + exists (length (first :: rest)). split_and!.
      * rewrite app_comm_cons, lookup_app_r by done.
        by rewrite Nat.sub_diag.
      * intros c Hc. rewrite app_comm_cons, elem_of_app in Hc.
        destruct Hc as [Hc|Hc].
        -- destruct (confidence c >? confidence x)%js eqn:Hcx; [|done].
           pose proof (Hmax c Hc) as Hcb.
           by rewrite (gtb_trans _ _ _ Hcx Hgt) in Hcb.
        -- apply list_elem_of_singleton in Hc. subst c. apply gtb_irrefl.
      * intros j c Hj Hc Heq.
        rewrite app_comm_cons, lookup_app_l in Hc by done.
        apply list_elem_of_lookup_2 in Hc. apply Hmax in Hc.
        rewrite Heq, Hgt in Hc. done.
    + exists i. split_and!.
      * rewrite app_comm_cons, lookup_app_l by done. exact Hi.
      * intros c Hc. rewrite app_comm_cons, elem_of_app in Hc.
        destruct Hc as [Hc|Hc]; [by apply Hmax|].
        apply list_elem_of_singleton in Hc. by subst c.
      * intros j c Hj Hc. apply (Hfirst j c Hj).
        rewrite app_comm_cons, lookup_app_l in Hc by lia. exact Hc.
Qed.

(** C2, as the code has it.  The candidate list of a decision may be
    empty: it is empty exactly when there is no corpus match and no
    non-blank dictionary composition, and the winner is then the sentinel
    (origin none, confidence 0.0), which is not put into the list.  When the
    list is not empty the winner is one of its elements, no element has a
    strictly greater confidence, and no element listed before the winner has
    the winner's confidence. *)
Theorem C2_winner_is_earliest_maximum_or_sentinel
    (segment : Splitter.Segment)
    (dictResult : option (obj (list DictionaryLookup.LexEntry)))
    (corpusResult : CorpusRetriever.Result) :
  final (makeDecision segment dictResult corpusResult)
  = mos (selectBest segment (candidates (makeDecision segment dictResult corpusResult)))
  ∧ (candidates (makeDecision segment dictResult corpusResult) = []
     ↔ CorpusRetriever.matches corpusResult = []
       ∧ ∀ dr, dictResult = Some dr →
               trim (dc_mos (composeDictionaryTranslation dr)) = [])
  ∧ match candidates (makeDecision segment dictResult corpusResult) with
    | [] =>
        selectBest segment [] = sentinel segment
        ∧ source (sentinel segment) = none
        ∧ confidence (sentinel segment) = zero
        ∧ mos (sentinel segment)
          = js "<UNTRANSLATED:" ++ Splitter.text segment ++ js ">"
    | first :: rest =>
        ∃ i, (first :: rest) !! i = Some (selectBest segment (first :: rest))
             ∧ (∀ c, c ∈ first :: rest →
                  (confidence c >? confidence (selectBest segment (first :: rest)))%js
                  = false)
             ∧ (∀ j c, j < i → (first :: rest) !! j = Some c →
                  confidence c ≠ confidence (selectBest segment (first :: rest)))
    end.
Proof.
  split_and!.
  - done.
  - cbn [makeDecision candidates]. unfold assemble.
    destruct (CorpusRetriever.matches corpusResult) as [|m ms]; simpl.
    + destruct dictResult as [dr|].
      * case_bool_decide as Hlen.
        -- split; [done|]. intros [_ Hblank]. rewrite (Hblank dr eq_refl) in Hlen.
           simpl in Hlen. lia.
        -- split; [|done]. intros _. split; [done|]. intros dr' [= <-].
           destruct (trim _); [done|]. simpl in Hlen. lia.
      * split; [|done]. intros _. split; [done|]. by intros dr.
    + split; [done|]. by intros [? _].
  - destruct (candidates (makeDecision segment dictResult corpusResult)) as [|first rest].
    + done.
    + apply reduce_first_maximum.
Qed.

(** The feature is read from the first list element. *)
Lemma source_confidence_first (result : Decision) :
  Scorer.source_confidence (Scorer.extractFeatures result)
  = match candidates result with
    | first :: _ => confidence first
    | [] => zero
    end.
Proof. reflexivity. Qed.

End Winner.

(** The sentence «Bonjour!» splits into the segments [«Bonjour] and [»]; the
    second one has no token and no corpus match, and its decision carries an
    empty candidate list. *)
Lemma C2_counterexample_empty_candidate_list :
  ∃ r1 r2,
    Samples.run (Some Samples.sampleDictionary) (Some Samples.sampleCorpusLine)
      Samples.quoted_sentence = Some [r1; r2]
    ∧ Referee.src_text (Scorer.result r2) = [187%N]
    ∧ Referee.candidates (Scorer.result r2) = []
    ∧ Referee.final (Scorer.result r2) = js "<UNTRANSLATED:" ++ [187%N] ++ js ">".
Proof.
  eexists _, _. split; [vm_compute; reflexivity|].
  split_and!; vm_compute; reflexivity.
Qed.

(** C1. For the segment "le riz", the corpus line "le riz blanc" is listed
    first with similarity 2/3 and the dictionary composition "la riis"
    second with confidence 0.855; the composition wins, and the feature
    [source_confidence] of the scored decision is 2/3, the confidence of
    the first-listed candidate, not 0.855. *)
Theorem C1_source_confidence_of_first_listed_candidate :
  ∃ decision c1 c2,
    Samples.rizDecision = Some decision
    ∧ Referee.candidates decision = [c1; c2]
    ∧ Referee.source c1 = Referee.corpus
    ∧ Referee.confidence c1 = dec 2 3
    ∧ Referee.source c2 = Referee.dictionary
    ∧ Referee.confidence c2 = dec 171 200
    ∧ Referee.selectBest Samples.rizSegment (Referee.candidates decision) = c2
    ∧ Referee.final decision = Referee.mos c2
    ∧ Scorer.source_confidence
        (Scorer.features (Scorer.calculateCompositeScore decision)) = dec 2 3.
Proof.
  eexists _, _, _. split; [vm_compute; reflexivity|].
  split; [reflexivity|].
  split_and!; try (vm_compute; reflexivity); num_eq.
Qed.

(** ** The scorer *)

Section Composite.
Import Scorer.

Lemma seven_tenths_pos : (0 < Q2Qc (Qmake 7 10))%Qc.
Proof. done. Qed.

Lemma mul_pow_iter (x : number) (n : nat) :
  0 < n →
  (x * Math_pow (Q2Qc (Qmake 7 10)) n)%js = Nat.iter n (λ c, (c * dec 7 10)%js) x.
Proof.
  intros Hn. induction n as [|n IH]; [lia|].
  destruct n as [|n].
  - change (Nat.iter 1 (λ c, (c * dec 7 10)%js) x) with (x * dec 7 10)%js.
    unfold Math_pow, dec. f_equal.
  - rewrite Nat.iter_succ, <-IH by lia.
    unfold dec, Math_pow.
    rewrite mul_pos_assoc; [|apply Qcpower_pos, seven_tenths_pos|apply seven_tenths_pos].
    do 2 f_equal. change (Q2Qc (Qmake 7 10) ^ S (S n))%Qc
      with (Q2Qc (Qmake 7 10) * Q2Qc (Qmake 7 10) ^ S n)%Qc.
    apply Qcmult_comm.
Qed.

(** The code computes what the specification describes. *)
Lemma calculateCompositeScore_refines_spec (result : Referee.Decision) :
  confidence (calculateCompositeScore result)
  = compositeBySpec (source_confidence (extractFeatures result))
      (unknown_words (extractFeatures result))
      (length_ratio (extractFeatures result))
      (candidate_count (extractFeatures result)).
Proof.
  unfold calculateCompositeScore, compositeBySpec, adjust. cbn [confidence].
  set (f := extractFeatures result).
  assert (Hpow :
    (if bool_decide (0 < unknown_words f)
     then (source_confidence f * Math_pow (Q2Qc (Qmake 7 10)) (unknown_words f))%js
     else source_confidence f)
    = Nat.iter (unknown_words f) (λ c, (c * dec 7 10)%js) (source_confidence f)).
  { case_bool_decide as Hk; [by apply mul_pow_iter|].
    by replace (unknown_words f) with 0 by lia. }
  rewrite Hpow. done.
Qed.

Lemma adjust_NaN (f : Features) :
  is_NaN (adjust f) = is_NaN (source_confidence f).
Proof.
  unfold adjust.
  set (c1 := if bool_decide (0 < unknown_words f) then _ else _).
  assert (H1 : is_NaN c1 = is_NaN (source_confidence f)).
  { subst c1. case_bool_decide; [|done].
    apply mul_pos_NaN, Qcpower_pos, seven_tenths_pos. }
  set (c2 := if (length_ratio f <? dec 3 10)%js then _ else _).
  assert (H2 : is_NaN c2 = is_NaN (source_confidence f)).
  { subst c2. destruct (length_ratio f <? dec 3 10)%js; [|done].
    unfold dec. by rewrite mul_pos_NaN. }
  case_bool_decide; [|done].
  unfold dec. by rewrite Math_min_NaN, mul_pos_NaN.
Qed.

(** The clamp works for every first-listed confidence that is a number,
    finite or not, in range or not. *)
Lemma composite_in_unit (result : Referee.Decision) :
  is_NaN (source_confidence (extractFeatures result)) = false →
  in_unit (confidence (calculateCompositeScore result)).
Proof.
  intros Hsrc. cbn [calculateCompositeScore confidence].
  apply clamp_in_unit. by rewrite adjust_NaN.
Qed.

(** [NaN] passes through the clamp. *)
Lemma composite_NaN (result : Referee.Decision) :
  source_confidence (extractFeatures result) = NaN →
  confidence (calculateCompositeScore result) = NaN.
Proof.
  intros Hsrc. cbn [calculateCompositeScore confidence].
  pose proof (adjust_NaN (extractFeatures result)) as Hadj.
  rewrite Hsrc in Hadj. destruct (adjust _); done.
Qed.

End Composite.

(** C6. A table may carry the scores [Infinity] and [-Infinity], which
    [parseFloat] accepts.  For the sentence "oui non" their mean is [NaN];
    it is the confidence of the only candidate, it goes through the
    penalties and through [Math.max(0.0, Math.min(1.0, ...))] unchanged, and
    the composite confidence is [NaN], which is not in [0,1]. *)
Theorem C6_composite_is_NaN_for_infinite_scores :
  ∃ r,
    Samples.run (Some Samples.infiniteDictionary) None (js "oui non") = Some [r]
    ∧ Scorer.source_confidence (Scorer.quality_features r) = NaN
    ∧ Scorer.composite_confidence r = NaN
    ∧ ¬ in_unit (Scorer.composite_confidence r).
Proof.
  eexists. split; [vm_compute; reflexivity|].
  split_and!; try reflexivity. intros [].
Qed.

(** C4. The harness sentence "Je vais au marché." against the sample
    tables.  The splitter cuts the sentence at the full stop, so the segment
    text is "Je vais au marché"; against the corpus line, which keeps its
    full stop, three of five words agree, the similarity is 0.6, not above
    the threshold, and the query returns nothing.  The only candidate is the
    dictionary composition, and the composite confidence is below 1. *)
Theorem C4_harness_sentence_finds_no_corpus_match :
  ∃ segment r c,
    Splitter.process (H := latin1Host) Samples.marche_sentence = [segment]
    ∧ Splitter.text segment = js "Je vais au march" ++ [233%N]
    ∧ CorpusRetriever.calculateSimilarity
        (toLowerCase (Host := latin1Host) (Splitter.text segment))
        (toLowerCase (Host := latin1Host) Samples.marche_sentence) = dec 6 10
    ∧ CorpusRetriever.searchCorpus (H := latin1Host) Samples.sampleCorpus
        (Splitter.text segment) = []
    ∧ Samples.marche_run = Some [r]
    ∧ Referee.candidates (Scorer.result r) = [c]
    ∧ Referee.source c = Referee.dictionary
    ∧ (Referee.confidence c <? one)%js = true
    ∧ is_prefix (js "Dictionary composition with ")
        (Referee.explanation (Scorer.result r)) = true
    ∧ (Scorer.composite_confidence r <? one)%js = true.
Proof.
  eexists _, _, _. split; [vm_compute; reflexivity|].
  split; [vm_compute; reflexivity|].
  split; [num_eq|].
  split; [vm_compute; reflexivity|].
  split; [vm_compute; reflexivity|].
  split; [reflexivity|].
  split_and!; vm_compute; reflexivity.
Qed.

(** Queried with the full stop kept, the same corpus line is found with
    similarity 1.0. *)
Lemma unsplit_sentence_matches :
  ∃ m, CorpusRetriever.searchCorpus (H := latin1Host) Samples.sampleCorpus
         Samples.marche_sentence = [m]
       ∧ CorpusRetriever.sim m = one
       ∧ CorpusRetriever.m_mos m = Samples.marche_target
       ∧ Referee.percent (CorpusRetriever.sim m) = js "100.0".
Proof.
  eexists. split; [vm_compute; reflexivity|].
  split_and!; try (vm_compute; reflexivity). num_eq.
Qed.

(** ** Segments of unknown tokens *)

Lemma drop_while_keeps (p : N → bool) (s : jsstring) (c : N) :
  In c s → p c = false → In c (drop_while p s).
Proof.
  intros Hin Hc. induction s as [|a s IH]; simpl; [done|].
  destruct (p a) eqn:Hpa; [|done].
  destruct Hin as [->|Hin]; [congruence|by apply IH].
Qed.

(** A string with a character that is not white space does not trim to the
    empty string. *)
Lemma trim_nonempty (s : jsstring) (c : N) :
  In c s → isWhiteSpace c = false → 0 < length (trim s).
Proof.
  intros Hin Hc. unfold trim, trimEnd, trimStart.
  assert (Hin' : In c (rev (drop_while isWhiteSpace (rev (drop_while isWhiteSpace s))))).
  { rewrite <-in_rev. apply drop_while_keeps; [|done].
    rewrite <-in_rev. by apply drop_while_keeps. }
  destruct (rev _); [done|simpl; lia].
Qed.

Lemma join_first (sep : jsstring) (c : N) (w : jsstring) (ps : list jsstring) :
  In c (join sep ((c :: w) :: ps)).
Proof. destruct ps; simpl; by left. Qed.

Lemma Qcpower_le_1 (p : Qc) (n : nat) : (0 ≤ p)%Qc → (p ≤ 1)%Qc → (p ^ n ≤ 1)%Qc.
Proof.
  intros H0 H1. induction n as [|n IH]; simpl; [apply Qcle_refl|].
  apply Qcle_trans with (p * 1)%Qc.
  - by apply Qcmult_le_mono_nonneg_l.
  - by rewrite Qcmult_1_r.
Qed.

Lemma scaled_tenth (q f : Qc) :
  (0 < q)%Qc → (q ≤ Q2Qc (Qmake 1 10))%Qc → (0 < f)%Qc → (f ≤ 1)%Qc →
  (0 < q * f)%Qc ∧ (q * f ≤ Q2Qc (Qmake 1 10))%Qc.
Proof.
  intros Hq0 Hq1 Hf0 Hf1. split; [by apply Qcmult_pos_pos|].
  apply Qcle_trans with (q * 1)%Qc.
  - apply Qcmult_le_mono_nonneg_l; [by apply Qclt_le_weak|done].
  - by rewrite Qcmult_1_r.
Qed.

(** The penalties applied to a single candidate of confidence 0.1. *)
Lemma adjust_single_tenth (f : Scorer.Features) :
  Scorer.source_confidence f = dec 1 10 → Scorer.candidate_count f = 1 →
  ∃ q, Scorer.adjust f = Fin q ∧ (0 < q)%Qc ∧ (q ≤ Q2Qc (Qmake 1 10))%Qc.
Proof.
  intros Hsrc Hcount. unfold Scorer.adjust. rewrite Hsrc, Hcount.
  rewrite (bool_decide_eq_false_2 (1 < 1)) by lia.
  assert (H1 : ∃ q1,
    (if bool_decide (0 < Scorer.unknown_words f)
     then (dec 1 10 * Math_pow (Q2Qc (Qmake 7 10)) (Scorer.unknown_words f))%js
     else dec 1 10) = Fin q1 ∧ (0 < q1)%Qc ∧ (q1 ≤ Q2Qc (Qmake 1 10))%Qc).
  { case_bool_decide.
    - eexists. split; [reflexivity|].
      apply scaled_tenth; [done|apply Qcle_refl| |].
      + apply Qcpower_pos, seven_tenths_pos.
      + by apply Qcpower_le_1.
    - eexists. split; [reflexivity|]. split; [done|apply Qcle_refl]. }
  destruct H1 as (q1 & -> & Hq0 & Hq1).
  destruct (Scorer.length_ratio f <? dec 3 10)%js.
  - eexists. split; [reflexivity|]. by apply scaled_tenth.
  - by exists q1.
Qed.

Section UnknownSegments.
Context `{Host}.
Import Splitter Referee DictionaryLookup.

Lemma total_of_tenths (d : gmap jsstring (list LexEntry)) (keys : list jsstring) (t : Qc) :
  (∀ k, k ∈ keys → winner d k = unknownEntry k) →
  fold_left Num.add ((λ k, score (winner d k)) <$> keys) (Fin t)
  = Fin (t + Qc_of_Z (Z.of_nat (length keys)) * Q2Qc (Qmake 1 10))%Qc.
Proof.
  revert t. induction keys as [|k keys IH]; intros t Hunk.
  - cbn [fmap list_fmap fold_left length]. f_equal.
    change (Z.of_nat 0) with 0%Z. rewrite Z2Qc_inj_0. ring.
  - cbn [fmap list_fmap fold_left length].
    rewrite Hunk by left. cbn [score unknownEntry]. unfold dec at 1. cbn [Num.add].
    rewrite IH by (intros k' Hk'; apply Hunk; by right).
    f_equal. rewrite Nat2Z.inj_succ, <-Z.add_1_r, Z2Qc_inj_add, Z2Qc_inj_1. ring.
Qed.

Lemma mean_of_tenths (n : nat) :
  0 < n →
  (Fin (0 + Qc_of_Z (Z.of_nat n) * Q2Qc (Qmake 1 10))%Qc / of_nat n)%js = dec 1 10.
Proof.
  intros Hn. unfold of_nat, dec. cbn [Num.div]. rewrite (sign_of_pos_nat n Hn).
  f_equal. field.
  intros Hz. pose proof (sign_of_pos_nat n Hn) as Hs. rewrite Hz in Hs. discriminate Hs.
Qed.

(** The decision for a segment of unknown tokens without corpus match:
    the composition of the placeholders is the only candidate, with
    confidence 0.1, and the composite confidence is positive and at most
    0.1. *)
Lemma unknown_segment_decision
    (d : gmap jsstring (list LexEntry)) (segment : Segment)
    (corpusResult : CorpusRetriever.Result) :
  tokens segment ≠ [] →
  proto_key ∉ tokens segment →
  (∀ t, t ∈ tokens segment → d !! toLowerCase t = None) →
  CorpusRetriever.matches corpusResult = [] →
  ∃ dictResult c q,
    segmentLoop d (tokens segment) [] = Some dictResult
    ∧ NoDup dictResult.*1
    ∧ (∀ t, t ∈ dictResult.*1 ↔ t ∈ tokens segment)
    ∧ candidates (makeDecision segment (Some dictResult) corpusResult) = [c]
    ∧ source c = Referee.dictionary
    ∧ confidence c = dec 1 10
    ∧ Referee.mos c
      = join (js " ") ((λ t, js "<UNK:" ++ t ++ js ">") <$> dictResult.*1)
    ∧ final (makeDecision segment (Some dictResult) corpusResult) = Referee.mos c
    ∧ Scorer.confidence
        (Scorer.calculateCompositeScore
           (makeDecision segment (Some dictResult) corpusResult)) = Fin q
    ∧ (0 < q)%Qc
    ∧ (q ≤ Q2Qc (Qmake 1 10))%Qc.
Proof.
  intros Htok Hproto Habsent Hnone.
  destruct (segmentLoop_total d (tokens segment) Hproto) as (o & Hrun & Hnd & Hval & Hkeys).
  assert (Hunk : ∀ k, k ∈ o.*1 → winner d k = unknownEntry k).
  { intros k Hk. unfold winner, lookup. by rewrite (Habsent k) by by apply Hkeys. }
  assert (Hpos : 0 < length o).
  { destruct (tokens segment) as [|t ts]; [done|].
    assert (Hin : t ∈ o.*1) by (apply Hkeys; left).
    rewrite <-(length_fmap fst). destruct (o.*1); [by apply elem_of_nil in Hin|simpl; lia]. }
  pose proof (compose_lookups d o Hval) as Hcomp.
  rewrite bool_decide_eq_true_2 in Hcomp by done.
  assert (Hmos : (λ t, DictionaryLookup.mos (winner d t)) <$> o.*1
                 = (λ t, js "<UNK:" ++ t ++ js ">") <$> o.*1).
  { apply list_fmap_ext. intros i k Hk. apply list_elem_of_lookup_2 in Hk.
    by rewrite (Hunk k Hk). }
  unfold totalOf, zero in Hcomp.
  rewrite (total_of_tenths d _ _ Hunk), length_fmap, (mean_of_tenths _ Hpos), Hmos in Hcomp.
  assert (Hblank : 0 < length (trim (dc_mos (composeDictionaryTranslation o)))).
  { rewrite Hcomp. cbn [dc_mos].
    destruct o as [|[k v] o]; [simpl in Hpos; lia|].
    apply (trim_nonempty _ 60%N); [apply join_first|done]. }
  assert (Hcands : candidates (makeDecision segment (Some o) corpusResult)
    = [{| Referee.mos := dc_mos (composeDictionaryTranslation o);
          source := Referee.dictionary;
          confidence := dc_confidence (composeDictionaryTranslation o);
          details := ofComposition (composeDictionaryTranslation o) |}]).
  { cbn [makeDecision candidates]. unfold assemble. rewrite Hnone.
    by rewrite bool_decide_eq_true_2 by done. }
  destruct (adjust_single_tenth
              (Scorer.extractFeatures (makeDecision segment (Some o) corpusResult)))
    as (q & Hadj & Hq0 & Hq1).
  { cbn [Scorer.extractFeatures Scorer.source_confidence]. rewrite Hcands.
    cbn [confidence]. by rewrite Hcomp. }
  { cbn [Scorer.extractFeatures Scorer.candidate_count]. by rewrite Hcands. }
  eexists o, _, q. split; [exact Hrun|]. split; [exact Hnd|]. split; [exact Hkeys|].
  split; [exact Hcands|].
  cbn [source confidence Referee.mos].
  split; [done|]. split; [by rewrite Hcomp|]. split; [by rewrite Hcomp|].
  split.
  { cbn [makeDecision final]. fold (candidates (makeDecision segment (Some o) corpusResult)).
    change (assemble (Some o) corpusResult)
      with (candidates (makeDecision segment (Some o) corpusResult)).
    by rewrite Hcands. }
  split; [|done].
  cbn [Scorer.calculateCompositeScore Scorer.confidence]. rewrite Hadj.
  apply clamp_unit; [by apply Qclt_le_weak|].
  apply Qcle_trans with (Q2Qc (Qmake 1 10)); done.
Qed.

End UnknownSegments.

(** ** The pipeline returns

    Tokens never contain an underscore and segment identifiers start with
    [s], so no assignment of the dictionary stage touches [__proto__]; every
    stored lookup is non-empty, and the corpus stage returns one result per
    segment.  Hence [translateSentence] never takes its [catch] branch before
    the logger. *)

Section Returns.
Context `{Host}.
Import Splitter.

Lemma split_runs_aux_fields (sep : N → bool) (cur : jsstring) (in_run : bool)
    (s field : jsstring) (c : N) :
  (∀ a, In a cur → sep a = false) →
  In field (split_runs_aux sep cur in_run s) → In c field → sep c = false.
Proof.
  revert cur in_run. induction s as [|a s IH]; intros cur in_run Hcur; simpl.
  - intros [<-|[]] Hc. apply Hcur. by apply in_rev.
  - destruct (sep a) eqn:Ha.
    + destruct in_run; simpl.
      * by apply IH.
      * intros [<-|Hin] Hc; [apply Hcur; by apply in_rev|].
        by apply (IH [] true).
    + apply IH. intros b [<-|Hb]; auto.
Qed.

Lemma codeUnits_small (cps : list N) (u : N) :
  (u < 55296)%N → u ∈ codeUnits cps → u ∈ cps.
Proof.
  intros Hu Hin. unfold codeUnits in Hin.
  apply list_elem_of_bind in Hin. destruct Hin as (cp & Hin & Hcp).
  destruct (65536 <=? cp)%N eqn:Hbig.
  - apply N.leb_le in Hbig.
    rewrite !elem_of_cons, elem_of_nil in Hin.
    destruct Hin as [->|[->|[]]]; apply N.lt_nge in Hu; destruct Hu;
      (etrans; [|apply N.le_add_r]); lia.
  - apply list_elem_of_singleton in Hin. by subst u.
Qed.

Lemma tokenize_no_underscore (text token : jsstring) :
  token ∈ tokenize text → 95%N ∉ token.
Proof.
  unfold tokenize. rewrite list_elem_of_filter, list_elem_of_fmap.
  intros [_ (field & -> & Hfield)] Hin.
  apply codeUnits_small in Hin; [|done].
  assert (Hsep : isWhiteSpace 95 || isPunctuation 95 = false).
  { apply (split_runs_aux_fields (λ c, isWhiteSpace c || isPunctuation c)
             [] false (codePoints text) field 95).
    - intros a [].
    - by apply list_elem_of_In.
    - by apply list_elem_of_In. }
  by rewrite underscore_is_punctuation in Hsep.
Qed.

Lemma tokenize_not_proto (text : jsstring) : proto_key ∉ tokenize text.
Proof.
  intros Hin. apply tokenize_no_underscore in Hin. apply Hin.
  apply (bool_decide_unpack _). vm_compute. exact I.
Qed.

(** The segments of a sentence: tokens of the text, identifier [s<n>]. *)
Lemma process_segments (src : jsstring) :
  Forall (λ seg, (proto_key ∉ tokens seg) ∧ seg_id seg ≠ proto_key) (process src).
Proof.
  apply Forall_forall. intros seg Hseg. unfold process in Hseg.
  apply elem_of_lookup_imap in Hseg. destruct Hseg as (i & sentence & -> & _).
  simpl. split; [apply tokenize_not_proto|done].
Qed.

Import DictionaryLookup.

Lemma resultsLoop_total (d : gmap jsstring (list LexEntry)) (segments : list Segment)
    (results : obj (obj (list LexEntry))) :
  Forall (λ seg, (proto_key ∉ tokens seg) ∧ seg_id seg ≠ proto_key) segments →
  Forall (λ p, holds_lookups d p.2) results →
  ∃ results', resultsLoop d segments results = Some results'
              ∧ Forall (λ p, holds_lookups d p.2) results'.
Proof.
  intros Hsegs. revert results.
  induction Hsegs as [|seg segments [Htok Hid] _ IH]; intros results Hres; simpl.
  - by exists results.
  - destruct (segmentLoop_total d (tokens seg) Htok) as (o & -> & _ & Hval & _).
    simpl. rewrite obj_set_Some by done. simpl.
    apply IH. apply Forall_forall. intros [k v] Hin.
    destruct (obj_put_elem _ _ _ _ _ Hin) as [[-> ->]|Hin']; [done|].
    by apply (proj1 (Forall_forall _ _) Hres (k, v)).
Qed.

Lemma coverageCount_total (entries : list (list LexEntry)) :
  Forall (λ v, v ≠ []) entries → is_Some (coverageCount entries).
Proof.
  induction 1 as [|v entries Hv _ [[total covered] IH]]; simpl; [by eexists|].
  destruct v as [|e es]; [done|]. simpl. rewrite IH. simpl. by eexists.
Qed.

Lemma calculateCoverage_total (d : gmap jsstring (list LexEntry))
    (results : obj (obj (list LexEntry))) :
  Forall (λ p, holds_lookups d p.2) results → is_Some (calculateCoverage results).
Proof.
  intros Hres. unfold calculateCoverage.
  destruct (coverageCount_total (results.*2 ≫= (λ o, o.*2))) as [[total covered] ->];
    [|by eexists].
  apply Forall_forall. intros v Hv.
  apply list_elem_of_bind in Hv. destruct Hv as (o & Hv & Ho).
  apply list_elem_of_fmap in Ho. destruct Ho as ([k o'] & -> & Ho).
  apply list_elem_of_fmap in Hv. destruct Hv as ([t v'] & -> & Hv). simpl in *.
  rewrite (proj1 (Forall_forall _ _) Hres (k, o') Ho t v' Hv).
  apply lookup_nonempty.
Qed.

Lemma processLoop_total (i : nat) (segments : list Segment)
    (dictionary_results : obj (obj (list LexEntry)))
    (corpus_results : list CorpusRetriever.Result) :
  i + length segments ≤ length corpus_results →
  is_Some (Referee.processLoop i segments dictionary_results corpus_results).
Proof.
  revert i. induction segments as [|seg segments IH]; intros i Hlen; simpl.
  - by eexists.
  - simpl in Hlen. destruct (lookup_lt_is_Some_2 corpus_results i) as [r ->]; [lia|].
    simpl. destruct (IH (S i)) as [ds ->]; [lia|]. simpl. by eexists.
Qed.

(** Reading back what an assignment wrote. *)
Lemma obj_get_replace {V} (k k' : jsstring) (v : V) (o : obj V) :
  k ∈ o.*1 →
  obj_get (obj_replace k v o) k' = if decide (k = k') then Some v else obj_get o k'.
Proof.
  induction o as [|[k1 v1] o IH]; simpl; [by rewrite elem_of_nil|].
  rewrite elem_of_cons. intros Hin.
  destruct (decide (k1 = k)) as [->|Hne]; simpl.
  - by destruct (decide (k = k')).
  - destruct Hin as [->|Hin]; [done|].
    destruct (decide (k1 = k')) as [->|]; [|by apply IH].
    by rewrite decide_False by done.
Qed.

Lemma obj_get_insert_index {V} (n : N) (k k' : jsstring) (v : V) (o : obj V) :
  k ∉ o.*1 →
  obj_get (obj_insert_index n k v o) k' = if decide (k = k') then Some v else obj_get o k'.
Proof.
  induction o as [|[k1 v1] o IH]; simpl; [done|].
  rewrite not_elem_of_cons. intros [Hne Hin].
  destruct (array_index k1) as [n1|]; [destruct (n1 <? n)%N|]; simpl; try done.
  rewrite IH by done.
  destruct (decide (k1 = k')) as [->|]; [|done].
  by rewrite decide_False by done.
Qed.

Lemma obj_get_app {V} (k k' : jsstring) (v : V) (o : obj V) :
  k ∉ o.*1 →
  obj_get (o ++ [(k, v)]) k' = if decide (k = k') then Some v else obj_get o k'.
Proof.
  induction o as [|[k1 v1] o IH]; simpl; [done|].
  rewrite not_elem_of_cons. intros [Hne Hin]. rewrite IH by done.
  destruct (decide (k1 = k')) as [->|]; [|done].
  by rewrite decide_False by done.
Qed.

Lemma obj_get_put {V} (k k' : jsstring) (v : V) (o : obj V) :
  obj_get (obj_put k v o) k' = if decide (k = k') then Some v else obj_get o k'.
Proof.
  unfold obj_put, obj_has. case_bool_decide as Hin.
  - by apply obj_get_replace.
  - unfold obj_add. destruct (array_index k).
    + by apply obj_get_insert_index.
    + by apply obj_get_app.
Qed.

(** After the outer loop every segment identifier reads back the lookup
    object of its own segment, provided the identifiers are distinct. *)
Lemma resultsLoop_get (d : gmap jsstring (list LexEntry)) (segments : list Segment)
    (results : obj (obj (list LexEntry))) :
  Forall (λ seg, (proto_key ∉ tokens seg) ∧ seg_id seg ≠ proto_key) segments →
  NoDup (seg_id <$> segments) →
  ∃ results', resultsLoop d segments results = Some results'
    ∧ (∀ seg, seg ∈ segments →
         obj_get results' (seg_id seg) = segmentLoop d (tokens seg) [])
    ∧ (∀ k, k ∉ seg_id <$> segments → obj_get results' k = obj_get results k).
Proof.
  intros Hsegs. revert results.
  induction Hsegs as [|seg segments [Htok Hid] _ IH]; intros results Hnd.
  - exists results. split_and!; [done| |done]. intros seg Hseg. by apply elem_of_nil in Hseg.
  - rewrite fmap_cons in Hnd. apply NoDup_cons in Hnd. destruct Hnd as [Hfresh Hnd].
    cbn [resultsLoop].
    destruct (segmentLoop_total d (tokens seg) Htok) as (o & Ho & _).
    rewrite Ho. simpl. rewrite obj_set_Some by done. simpl.
    destruct (IH (obj_put (seg_id seg) o results) Hnd) as (results' & Hrun & Hget & Hother).
    exists results'. split_and!; [done| |].
    + intros seg' Hseg'. apply elem_of_cons in Hseg'. destruct Hseg' as [->|Hseg'].
      * rewrite Hother by done. rewrite obj_get_put. by rewrite decide_True.
      * by apply Hget.
    + intros k Hk. apply not_elem_of_cons in Hk. destruct Hk as [Hne Hk].
      rewrite Hother by done. rewrite obj_get_put. by rewrite decide_False.
Qed.

Lemma js_inj (s1 s2 : string) : js s1 = js s2 → s1 = s2.
Proof.
  unfold js. intros Heq.
  assert (Hl : list_ascii_of_string s1 = list_ascii_of_string s2).
  { revert Heq. generalize (list_ascii_of_string s1), (list_ascii_of_string s2).
    induction l as [|a l IH]; intros [|b l']; simpl; try done.
    intros [= Hab Hl]. f_equal; [|by apply IH].
    by rewrite <-(ascii_N_embedding a), <-(ascii_N_embedding b), Hab. }
  by rewrite <-(string_of_list_ascii_of_string s1),
             <-(string_of_list_ascii_of_string s2), Hl.
Qed.

Lemma decimal_inj (n m : N) : decimal n = decimal m → n = m.
Proof.
  unfold decimal. intros Heq. apply js_inj in Heq.
  assert (Hu : N.to_uint n = N.to_uint m).
  { apply (f_equal NilEmpty.uint_of_string) in Heq.
    rewrite !NilEmpty.usu in Heq. by injection Heq. }
  by rewrite <-(DecimalN.Unsigned.of_to n), <-(DecimalN.Unsigned.of_to m), Hu.
Qed.

Lemma process_seg_ids_NoDup (src : jsstring) :
  NoDup (seg_id <$> Splitter.process src).
Proof.
  apply NoDup_alt. intros i j k Hi Hj.
  rewrite list_lookup_fmap in Hi, Hj. unfold Splitter.process in Hi, Hj.
  rewrite list_lookup_imap in Hi, Hj.
  destruct (filter _ _ !! i) as [si|]; [|done].
  destruct (filter _ _ !! j) as [sj|]; [|done].
  simpl in Hi, Hj. injection Hi as <-. injection Hj as Hj.
  apply decimal_inj in Hj. lia.
Qed.

(** The referee reads the corpus result at the position of the segment. *)
Lemma processLoop_map (f : Segment → CorpusRetriever.Result)
    (dictionary_results : obj (obj (list LexEntry))) (prefix rest : list Segment) :
  Referee.processLoop (length prefix) rest dictionary_results (f <$> (prefix ++ rest))
  = Some ((λ seg, Referee.makeDecision seg
                    (obj_get dictionary_results (seg_id seg)) (f seg)) <$> rest).
Proof.
  revert prefix. induction rest as [|seg rest IH]; intros prefix; [done|].
  cbn [Referee.processLoop].
  rewrite list_lookup_fmap, lookup_app_r, Nat.sub_diag by done. simpl.
  specialize (IH (prefix ++ [seg])).
  rewrite length_app, Nat.add_1_r, <-app_assoc in IH. simpl in IH.
  by rewrite IH.
Qed.

(** One run of the pipeline: every segment of the sentence is decided from
    its own lookup object and its own corpus matches, and scored. *)
Lemma translateSentence_per_segment
    (JSON_parse : jsstring → option CorpusRetriever.JsonEntry)
    (readFile : jsstring → option jsstring)
    (this : AfropairPipeline.t) (frenchSentence : jsstring) :
  (AfropairPipeline.translateSentence JSON_parse readFile this frenchSentence).2
  = Some (Scorer.process
            ((λ seg,
                Referee.makeDecision seg
                  (segmentLoop
                     (dictionary (loadDictionary readFile (AfropairPipeline.dictLookup this)))
                     (tokens seg) [])
                  {| CorpusRetriever.seg_id := seg_id seg;
                     CorpusRetriever.matches :=
                       CorpusRetriever.searchCorpus
                         (CorpusRetriever.corpus
                            (CorpusRetriever.loadCorpus JSON_parse readFile
                               (AfropairPipeline.corpusRetriever this)))
                         (text seg) |})
               <$> Splitter.process frenchSentence)).
Proof.
  unfold AfropairPipeline.translateSentence, DictionaryLookup.process,
    CorpusRetriever.process.
  set (d := dictionary (loadDictionary readFile (AfropairPipeline.dictLookup this))).
  destruct (resultsLoop_get d (Splitter.process frenchSentence) [])
    as (results & Hrun & Hget & _);
    [apply process_segments|apply process_seg_ids_NoDup|].
  destruct (resultsLoop_total d (Splitter.process frenchSentence) [])
    as (results2 & Hrun2 & Hres); [apply process_segments|constructor|].
  rewrite Hrun in Hrun2. injection Hrun2 as <-.
  rewrite Hrun. simpl.
  destruct (calculateCoverage_total d results Hres) as [coverage ->]. simpl.
  unfold Referee.process.
  lazymatch goal with
  | |- context [Referee.processLoop 0 ?segs ?dr (?f <$> ?segs)] =>
      pose proof (processLoop_map f dr [] segs) as Hmap
  end.
  cbn [length app] in Hmap. rewrite Hmap. simpl.
  do 2 f_equal. apply list_fmap_ext. intros i seg Hseg.
  apply list_elem_of_lookup_2 in Hseg. by rewrite (Hget seg Hseg).
Qed.

(** In particular, on corpus entries made of strings, the pipeline does not
    end in its [catch] branch before the logger. *)
Lemma translateSentence_returns
    (JSON_parse : jsstring → option CorpusRetriever.JsonEntry)
    (readFile : jsstring → option jsstring)
    (this : AfropairPipeline.t) (frenchSentence : jsstring) :
  is_Some (AfropairPipeline.translateSentence JSON_parse readFile this frenchSentence).2.
Proof. rewrite translateSentence_per_segment. by eexists. Qed.

End Returns.

(** ** Unknown segments *)

Lemma total_of_constant_tenths {A} (keys : list A) (t : Qc) :
  fold_left Num.add ((λ _, dec 1 10) <$> keys) (Fin t)
  = Fin (t + Qc_of_Z (Z.of_nat (length keys)) * Q2Qc (Qmake 1 10))%Qc.
Proof.
  revert t. induction keys as [|k keys IH]; intros t.
  - cbn [fmap list_fmap fold_left length]. f_equal.
    change (Z.of_nat 0) with 0%Z. rewrite Z2Qc_inj_0. ring.
  - cbn [fmap list_fmap fold_left length].
    change (Fin t + dec 1 10)%js with (Fin (t + Q2Qc (Qmake 1 10))%Qc).
    rewrite IH. f_equal. rewrite Nat2Z.inj_succ, <-Z.add_1_r, Z2Qc_inj_add, Z2Qc_inj_1. ring.
Qed.

Section UnknownInPipeline.
Context `{Host}.

(** C3, as the code has it.  When a segment of a sentence has at least one
    token, all of its tokens are unknown to the table and the corpus result
    for it holds no match, the referee does not choose the sentinel: the
    only candidate, and the chosen target, is the dictionary composition of
    one placeholder [<UNK:token>] per distinct token; its confidence is the
    mean of one score 0.1 per distinct token, added up and divided as
    [composeDictionaryTranslation] does.  The composite confidence of the
    scored decision is a number between 0 and 0.1, not necessarily 0.0, and
    the status of its record is "manual_review_required". *)
Theorem C3_unknown_segment_composes_placeholders
    (d : gmap jsstring (list DictionaryLookup.LexEntry)) (src : jsstring)
    (i : nat) (segment : Splitter.Segment) (corpusResult : CorpusRetriever.Result) :
  Splitter.process src !! i = Some segment →
  Splitter.tokens segment ≠ [] →
  (∀ t, t ∈ Splitter.tokens segment → d !! toLowerCase t = None) →
  CorpusRetriever.matches corpusResult = [] →
  ∃ dictResult c q,
    DictionaryLookup.segmentLoop d (Splitter.tokens segment) [] = Some dictResult
    ∧ NoDup dictResult.*1
    ∧ (∀ t, t ∈ dictResult.*1 ↔ t ∈ Splitter.tokens segment)
    ∧ Referee.candidates (Referee.makeDecision segment (Some dictResult) corpusResult) = [c]
    ∧ Referee.source c = Referee.dictionary
    ∧ Referee.confidence c
      = (Referee.totalOf ((λ _, dec 1 10) <$> dictResult.*1)
         / of_nat (length dictResult.*1))%js
    ∧ Referee.mos c
      = join (js " ") ((λ t, js "<UNK:" ++ t ++ js ">") <$> dictResult.*1)
    ∧ Referee.final (Referee.makeDecision segment (Some dictResult) corpusResult)
      = Referee.mos c
    ∧ Referee.final (Referee.makeDecision segment (Some dictResult) corpusResult)
      ≠ Referee.mos (Referee.sentinel segment)
    ∧ Scorer.confidence
        (Scorer.calculateCompositeScore
           (Referee.makeDecision segment (Some dictResult) corpusResult)) = Fin q
    ∧ (0 ≤ q)%Qc
    ∧ (q ≤ Q2Qc (Qmake 1 10))%Qc
    ∧ Logger.determineStatus
        (Scorer.confidence
           (Scorer.calculateCompositeScore
              (Referee.makeDecision segment (Some dictResult) corpusResult)))
      = Logger.manual_review_required.
Proof.
  intros Hseg Htok Habsent Hnone.
  assert (Hproto : proto_key ∉ Splitter.tokens segment).
  { pose proof (process_segments src) as Hall.
    apply list_elem_of_lookup_2 in Hseg.
    by destruct (proj1 (Forall_forall _ _) Hall segment Hseg). }
  destruct (unknown_segment_decision d segment corpusResult Htok Hproto Habsent Hnone)
    as (o & c & q & Hrun & Hnd & Hkeys & Hcands & Hsrc & Hconf & Hmos & Hfinal
        & Hscore & Hq0 & Hq1).
  assert (Hne : o.*1 ≠ []).
  { destruct (Splitter.tokens segment) as [|t ts]; [done|].
    intros Hnil. assert (Hin : t ∈ o.*1) by (apply Hkeys; left).
    rewrite Hnil in Hin. by apply elem_of_nil in Hin. }
  exists o, c, q. split_and!; try done.
  - rewrite Hconf. unfold Referee.totalOf, zero.
    rewrite total_of_constant_tenths. symmetry. apply mean_of_tenths.
    destruct (o.*1); [done|simpl; lia].
  - rewrite Hfinal, Hmos.
    destruct (o.*1) as [|k [|k' ks]]; [done|simpl; discriminate..].
  - by apply Qclt_le_weak.
  - rewrite Hscore. unfold Logger.determineStatus, dec. cbn [geb].
    assert (H8 : ¬ (Q2Qc (Qmake 8 10) ≤ q)%Qc).
    { intros H8. assert (Hle : (Q2Qc (Qmake 8 10) ≤ Q2Qc (Qmake 1 10))%Qc) by by etrans.
      by apply Qcle_not_lt in Hle. }
    assert (H5 : ¬ (Q2Qc (Qmake 5 10) ≤ q)%Qc).
    { intros H5. assert (Hle : (Q2Qc (Qmake 5 10) ≤ Q2Qc (Qmake 1 10))%Qc) by by etrans.
      by apply Qcle_not_lt in Hle. }
    by rewrite !bool_decide_eq_false_2.
Qed.

End UnknownInPipeline.
(** The sentence "chat noir" against the sample tables: both tokens are
    unknown, the coverage is 0 and the corpus query is empty, yet the chosen
    target is the composition of the two placeholders, not the sentinel, and
    the composite confidence is 0.049, not 0.0. *)
Lemma C3_counterexample_unknown_sentence :
  ∃ out r,
    Splitter.process (H := latin1Host) Samples.unknown_sentence = [Samples.unknownSegment]
    ∧ Forall (λ t, Samples.sampleTable !! toLowerCase (Host := latin1Host) t = None)
             (Splitter.tokens Samples.unknownSegment)
    ∧ (DictionaryLookup.process (H := latin1Host)
         (Samples.files (Some Samples.sampleDictionary) (Some Samples.sampleCorpusLine))
         (DictionaryLookup.new Samples.dictPath) [Samples.unknownSegment]).2 = Some out
    ∧ DictionaryLookup.dict_coverage out = zero
    ∧ CorpusRetriever.searchCorpus (H := latin1Host) Samples.sampleCorpus
        Samples.unknown_sentence = []
    ∧ Samples.run (Some Samples.sampleDictionary) (Some Samples.sampleCorpusLine)
        Samples.unknown_sentence = Some [r]
    ∧ Referee.final (Scorer.result r) = js "<UNK:chat> <UNK:noir>"
    ∧ Referee.final (Scorer.result r)
      ≠ Referee.mos (Referee.sentinel Samples.unknownSegment)
    ∧ Scorer.composite_confidence r = dec 49 1000
    ∧ Scorer.composite_confidence r ≠ zero.
Proof.
  eexists _, _. split; [vm_compute; reflexivity|].
  split; [repeat constructor|].
  split; [vm_compute; reflexivity|].
  split; [num_eq|].
  split; [vm_compute; reflexivity|].
  split; [vm_compute; reflexivity|].
  split; [vm_compute; reflexivity|].
  split; [vm_compute; discriminate|].
  split; [num_eq|].
  vm_compute. discriminate.
Qed.

Lemma C3_unknown_segment_witness :
  Splitter.process (H := latin1Host) Samples.unknown_sentence !! 0
  = Some Samples.unknownSegment
  ∧ Splitter.tokens Samples.unknownSegment ≠ []
  ∧ (∀ t, t ∈ Splitter.tokens Samples.unknownSegment →
          Samples.sampleTable !! toLowerCase (Host := latin1Host) t = None)
  ∧ CorpusRetriever.matches
      {| CorpusRetriever.seg_id := js "s1"; CorpusRetriever.matches := [] |} = []
  ∧ ∃ dictResult c q,
      DictionaryLookup.segmentLoop (H := latin1Host) Samples.sampleTable
        (Splitter.tokens Samples.unknownSegment) [] = Some dictResult
      ∧ NoDup dictResult.*1
      ∧ (∀ t, t ∈ dictResult.*1 ↔ t ∈ Splitter.tokens Samples.unknownSegment)
      ∧ Referee.candidates
          (Referee.makeDecision Samples.unknownSegment (Some dictResult)
             {| CorpusRetriever.seg_id := js "s1"; CorpusRetriever.matches := [] |}) = [c]
      ∧ Referee.source c = Referee.dictionary
      ∧ Referee.confidence c
        = (Referee.totalOf ((λ _, dec 1 10) <$> dictResult.*1)
           / of_nat (length dictResult.*1))%js
      ∧ Referee.mos c
        = join (js " ") ((λ t, js "<UNK:" ++ t ++ js ">") <$> dictResult.*1)
      ∧ Referee.final
          (Referee.makeDecision Samples.unknownSegment (Some dictResult)
             {| CorpusRetriever.seg_id := js "s1"; CorpusRetriever.matches := [] |})
        = Referee.mos c
      ∧ Referee.final
          (Referee.makeDecision Samples.unknownSegment (Some dictResult)
             {| CorpusRetriever.seg_id := js "s1"; CorpusRetriever.matches := [] |})
        ≠ Referee.mos (Referee.sentinel Samples.unknownSegment)
      ∧ Scorer.confidence
          (Scorer.calculateCompositeScore
             (Referee.makeDecision Samples.unknownSegment (Some dictResult)
                {| CorpusRetriever.seg_id := js "s1"; CorpusRetriever.matches := [] |}))
        = Fin q
      ∧ (0 ≤ q)%Qc
      ∧ (q ≤ Q2Qc (Qmake 1 10))%Qc
      ∧ Logger.determineStatus
          (Scorer.confidence
             (Scorer.calculateCompositeScore
                (Referee.makeDecision Samples.unknownSegment (Some dictResult)
                   {| CorpusRetriever.seg_id := js "s1";
                      CorpusRetriever.matches := [] |})))
        = Logger.manual_review_required.
Proof.
  assert (Hseg : Splitter.process (H := latin1Host) Samples.unknown_sentence !! 0
                 = Some Samples.unknownSegment) by (vm_compute; reflexivity).
  assert (Htok : Splitter.tokens Samples.unknownSegment ≠ []) by discriminate.
  assert (Habsent : ∀ t, t ∈ Splitter.tokens Samples.unknownSegment →
            Samples.sampleTable !! toLowerCase (Host := latin1Host) t = None).
  { intros t Ht. cbn [Splitter.tokens Samples.unknownSegment] in Ht.
    rewrite !elem_of_cons, elem_of_nil in Ht.
    destruct Ht as [->|[->|[]]]; vm_compute; reflexivity. }
  assert (Hnone : CorpusRetriever.matches
            {| CorpusRetriever.seg_id := js "s1"; CorpusRetriever.matches := [] |} = [])
    by reflexivity.
  split; [exact Hseg|]. split; [exact Htok|]. split; [exact Habsent|].
  split; [exact Hnone|].
  exact (C3_unknown_segment_composes_placeholders (H := latin1Host) Samples.sampleTable
           Samples.unknown_sentence 0 Samples.unknownSegment
           {| CorpusRetriever.seg_id := js "s1"; CorpusRetriever.matches := [] |}
           Hseg Htok Habsent Hnone).
Defined.

(** ** Repeated tokens in the pipeline *)

Section RepeatedTokens.
Context `{Host}.
Import Referee DictionaryLookup.

(** C10. When a token text occurs more than once in a segment of a
    sentence, the lookup object built for the segment holds it once: the
    keys are the distinct tokens.  The dictionary composition takes exactly
    one word and one score per key, so a repeated token contributes once to
    the composed target and once to the mean, and the composed target has
    fewer words than the segment has tokens. *)
Theorem C10_repeated_tokens_contribute_once
    (d : gmap jsstring (list LexEntry)) (src : jsstring)
    (i : nat) (segment : Splitter.Segment) :
  Splitter.process src !! i = Some segment →
  ¬ NoDup (Splitter.tokens segment) →
  ∃ dictResult,
    segmentLoop d (Splitter.tokens segment) [] = Some dictResult
    ∧ NoDup dictResult.*1
    ∧ (∀ t, t ∈ dictResult.*1 ↔ t ∈ Splitter.tokens segment)
    ∧ dc_mos (composeDictionaryTranslation dictResult)
      = join (js " ") ((λ t, mos (winner d t)) <$> dictResult.*1)
    ∧ dc_confidence (composeDictionaryTranslation dictResult)
      = (totalOf ((λ t, score (winner d t)) <$> dictResult.*1)
         / of_nat (length dictResult.*1))%js
    ∧ word_count (composeDictionaryTranslation dictResult) = length dictResult.*1
    ∧ length dictResult.*1 < length (Splitter.tokens segment).
Proof.
  intros Hseg Hdup. apply repeated_tokens_compose_once; [|done].
  pose proof (process_segments src) as Hall.
  apply list_elem_of_lookup_2 in Hseg.
  by destruct (proj1 (Forall_forall _ _) Hall segment Hseg).
Qed.

End RepeatedTokens.

Lemma C10_repeated_tokens_witness :
  Splitter.process (H := latin1Host) Samples.repeated_sentence !! 0
  = Some Samples.repeatedSegment
  ∧ ¬ NoDup (Splitter.tokens Samples.repeatedSegment)
  ∧ ∃ dictResult,
      DictionaryLookup.segmentLoop (H := latin1Host) Samples.rizTable
        (Splitter.tokens Samples.repeatedSegment) [] = Some dictResult
      ∧ NoDup dictResult.*1
      ∧ (∀ t, t ∈ dictResult.*1 ↔ t ∈ Splitter.tokens Samples.repeatedSegment)
      ∧ Referee.dc_mos (Referee.composeDictionaryTranslation dictResult)
        = join (js " ")
            ((λ t, DictionaryLookup.mos
                     (DictionaryLookup.winner (H := latin1Host) Samples.rizTable t))
               <$> dictResult.*1)
      ∧ Referee.dc_confidence (Referee.composeDictionaryTranslation dictResult)
        = (Referee.totalOf
             ((λ t, DictionaryLookup.score
                      (DictionaryLookup.winner (H := latin1Host) Samples.rizTable t))
                <$> dictResult.*1)
           / of_nat (length dictResult.*1))%js
      ∧ Referee.word_count (Referee.composeDictionaryTranslation dictResult)
        = length dictResult.*1
      ∧ length dictResult.*1 < length (Splitter.tokens Samples.repeatedSegment).
Proof.
  assert (Hseg : Splitter.process (H := latin1Host) Samples.repeated_sentence !! 0
                 = Some Samples.repeatedSegment) by (vm_compute; reflexivity).
  assert (Hdup : ¬ NoDup (Splitter.tokens Samples.repeatedSegment)).
  { apply (bool_decide_unpack _). vm_compute. exact I. }
  split; [exact Hseg|]. split; [exact Hdup|].
  exact (C10_repeated_tokens_contribute_once (H := latin1Host) Samples.rizTable
           Samples.repeated_sentence 0 Samples.repeatedSegment Hseg Hdup).
Defined.

(** The composition for the sentence "le riz, le riz blanc": three words
    for five tokens. *)
Lemma repeated_sentence_composition :
  ∃ dictResult,
    DictionaryLookup.segmentLoop (H := latin1Host) Samples.rizTable
      (Splitter.tokens Samples.repeatedSegment) [] = Some dictResult
    ∧ Referee.dc_mos (Referee.composeDictionaryTranslation dictResult)
      = js "la riis <UNK:blanc>"
    ∧ Referee.word_count (Referee.composeDictionaryTranslation dictResult) = 3.
Proof.
  eexists. split; [vm_compute; reflexivity|].
  split; vm_compute; reflexivity.
Qed.

(** * Further properties of the source *)

(** ** The splitter *)

Lemma drop_while_incl (p : N → bool) (s : jsstring) (c : N) :
  In c (drop_while p s) → In c s.
Proof.
  induction s as [|a s IH]; simpl; [done|].
  destruct (p a); [|done]. intros Hin. right. by apply IH.
Qed.

Lemma trim_incl (s : jsstring) (c : N) : In c (trim s) → In c s.
Proof.
  unfold trim, trimEnd, trimStart. rewrite <-in_rev. intros Hin.
  apply drop_while_incl in Hin. rewrite <-in_rev in Hin.
  by apply drop_while_incl in Hin.
Qed.

(** What [drop_while] leaves does not start with a dropped character. *)
Lemma drop_while_head (p : N → bool) (s : jsstring) :
  match drop_while p s with
  | c :: _ => p c = false
  | [] => True
  end.
Proof.
  induction s as [|a s IH]; simpl; [done|].
  destruct (p a) eqn:Hpa; [exact IH|exact Hpa].
Qed.

Lemma drop_while_id (p : N → bool) (s : jsstring) :
  match s with c :: _ => p c = false | [] => True end → drop_while p s = s.
Proof. destruct s as [|c s]; simpl; [done|]. by intros ->. Qed.

(** What [drop_while] leaves is an end of the string. *)
Lemma drop_while_suffix (p : N → bool) (s : jsstring) :
  ∃ dropped, s = dropped ++ drop_while p s.
Proof.
  induction s as [|a s [dropped IH]]; simpl; [by exists []|].
  destruct (p a); [|by exists []].
  exists (a :: dropped). simpl. by f_equal.
Qed.

Lemma trim_idemp (s : jsstring) : trim (trim s) = trim s.
Proof.
  unfold trim, trimEnd, trimStart.
  set (t := drop_while isWhiteSpace s).
  set (u := drop_while isWhiteSpace (rev t)).
  assert (Hstart : drop_while isWhiteSpace (rev u) = rev u).
  { apply drop_while_id.
    destruct (drop_while_suffix isWhiteSpace (rev t)) as [dropped Hd]. fold u in Hd.
    apply (f_equal (@rev N)) in Hd. rewrite rev_involutive, rev_app_distr in Hd.
    pose proof (drop_while_head isWhiteSpace s) as Hhead. fold t in Hhead.
    destruct (rev u) as [|c ru]; [done|]. rewrite Hd in Hhead. exact Hhead. }
  rewrite Hstart, rev_involutive. f_equal.
  apply drop_while_id. subst u. apply drop_while_head.
Qed.

Section SplitterFacts.
Context `{Host}.
Import Splitter.

(** X1. Every segment that [Splitter.process] returns has a non-empty text
    that is already trimmed and contains none of the characters [.], [!],
    [?]; its tokens are the tokens of that text, its [start] is 0 and its
    [end] is the length of the text. *)
Theorem X1_segments_are_trimmed_sentences (src : jsstring) :
  Forall (λ seg,
            text seg ≠ []
            ∧ trim (text seg) = text seg
            ∧ Forall (λ c, isTerminator c = false) (text seg)
            ∧ tokens seg = tokenize (text seg)
            ∧ seg_start seg = 0
            ∧ seg_end seg = length (text seg))
         (process src).
Proof.
  apply Forall_forall. intros seg Hseg. unfold process in Hseg.
  apply elem_of_lookup_imap in Hseg. destruct Hseg as (i & sentence & -> & Hs).
  apply list_elem_of_lookup_2, list_elem_of_filter in Hs. destruct Hs as [Hlen Hs].
  cbn [text tokens seg_start seg_end]. split_and!; try done.
  - intros Hnil. rewrite Hnil in Hlen. simpl in Hlen. lia.
  - apply trim_idemp.
  - apply Forall_forall. intros c Hc.
    apply list_elem_of_In, trim_incl in Hc.
    apply (split_runs_aux_fields isTerminator [] false src sentence c);
      [by intros a []|by apply list_elem_of_In|done].
Qed.

(** X2. The identifiers of the segments of one sentence are [s1], [s2], ...
    in order, and no two segments share an identifier. *)
Theorem X2_segment_ids_are_numbered_and_distinct (src : jsstring) :
  seg_id <$> process src
  = (λ i, js "s" ++ decimal (N.of_nat (i + 1))) <$> seq 0 (length (process src))
  ∧ NoDup (seg_id <$> process src).
Proof.
  split; [|apply process_seg_ids_NoDup].
  apply list_eq. intros i.
  rewrite !list_lookup_fmap. unfold process at 1. rewrite list_lookup_imap.
  unfold process. rewrite length_imap.
  destruct (filter _ _ !! i) as [sentence|] eqn:Hi; simpl.
  - rewrite lookup_seq_lt by (by apply lookup_lt_Some in Hi). done.
  - rewrite lookup_seq_ge by (by apply lookup_ge_None in Hi). done.
Qed.

(** X3. No token is empty, and no token contains a white-space or
    punctuation character (among the code units below the surrogate range,
    which stand for themselves). *)
Theorem X3_tokens_have_no_separator (text : jsstring) :
  Forall (λ token,
            token ≠ []
            ∧ Forall (λ c, (c < 55296)%N →
                           isWhiteSpace c = false ∧ isPunctuation c = false) token)
         (tokenize text).
Proof.
  apply Forall_forall. intros token Htoken. unfold tokenize in Htoken.
  apply list_elem_of_filter in Htoken. destruct Htoken as [Hlen Htoken].
  apply list_elem_of_fmap in Htoken. destruct Htoken as (field & -> & Hfield).
  split; [intros Hnil; rewrite Hnil in Hlen; simpl in Hlen; lia|].
  apply Forall_forall. intros c Hc Hsmall.
  apply codeUnits_small in Hc; [|done].
  apply orb_false_elim.
  apply (split_runs_aux_fields (λ c, isWhiteSpace c || isPunctuation c)
           [] false (codePoints text) field c);
    [by intros a []|by apply list_elem_of_In|by apply list_elem_of_In].
Qed.

Lemma split_runs_aux_blank (sep : N → bool) (cur : jsstring) (in_run : bool)
    (s : jsstring) :
  Forall (λ c, sep c || isWhiteSpace c = true) s →
  Forall (λ c, isWhiteSpace c = true) cur →
  Forall (Forall (λ c, isWhiteSpace c = true)) (split_runs_aux sep cur in_run s).
Proof.
  intros Hs. revert cur in_run.
  induction Hs as [|a s Ha _ IH]; intros cur in_run Hcur; simpl.
  - constructor; [|constructor]. apply Forall_forall. intros c Hc.
    apply list_elem_of_In, in_rev, list_elem_of_In in Hc.
    by apply (proj1 (Forall_forall _ _) Hcur).
  - destruct (sep a) eqn:Hsep.
    + destruct in_run; [by apply IH|].
      constructor; [|by apply IH].
      apply Forall_forall. intros c Hc.
      apply list_elem_of_In, in_rev, list_elem_of_In in Hc.
      by apply (proj1 (Forall_forall _ _) Hcur).
    + apply IH. constructor; [|done].
      clear -Ha Hsep. destruct (sep a); simpl in Ha; done.
Qed.

Lemma drop_while_all (p : N → bool) (s : jsstring) :
  Forall (λ c, p c = true) s → drop_while p s = [].
Proof. induction 1 as [|c s Hc _ IH]; simpl; [done|]. by rewrite Hc. Qed.

Lemma split_runs_aux_covers (sep : N → bool) (cur : jsstring) (in_run : bool)
    (s : jsstring) (c : N) :
  (in_run = true → cur = []) →
  In c cur ∨ In c s → sep c = false →
  ∃ field, field ∈ split_runs_aux sep cur in_run s ∧ In c field.
Proof.
  revert cur in_run. induction s as [|a s IH]; intros cur in_run Hrun Hin Hc; simpl.
  - destruct Hin as [Hin|[]]. exists (rev cur). split; [left|by apply in_rev in Hin].
  - destruct (sep a) eqn:Ha.
    + destruct Hin as [Hin|[->|Hin]]; [| congruence |].
      * destruct in_run; [by rewrite Hrun in Hin|].
        exists (rev cur). split; [left|by apply in_rev in Hin].
      * destruct (IH [] true (λ _, eq_refl) (or_intror Hin) Hc) as (field & Hfield & Hcf).
        exists field. split; [|done]. destruct in_run; [done|by right].
    + apply IH; [done| |done].
      destruct Hin as [Hin|[->|Hin]]; [left; by right|left; by left|by right].
Qed.

Lemma process_blank_iff (src : jsstring) :
  process src = [] ↔ Forall (λ c, isTerminator c || isWhiteSpace c = true) src.
Proof.
  unfold process. split.
  - intros Hnone. apply Forall_forall. intros c Hc.
    destruct (isTerminator c || isWhiteSpace c) eqn:Hblank; [done|].
    apply orb_false_elim in Hblank. destruct Hblank as [Hterm Hspace].
    destruct (split_runs_aux_covers isTerminator [] false src c)
      as (field & Hfield & Hcf); [done|right; by apply list_elem_of_In|done|].
    assert (Hin : field ∈ filter (λ s, 0 < length (trim s)) (split_runs isTerminator src)).
    { apply list_elem_of_filter. split; [|done]. by apply (trim_nonempty field c). }
    destruct (filter (λ s, 0 < length (trim s)) (split_runs isTerminator src));
      [by apply elem_of_nil in Hin|discriminate Hnone].
  - intros Hblank.
    assert (Hnone : filter (λ s, 0 < length (trim s)) (split_runs isTerminator src) = []).
    { pose proof (split_runs_aux_blank isTerminator [] false src Hblank
                    (Forall_nil_2 _)) as Hfields.
      unfold split_runs. induction Hfields as [|s fields Hs _ IH]; [done|].
      rewrite filter_cons_False; [exact IH|].
      unfold trim, trimStart. rewrite (drop_while_all _ _ Hs). simpl. lia. }
    by rewrite Hnone.
Qed.

(** X4. A source text has no segment exactly when it is made only of white
    space and of the characters [.], [!], [?]; every other text has at least
    one. *)
Theorem X4_no_segment_iff_blank_source (src : jsstring) :
  process src = [] ↔ Forall (λ c, isTerminator c || isWhiteSpace c = true) src.
Proof. apply process_blank_iff. Qed.

End SplitterFacts.

(** ** The dictionary table *)

Lemma ratio_in_unit (i u : nat) : i ≤ u → 0 < u → in_unit (of_nat i / of_nat u)%js.
Proof.
  intros Hle Hpos. unfold of_nat. simpl. rewrite (sign_of_pos_nat _ Hpos). simpl.
  assert (Hu : (0 < Qc_of_Z (Z.of_nat u))%Qc) by (unfold Qclt, Qlt; simpl; lia).
  assert (Hi : (0 ≤ Qc_of_Z (Z.of_nat i))%Qc) by (unfold Qcle, Qle; simpl; lia).
  assert (Hiu : (Qc_of_Z (Z.of_nat i) ≤ Qc_of_Z (Z.of_nat u))%Qc)
    by (unfold Qcle, Qle; simpl; lia).
  pose proof (Qcinv_pos _ Hu) as Hinv.
  split.
  - apply Qcmult_nonneg_nonneg; [done|by apply Qclt_le_weak].
  - unfold Qcdiv. rewrite <-(Qcmult_inv_r (Qc_of_Z (Z.of_nat u))).
    + apply Qcmult_le_mono_nonneg_r; [by apply Qclt_le_weak|done].
    + intros Hz. rewrite Hz in Hu. by apply (irreflexivity Qclt) in Hu.
Qed.

Section TableFacts.
Context `{Host}.
Import DictionaryLookup.

(** What a well-formed stored list looks like: not empty, and every entry
    with a non-empty target, a non-empty part of speech and a score that is
    neither [NaN] nor zero. *)
Lemma addLine_cases (d : gmap jsstring (list LexEntry)) (line : jsstring) :
  addLine d line = d
  ∨ ∃ c1 fr' e,
      addLine d line
      = <[toLowerCase (c1 :: fr') := default [] (d !! toLowerCase (c1 :: fr')) ++ [e]]> d
      ∧ mos e ≠ [] ∧ pos e ≠ [] ∧ truthy (score e) = true.
Proof.
  destruct (split_char 9 line) as [|[|c1 fr'] [|[|c2 mos'] others]] eqn:Hfields;
    try (left; unfold addLine; rewrite Hfields; reflexivity).
  right. eexists c1, fr', _. split; [by apply addLine_stores|].
  cbn [mos pos score]. split_and!.
  - done.
  - unfold str_or. by destruct (others !! 0) as [[|]|].
  - unfold or_default. by destruct (truthy (parseFloat (others !! 1))) eqn:Ht.
Qed.

Lemma fold_addLine_entries (lines : list jsstring) (d : gmap jsstring (list LexEntry)) :
  map_Forall (λ key entries,
                (∃ c1 fr', key = toLowerCase (c1 :: fr'))
                ∧ entries ≠ []
                ∧ Forall (λ e, mos e ≠ [] ∧ pos e ≠ [] ∧ truthy (score e) = true) entries)
             d →
  map_Forall (λ key entries,
                (∃ c1 fr', key = toLowerCase (c1 :: fr'))
                ∧ entries ≠ []
                ∧ Forall (λ e, mos e ≠ [] ∧ pos e ≠ [] ∧ truthy (score e) = true) entries)
             (fold_left addLine lines d).
Proof.
  revert d. induction lines as [|line lines IH]; intros d Hd; simpl; [done|].
  apply IH. destruct (addLine_cases d line) as [->|(c1 & fr' & e & -> & He)]; [done|].
  apply map_Forall_insert_2; [|done].
  split; [by eexists _, _|]. split; [by destruct (default [] _)|].
  apply Forall_app. split; [|by constructor].
  destruct (d !! toLowerCase (c1 :: fr')) as [es|] eqn:Hes; simpl; [|constructor].
  by destruct (Hd _ _ Hes) as (_ & _ & ?).
Qed.

(** X5. In a table loaded into a fresh [DictionaryLookup], every key is the
    lower-cased form of a non-empty source word, no stored list is empty,
    and every stored entry has a non-empty target, a non-empty part of
    speech and a score that is neither [NaN] nor zero. *)
Theorem X5_loaded_table_is_well_formed
    (readFile : jsstring → option jsstring) (path : jsstring) :
  Forall (λ kv,
            (∃ c1 fr', kv.1 = toLowerCase (c1 :: fr'))
            ∧ kv.2 ≠ []
            ∧ Forall (λ e, mos e ≠ [] ∧ pos e ≠ [] ∧ truthy (score e) = true) kv.2)
         (map_to_list (dictionary (loadDictionary readFile (new path)))).
Proof.
  apply Forall_forall. intros [key entries] Hin. apply elem_of_map_to_list in Hin.
  revert key entries Hin.
  change (map_Forall (λ key entries,
                (∃ c1 fr', key = toLowerCase (c1 :: fr'))
                ∧ entries ≠ []
                ∧ Forall (λ e, mos e ≠ [] ∧ pos e ≠ [] ∧ truthy (score e) = true) entries)
             (dictionary (loadDictionary readFile (new path)))).
  unfold loadDictionary. cbn [loaded new dictPath dictionary].
  destruct (readFile path) as [data|]; cbn [dictionary].
  - apply fold_addLine_entries, map_Forall_empty.
  - apply map_Forall_empty.
Qed.

Lemma addLine_prefix (d : gmap jsstring (list LexEntry)) (line key : jsstring) :
  default [] (d !! key) `prefix_of` default [] (addLine d line !! key).
Proof.
  destruct (addLine_cases d line) as [->|(c1 & fr' & e & -> & _)]; [done|].
  destruct (decide (toLowerCase (c1 :: fr') = key)) as [<-|Hne].
  - rewrite lookup_insert_eq. simpl. by eexists.
  - by rewrite lookup_insert_ne.
Qed.

(** X6. Loading never removes or reorders what a key already holds: after
    any further lines, the list stored under a key starts with the list it
    held before, so the first-listed entry of a key stays the first. *)
Theorem X6_lines_only_append (lines : list jsstring)
    (d : gmap jsstring (list LexEntry)) (key : jsstring) :
  default [] (d !! key) `prefix_of` default [] (fold_left addLine lines d !! key).
Proof.
  revert d. induction lines as [|line lines IH]; intros d; simpl; [done|].
  etrans; [apply (addLine_prefix d line key)|apply IH].
Qed.

Lemma coverageCount_bound (entries : list (list LexEntry)) (total covered : nat) :
  coverageCount entries = Some (total, covered) →
  total = length entries ∧ covered ≤ total.
Proof.
  revert total covered. induction entries as [|v entries IH]; intros total covered.
  - intros [= <- <-]. by split.
  - destruct v as [|e es]; [done|]. cbn -[gtb].
    destruct (coverageCount entries) as [[t c]|]; [|done]. cbn -[gtb].
    destruct (IH t c eq_refl) as [-> Hle]. intros [= <- <-].
    split; [done|]. match goal with |- context [if ?b then _ else _] => destruct b end; lia.
Qed.

(** X7. For the segments of any sentence, [DictionaryLookup.process]
    returns, and the coverage it reports is a number between 0 and 1. *)
Theorem X7_coverage_is_a_fraction
    (readFile : jsstring → option jsstring) (this : t) (src : jsstring) :
  ∃ out, (process readFile this (Splitter.process src)).2 = Some out
         ∧ in_unit (dict_coverage out).
Proof.
  unfold process. cbn [snd].
  set (d := dictionary (loadDictionary readFile this)).
  destruct (resultsLoop_total d (Splitter.process src) [])
    as (results & -> & Hres); [apply process_segments|constructor|].
  simpl. destruct (calculateCoverage_total d results Hres) as [coverage Hcov].
  rewrite Hcov. simpl. eexists. split; [reflexivity|]. cbn [dict_coverage].
  unfold calculateCoverage in Hcov.
  destruct (coverageCount _) as [[total covered]|] eqn:Hcount; [|done].
  simpl in Hcov. injection Hcov as <-.
  apply coverageCount_bound in Hcount. destruct Hcount as [_ Hle].
  case_bool_decide; [by apply ratio_in_unit|].
  unfold zero. simpl. split; [apply Qcle_refl|done].
Qed.

Lemma coverageCount_unknown (d : gmap jsstring (list LexEntry))
    (entries : list (list LexEntry)) :
  Forall (λ v, ∃ k, v = [unknownEntry k]) entries →
  coverageCount entries = Some (length entries, 0).
Proof.
  induction 1 as [|v entries [k ->] _ IH]; simpl; [done|].
  rewrite IH. simpl. done.
Qed.

(** X8. When the loaded table is empty, as it is when the dictionary file
    cannot be read, [DictionaryLookup.process] still returns for the
    segments of any sentence, and the coverage it reports is 0. *)
Theorem X8_empty_table_has_zero_coverage
    (readFile : jsstring → option jsstring) (this : t) (src : jsstring) :
  dictionary (loadDictionary readFile this) = ∅ →
  ∃ out, (process readFile this (Splitter.process src)).2 = Some out
         ∧ dict_coverage out = zero.
Proof.
  intros Hempty. unfold process. cbn [snd]. rewrite Hempty.
  destruct (resultsLoop_total ∅ (Splitter.process src) [])
    as (results & -> & Hres); [apply process_segments|constructor|].
  simpl. unfold calculateCoverage.
  rewrite (coverageCount_unknown ∅).
  - simpl. eexists. split; [reflexivity|]. cbn [dict_coverage].
    case_bool_decide as Hpos; [|done].
    unfold of_nat. cbn [Num.div]. rewrite (sign_of_pos_nat _ Hpos).
    unfold zero. f_equal. change (Z.of_nat 0) with 0%Z. rewrite Z2Qc_inj_0.
    unfold Qcdiv. apply Qcmult_0_l.
  - apply Forall_forall. intros v Hv.
    apply list_elem_of_bind in Hv. destruct Hv as (o & Hv & Ho).
    apply list_elem_of_fmap in Ho. destruct Ho as ([k o'] & -> & Ho).
    apply list_elem_of_fmap in Hv. destruct Hv as ([t' v'] & -> & Hv). simpl in *.
    exists t'. rewrite (proj1 (Forall_forall _ _) Hres (k, o') Ho t' v' Hv).
    unfold lookup. by rewrite lookup_empty.
Qed.

End TableFacts.

Lemma X8_empty_table_witness :
  DictionaryLookup.dictionary
    (DictionaryLookup.loadDictionary (H := latin1Host) (Samples.files None None)
       (DictionaryLookup.new Samples.dictPath)) = ∅
  ∧ ∃ out,
      (DictionaryLookup.process (H := latin1Host) (Samples.files None None)
         (DictionaryLookup.new Samples.dictPath)
         (Splitter.process (H := latin1Host) Samples.marche_sentence)).2 = Some out
      ∧ DictionaryLookup.dict_coverage out = zero.
Proof.
  assert (Hempty : DictionaryLookup.dictionary
            (DictionaryLookup.loadDictionary (H := latin1Host) (Samples.files None None)
               (DictionaryLookup.new Samples.dictPath)) = ∅) by reflexivity.
  split; [exact Hempty|].
  exact (X8_empty_table_has_zero_coverage (H := latin1Host) (Samples.files None None)
           (DictionaryLookup.new Samples.dictPath) Samples.marche_sentence Hempty).
Defined.

(** ** The corpus *)

Lemma div_of_pos_nat (i u : nat) :
  0 < u → (of_nat i / of_nat u)%js = Fin (Qc_of_Z (Z.of_nat i) / Qc_of_Z (Z.of_nat u))%Qc.
Proof.
  intros Hpos. unfold of_nat. cbn [Num.div]. by rewrite (sign_of_pos_nat _ Hpos).
Qed.

Lemma Fin_inj (a b : Qc) : Fin a = Fin b → a = b.
Proof. intros Heq. by injection Heq. Qed.

Lemma of_pos_nat_nonzero (u : nat) : 0 < u → Qc_of_Z (Z.of_nat u) ≠ Q2Qc 0.
Proof.
  intros Hpos Hz. pose proof (sign_of_pos_nat u Hpos) as Hs. rewrite Hz in Hs. discriminate Hs.
Qed.

Lemma ratio_one (i u : nat) : 0 < u → (of_nat i / of_nat u)%js = one ↔ i = u.
Proof.
  intros Hpos. split.
  - rewrite (div_of_pos_nat _ _ Hpos). unfold one. intros Heq%Fin_inj.
    pose proof (of_pos_nat_nonzero u Hpos) as Hu.
    assert (Hi : Qc_of_Z (Z.of_nat i) = Qc_of_Z (Z.of_nat u)).
    { rewrite <-(Qcmult_1_l (Qc_of_Z (Z.of_nat u))), <-Heq.
      unfold Qcdiv. rewrite <-Qcmult_assoc, (Qcmult_comm (/ _)), Qcmult_inv_r by done.
      by rewrite Qcmult_1_r. }
    apply Z2Qc_inj in Hi. lia.
  - intros ->. by apply div_of_nat_self.
Qed.

Lemma ratio_zero (i u : nat) : 0 < u → (of_nat i / of_nat u)%js = zero ↔ i = 0.
Proof.
  intros Hpos. rewrite (div_of_pos_nat _ _ Hpos). unfold zero.
  pose proof (of_pos_nat_nonzero u Hpos) as Hu.
  split.
  - intros Heq%Fin_inj. unfold Qcdiv in Heq.
    apply Qcmult_integral in Heq. destruct Heq as [Hi|Hinv].
    + rewrite <-Z2Qc_inj_0 in Hi. apply Z2Qc_inj in Hi. lia.
    + pose proof (Qcmult_inv_r _ Hu) as Hone. rewrite Hinv, Qcmult_0_r in Hone.
      discriminate Hone.
  - intros ->. f_equal. change (Z.of_nat 0) with 0%Z. rewrite Z2Qc_inj_0.
    unfold Qcdiv. apply Qcmult_0_l.
Qed.

Lemma word_sets_equal (s1 s2 : gset jsstring) :
  size (s1 ∩ s2) = size (s1 ∪ s2) ↔ s1 = s2.
Proof.
  split.
  - intros Hsize.
    assert (Heq : s1 ∩ s2 = s1 ∪ s2).
    { apply set_subseteq_size_eq; [set_solver|lia]. }
    apply set_eq. intros x. split; intros Hx.
    + assert (Hin : x ∈ s1 ∩ s2) by (rewrite Heq; set_solver). set_solver.
    + assert (Hin : x ∈ s1 ∩ s2) by (rewrite Heq; set_solver). set_solver.
  - intros ->. destruct (word_sets_idemp s2) as [-> ->]. done.
Qed.

Lemma word_sets_disjoint (s1 s2 : gset jsstring) : size (s1 ∩ s2) = 0 ↔ s1 ## s2.
Proof.
  rewrite size_empty_iff. set_solver.
Qed.

Section SimilarityFacts.
Import CorpusRetriever.

(** X9. The similarity of two strings is a number between 0 and 1; it is 1
    exactly when the two strings have the same set of whitespace-separated
    words, whatever their order and repetitions, and it is 0 exactly when
    they have no word in common. *)
Theorem X9_similarity_extremes (str1 str2 : jsstring) :
  in_unit (calculateSimilarity str1 str2)
  ∧ (calculateSimilarity str1 str2 = one
     ↔ (list_to_set (split_runs isWhiteSpace str1) : gset jsstring)
       = list_to_set (split_runs isWhiteSpace str2))
  ∧ (calculateSimilarity str1 str2 = zero
     ↔ (list_to_set (split_runs isWhiteSpace str1) : gset jsstring)
       ## list_to_set (split_runs isWhiteSpace str2)).
Proof.
  split; [apply calculateSimilarity_unit|].
  rewrite calculateSimilarity_jaccard. cbn zeta.
  set (s1 := list_to_set (split_runs isWhiteSpace str1) : gset jsstring).
  set (s2 := list_to_set (split_runs isWhiteSpace str2) : gset jsstring).
  assert (Hpos : 0 < size (s1 ∪ s2)).
  { pose proof (words_size_pos str1) as Hw. fold s1 in Hw.
    pose proof (word_sets_sizes s1 s2). lia. }
  split.
  - rewrite (ratio_one _ _ Hpos). apply word_sets_equal.
  - rewrite (ratio_zero _ _ Hpos). apply word_sets_disjoint.
Qed.

End SimilarityFacts.

Section CorpusFacts.
Context `{Host}.
Import CorpusRetriever.

(** The match that the loop of [searchCorpus] pushes for an entry. *)
Lemma collectMatches_elem (c : list CorpusEntry) (queryLower : jsstring) (m : Match) :
  m ∈ collectMatches c queryLower
  ↔ ∃ entry, entry ∈ c
      ∧ (calculateSimilarity queryLower (toLowerCase (fr entry)) >? dec 6 10)%js = true
      ∧ m = {| m_fr := fr entry;
               m_mos := mos entry;
               sim := calculateSimilarity queryLower (toLowerCase (fr entry));
               m_source := DictionaryLookup.str_or (source entry) (js "unknown") |}.
Proof.
  induction c as [|entry c IH]; cbn [collectMatches].
  - split; [by intros ?%elem_of_nil|]. intros (entry & ?%elem_of_nil & _). done.
  - destruct (calculateSimilarity queryLower (toLowerCase (fr entry)) >? dec 6 10)%js eqn:Hgt.
    + rewrite elem_of_cons, IH. split.
      * intros [->|(e & He & Hs & ->)].
        -- exists entry. split_and!; [left|done|done].
        -- exists e. split_and!; [by right|done|done].
      * intros (e & He & Hs & ->). apply elem_of_cons in He.
        destruct He as [->|He]; [by left|]. right. by exists e.
    + rewrite IH. split.
      * intros (e & He & Hs & ->). exists e. split_and!; [by right|done|done].
      * intros (e & He & Hs & ->). apply elem_of_cons in He.
        destruct He as [->|He]; [congruence|]. by exists e.
Qed.

(** X10. Every match that [searchCorpus] returns is built from an entry of
    the corpus whose lower-cased source text is more than 0.6 similar to the
    lower-cased query: it carries that entry's two texts, that similarity,
    and the entry's source label or "unknown"; and the search returns
    nothing exactly when no entry of the corpus is that similar. *)
Theorem X10_matches_are_built_from_similar_entries
    (c : list CorpusEntry) (query : jsstring) :
  Forall (λ m, ∃ entry, entry ∈ c
            ∧ (calculateSimilarity (toLowerCase query) (toLowerCase (fr entry)) >? dec 6 10)%js
              = true
            ∧ m = {| m_fr := fr entry;
                     m_mos := mos entry;
                     sim := calculateSimilarity (toLowerCase query) (toLowerCase (fr entry));
                     m_source := DictionaryLookup.str_or (source entry) (js "unknown") |})
         (searchCorpus c query)
  ∧ (searchCorpus c query = []
     ↔ Forall (λ entry,
                 (calculateSimilarity (toLowerCase query) (toLowerCase (fr entry))
                    >? dec 6 10)%js = false) c).
Proof.
  unfold searchCorpus. cbn zeta. split.
  - apply Forall_take. rewrite Array_sort_perm.
    apply Forall_forall. intros m Hm. by apply collectMatches_elem.
  - pose proof (Array_sort_perm bySimilarityDesc (collectMatches c (toLowerCase query)))
      as Hperm.
    split.
    + intros Hnil. apply Forall_forall. intros entry Hentry.
      destruct (calculateSimilarity (toLowerCase query) (toLowerCase (fr entry)) >? dec 6 10)%js
        eqn:Hgt; [|done].
      assert (Hin : {| m_fr := fr entry;
                       m_mos := mos entry;
                       sim := calculateSimilarity (toLowerCase query) (toLowerCase (fr entry));
                       m_source := DictionaryLookup.str_or (source entry) (js "unknown") |}
                    ∈ collectMatches c (toLowerCase query)).
      { apply collectMatches_elem. by exists entry. }
      rewrite <-Hperm in Hin.
      destruct (Array_sort bySimilarityDesc (collectMatches c (toLowerCase query)));
        [by apply elem_of_nil in Hin|discriminate Hnil].
    + intros Hall.
      destruct (collectMatches c (toLowerCase query)) as [|m ms] eqn:Hms; [done|].
      assert (Hin : m ∈ collectMatches c (toLowerCase query)) by (rewrite Hms; left).
      apply collectMatches_elem in Hin. destruct Hin as (entry & Hentry & Hgt & _).
      rewrite (proj1 (Forall_forall _ _) Hall entry Hentry) in Hgt. discriminate Hgt.
Qed.

Lemma searchCorpus_head_best
    (c : list CorpusEntry) (query : jsstring) (entry : CorpusEntry) :
  entry ∈ c →
  (calculateSimilarity (toLowerCase query) (toLowerCase (fr entry)) >? dec 6 10)%js = true →
  ∃ m rest,
    searchCorpus c query = m :: rest
    ∧ (sim m >=? calculateSimilarity (toLowerCase query) (toLowerCase (fr entry)))%js = true.
Proof.
  intros Hentry Hgt. unfold searchCorpus. cbn zeta.
  pose proof (collectMatches_sims c (toLowerCase query)) as Hsims.
  assert (Hin : {| m_fr := fr entry;
                   m_mos := mos entry;
                   sim := calculateSimilarity (toLowerCase query) (toLowerCase (fr entry));
                   m_source := DictionaryLookup.str_or (source entry) (js "unknown") |}
                ∈ collectMatches c (toLowerCase query)).
  { apply collectMatches_elem. by exists entry. }
  assert (Hs : nonIncreasing (Array_sort bySimilarityDesc (collectMatches c (toLowerCase query)))).
  { apply Array_sort_sorted. eapply Forall_impl; [exact Hsims|]. by intros m [_ ?]. }
  rewrite <-(Array_sort_perm bySimilarityDesc) in Hin.
  destruct (Array_sort bySimilarityDesc (collectMatches c (toLowerCase query)))
    as [|m sorted]; [by apply elem_of_nil in Hin|].
  exists m, (take 4 sorted). split; [done|].
  apply elem_of_cons in Hin. destruct Hin as [<-|Hin].
  - cbn [sim].
    destruct (in_unit_Fin _ (calculateSimilarity_unit (toLowerCase query)
                               (toLowerCase (fr entry)))) as [q ->].
    apply geb_Fin_total, ltb_irrefl.
  - apply StronglySorted_inv in Hs. destruct Hs as [_ Hall].
    by apply (proj1 (Forall_forall _ _) Hall _ Hin).
Qed.

(** X11. The first match that [searchCorpus] returns is a best one: when
    some entry of the corpus is more than 0.6 similar to the query, the
    search returns at least one match, and the similarity of the first match
    is at least that of the entry. *)
Theorem X11_first_match_is_a_best_match
    (c : list CorpusEntry) (query : jsstring) (entry : CorpusEntry) :
  entry ∈ c →
  (calculateSimilarity (toLowerCase query) (toLowerCase (fr entry)) >? dec 6 10)%js = true →
  ∃ m rest,
    searchCorpus c query = m :: rest
    ∧ (sim m >=? calculateSimilarity (toLowerCase query) (toLowerCase (fr entry)))%js = true.
Proof. apply searchCorpus_head_best. Qed.

End CorpusFacts.

Lemma X11_first_match_witness :
  {| CorpusRetriever.fr := js "le riz blanc";
     CorpusRetriever.mos := js "riis peelga";
     CorpusRetriever.source := None |} ∈ Samples.rizCorpus
  ∧ (CorpusRetriever.calculateSimilarity
       (toLowerCase (Host := latin1Host) (js "Le riz blanc"))
       (toLowerCase (Host := latin1Host) (js "le riz blanc")) >? dec 6 10)%js = true
  ∧ ∃ m rest,
      CorpusRetriever.searchCorpus (H := latin1Host) Samples.rizCorpus (js "Le riz blanc")
      = m :: rest
      ∧ (CorpusRetriever.sim m
           >=? CorpusRetriever.calculateSimilarity
                 (toLowerCase (Host := latin1Host) (js "Le riz blanc"))
                 (toLowerCase (Host := latin1Host) (js "le riz blanc")))%js = true.
Proof.
  assert (Hin : {| CorpusRetriever.fr := js "le riz blanc";
                   CorpusRetriever.mos := js "riis peelga";
                   CorpusRetriever.source := None |} ∈ Samples.rizCorpus)
    by (unfold Samples.rizCorpus; left).
  assert (Hgt : (CorpusRetriever.calculateSimilarity
                   (toLowerCase (Host := latin1Host) (js "Le riz blanc"))
                   (toLowerCase (Host := latin1Host) (js "le riz blanc")) >? dec 6 10)%js
                = true) by (vm_compute; reflexivity).
  split; [exact Hin|]. split; [exact Hgt|].
  exact (X11_first_match_is_a_best_match (H := latin1Host) Samples.rizCorpus
           (js "Le riz blanc") _ Hin Hgt).
Defined.

(** ** The referee *)

Section RefereeFacts.
Import Referee.

Lemma assemble_shape (dictResult : option (obj (list DictionaryLookup.LexEntry)))
    (corpusResult : CorpusRetriever.Result) :
  ∃ fromCorpus fromDictionary,
    assemble dictResult corpusResult = fromCorpus ++ fromDictionary
    ∧ fromCorpus = corpusCandidate <$> CorpusRetriever.matches corpusResult
    ∧ Forall (λ c, source c = corpus) fromCorpus
    ∧ length fromDictionary ≤ 1
    ∧ Forall (λ c, source c = dictionary
                   ∧ ∃ dr, dictResult = Some dr
                           ∧ mos c = dc_mos (composeDictionaryTranslation dr)
                           ∧ confidence c = dc_confidence (composeDictionaryTranslation dr)
                           ∧ trim (mos c) ≠ [])
             fromDictionary.
Proof.
  unfold assemble. eexists _, _. split; [reflexivity|]. split; [reflexivity|].
  split; [by apply Forall_fmap, Forall_true|].
  destruct dictResult as [dr|]; [|split; [simpl; lia|constructor]].
  cbn zeta. case_bool_decide as Hlen; [|split; [simpl; lia|constructor]].
  split; [simpl; lia|]. constructor; [|constructor].
  split; [done|]. exists dr. split_and!; try done.
  cbn [mos]. intros Hnil. rewrite Hnil in Hlen. simpl in Hlen. lia.
Qed.

Lemma assemble_sources (dictResult : option (obj (list DictionaryLookup.LexEntry)))
    (corpusResult : CorpusRetriever.Result) :
  Forall (λ c, source c ≠ none) (assemble dictResult corpusResult).
Proof.
  destruct (assemble_shape dictResult corpusResult) as (cs & ds & -> & _ & Hcs & _ & Hds).
  apply Forall_app. split.
  - eapply Forall_impl; [exact Hcs|]. intros c ->. done.
  - eapply Forall_impl; [exact Hds|]. intros c [-> _]. done.
Qed.

Lemma fold_pick_elem (first : Candidate) (rest : list Candidate) :
  fold_left pick rest first ∈ first :: rest.
Proof.
  destruct (reduce_first_maximum first rest) as (i & Hi & _).
  by apply list_elem_of_lookup_2 in Hi.
Qed.

(** X13. The explanation of a decision names the origin of the chosen
    candidate and its confidence as a percentage: a corpus match or a
    dictionary composition when there is a candidate, and the text "No
    translation candidates found" when there is none.  The chosen candidate
    of a non-empty list never has the origin "none", so [makeDecision] never
    answers "Fallback translation used". *)
Theorem X13_explanation_names_the_winner
    (segment : Splitter.Segment)
    (dictResult : option (obj (list DictionaryLookup.LexEntry)))
    (corpusResult : CorpusRetriever.Result) :
  match candidates (makeDecision segment dictResult corpusResult) with
  | [] =>
      explanation (makeDecision segment dictResult corpusResult)
      = js "No translation candidates found"
  | first :: rest =>
      match source (selectBest segment (first :: rest)) with
      | corpus =>
          explanation (makeDecision segment dictResult corpusResult)
          = js "Corpus match selected with "
              ++ percent (confidence (selectBest segment (first :: rest)))
              ++ js "% similarity"
      | dictionary =>
          explanation (makeDecision segment dictResult corpusResult)
          = js "Dictionary composition with "
              ++ percent (confidence (selectBest segment (first :: rest)))
              ++ js "% average word confidence"
      | none => False
      end
  end
  ∧ explanation (makeDecision segment dictResult corpusResult)
    ≠ js "Fallback translation used".
Proof.
  cbn [makeDecision candidates explanation].
  pose proof (assemble_sources dictResult corpusResult) as Hsrc.
  destruct (assemble dictResult corpusResult) as [|first rest] eqn:Hcands.
  - split; [reflexivity|]. unfold generateExplanation. simpl. discriminate.
  - assert (Hbest : source (selectBest segment (first :: rest)) ≠ none).
    { apply (proj1 (Forall_forall _ _) Hsrc). cbn [selectBest]. apply fold_pick_elem. }
    unfold generateExplanation. cbn [length]. rewrite bool_decide_eq_false_2 by done.
    destruct (source (selectBest segment (first :: rest))); [| |done].
    + split; [reflexivity|]. simpl. discriminate.
    + split; [reflexivity|]. simpl. discriminate.
Qed.

End RefereeFacts.

(** ** The scorer *)

Section ScorerFacts.
Import Scorer.

Lemma Math_min_inverse (a b : nat) :
  0 < a → in_unit (Math_min (of_nat b / of_nat a) (of_nat a / of_nat b))%js.
Proof.
  intros Ha. destruct b as [|b].
  - rewrite (proj2 (ratio_zero 0 a Ha) eq_refl).
    unfold of_nat at 2. unfold of_nat. cbn [Num.div].
    change (Z.of_nat 0) with 0%Z. rewrite Z2Qc_inj_0.
    change (sign (Q2Qc 0)) with Eq. cbv iota. rewrite (sign_of_pos_nat _ Ha).
    simpl. split; [apply Qcle_refl|done].
  - assert (Hb : 0 < S b) by lia.
    rewrite (div_of_pos_nat (S b) a Ha), (div_of_pos_nat a (S b) Hb).
    destruct (decide (S b ≤ a)) as [Hle|Hgt].
    + pose proof (ratio_in_unit (S b) a Hle Ha) as Hunit.
      rewrite (div_of_pos_nat (S b) a Ha) in Hunit.
      unfold Math_min, ltb. case_bool_decide as Hlt; [|done].
      simpl. simpl in Hunit. destruct Hunit as [H0 H1]. split.
      * apply Qcmult_nonneg_nonneg.
        -- unfold Qcle, Qle. simpl. lia.
        -- apply Qclt_le_weak, Qcinv_pos. unfold Qclt, Qlt. simpl. lia.
      * etrans; [by apply Qclt_le_weak|done].
    + assert (Hle : a ≤ S b) by lia.
      pose proof (ratio_in_unit a (S b) Hle Hb) as Hunit.
      rewrite (div_of_pos_nat a (S b) Hb) in Hunit.
      unfold Math_min, ltb. case_bool_decide as Hlt; [done|].
      simpl. simpl in Hunit. destruct Hunit as [H0 H1].
      apply Qcnot_lt_le in Hlt. split.
      * apply Qcmult_nonneg_nonneg.
        -- unfold Qcle, Qle. simpl. lia.
        -- apply Qclt_le_weak, Qcinv_pos. unfold Qclt, Qlt. simpl. lia.
      * etrans; [exact Hlt|done].
Qed.

(** X14. The feature [length_ratio] of every decision is a number between
    0 and 1, also when the source text or the chosen target is empty: it is
    neither [NaN] nor infinite. *)
Theorem X14_length_ratio_is_a_fraction (result : Referee.Decision) :
  in_unit (length_ratio (extractFeatures result)).
Proof.
  unfold extractFeatures. cbn [length_ratio].
  case_bool_decide as Hsrc.
  - by apply Math_min_inverse.
  - simpl. split; [apply Qcle_refl|done].
Qed.

End ScorerFacts.

Lemma Qc_scale_le (a b f : Qc) :
  (0 ≤ a)%Qc → (a ≤ b)%Qc → (0 ≤ f)%Qc → (f ≤ 1)%Qc → (0 ≤ a * f)%Qc ∧ (a * f ≤ b)%Qc.
Proof.
  intros Ha Hab Hf0 Hf1. split; [by apply Qcmult_nonneg_nonneg|].
  apply Qcle_trans with (a * 1)%Qc.
  - by apply Qcmult_le_mono_nonneg_l.
  - by rewrite Qcmult_1_r.
Qed.

Lemma clamp_le (q : Qc) :
  (0 ≤ q)%Qc →
  ∃ q', Math_max zero (Math_min one (Fin q)) = Fin q'
        ∧ (0 ≤ q')%Qc ∧ (q' ≤ 1)%Qc ∧ (q' ≤ q)%Qc.
Proof.
  intros H0. destruct (decide (q ≤ 1)%Qc) as [H1|H1].
  - exists q. rewrite clamp_unit by done. split_and!; try done; try apply Qcle_refl.
  - apply Qcnot_le_lt in H1. exists 1%Qc. split_and!; try done.
    + unfold Math_min, one, ltb. rewrite bool_decide_eq_false_2.
      * reflexivity.
      * by apply Qcle_not_lt, Qclt_le_weak.
    + by apply Qclt_le_weak.
Qed.

Section ScoreBounds.
Import Scorer.

Lemma adjust_bound (f : Features) (s : Qc) :
  source_confidence f = Fin s → (0 ≤ s)%Qc →
  ∃ q, adjust f = Fin q
       ∧ (0 ≤ q)%Qc
       ∧ (q ≤ Q2Qc (Qmake 11 10) * (Q2Qc (Qmake 7 10) ^ unknown_words f * s))%Qc
       ∧ (candidate_count f ≤ 1 → (q ≤ Q2Qc (Qmake 7 10) ^ unknown_words f * s)%Qc).
Proof.
  intros Hsrc Hs. unfold adjust. rewrite Hsrc.
  set (b := (Q2Qc (Qmake 7 10) ^ unknown_words f * s)%Qc).
  assert (Hb : (0 ≤ b)%Qc).
  { apply Qcmult_nonneg_nonneg; [|done].
    apply Qclt_le_weak, Qcpower_pos, seven_tenths_pos. }
  assert (H1 : (if bool_decide (0 < unknown_words f)
                then (Fin s * Math_pow (Q2Qc (Qmake 7 10)) (unknown_words f))%js
                else Fin s) = Fin b).
  { subst b. case_bool_decide as Hn.
    - unfold Math_pow. cbn [Num.mul]. f_equal. apply Qcmult_comm.
    - assert (Hz : unknown_words f = 0) by lia. rewrite Hz. simpl.
      f_equal. by rewrite Qcmult_1_l. }
  rewrite H1. clear H1.
  assert (H2 : ∃ q2, (if (length_ratio f <? dec 3 10)%js then (Fin b * dec 8 10)%js else Fin b)
                     = Fin q2 ∧ (0 ≤ q2)%Qc ∧ (q2 ≤ b)%Qc).
  { destruct (length_ratio f <? dec 3 10)%js.
    - eexists. split; [reflexivity|]. apply Qc_scale_le; try done; try apply Qcle_refl.
    - exists b. split_and!; try done; try apply Qcle_refl. }
  destruct H2 as (q2 & -> & Hq0 & Hq2).
  assert (Hbb : (b ≤ Q2Qc (Qmake 11 10) * b)%Qc).
  { rewrite <-(Qcmult_1_l b) at 1. by apply Qcmult_le_mono_nonneg_r. }
  case_bool_decide as Hcount.
  - unfold dec. cbn [Num.mul]. unfold Math_min, one, ltb. case_bool_decide as Hlt.
    + eexists. split; [reflexivity|]. split_and!.
      * apply Qcmult_nonneg_nonneg; done.
      * rewrite (Qcmult_comm q2). by apply Qcmult_le_mono_nonneg_l.
      * intros Hle. lia.
    + apply Qcnot_lt_le in Hlt. eexists. split; [reflexivity|]. split_and!.
      * done.
      * etrans; [exact Hlt|]. rewrite (Qcmult_comm q2). by apply Qcmult_le_mono_nonneg_l.
      * intros Hle. lia.
  - exists q2. split_and!; try done. by etrans.
Qed.

Lemma composite_bound (result : Referee.Decision) (s : Qc) :
  source_confidence (extractFeatures result) = Fin s → (0 ≤ s)%Qc →
  ∃ q, confidence (calculateCompositeScore result) = Fin q
       ∧ (0 ≤ q)%Qc ∧ (q ≤ 1)%Qc
       ∧ (q ≤ Q2Qc (Qmake 11 10)
              * (Q2Qc (Qmake 7 10) ^ unknown_words (extractFeatures result) * s))%Qc
       ∧ (candidate_count (extractFeatures result) ≤ 1 →
          (q ≤ Q2Qc (Qmake 7 10) ^ unknown_words (extractFeatures result) * s)%Qc).
Proof.
  intros Hsrc Hs.
  destruct (adjust_bound _ s Hsrc Hs) as (q & Hadj & Hq0 & Hq1 & Hq2).
  destruct (clamp_le q Hq0) as (q' & Hclamp & Hq'0 & Hq'1 & Hq'q).
  exists q'. cbn [calculateCompositeScore confidence]. rewrite Hadj.
  split_and!; try done.
  - by etrans.
  - intros Hle. etrans; [exact Hq'q|by apply Hq2].
Qed.

(** X15. When the confidence [s] of the first-listed candidate is a finite
    number that is not negative, the composite confidence is a number
    between 0 and 1; and when the decision has at most one candidate, so
    that the bonus does not apply, it is at most [s]: the penalties never
    raise the score. *)
Theorem X15_penalties_never_raise_the_score
    (result : Referee.Decision) (s : Qc) :
  source_confidence (extractFeatures result) = Fin s → (0 ≤ s)%Qc →
  ∃ q, confidence (calculateCompositeScore result) = Fin q
       ∧ (0 ≤ q)%Qc ∧ (q ≤ 1)%Qc
       ∧ (candidate_count (extractFeatures result) ≤ 1 → (q ≤ s)%Qc).
Proof.
  intros Hsrc Hs.
  destruct (composite_bound result s Hsrc Hs) as (q & Hq & Hq0 & Hq1 & _ & Hle).
  exists q. split_and!; try done.
  intros Hcount. etrans; [by apply Hle|].
  rewrite <-(Qcmult_1_l s) at 2. apply Qcmult_le_mono_nonneg_r; [done|].
  apply Qcpower_le_1; done.
Qed.

(** X16. A decision without any candidate has the composite confidence 0,
    whatever its texts are, and its record gets the status
    "manual_review_required". *)
Theorem X16_no_candidate_scores_zero (result : Referee.Decision) :
  Referee.candidates result = [] →
  confidence (calculateCompositeScore result) = zero
  ∧ Logger.determineStatus (confidence (calculateCompositeScore result))
    = Logger.manual_review_required.
Proof.
  intros Hnone.
  assert (Hsrc : source_confidence (extractFeatures result) = Fin 0%Qc).
  { unfold extractFeatures. cbn [source_confidence]. by rewrite Hnone. }
  assert (Hcount : candidate_count (extractFeatures result) ≤ 1).
  { unfold extractFeatures. cbn [candidate_count]. rewrite Hnone. simpl. lia. }
  destruct (composite_bound result 0%Qc Hsrc (Qcle_refl _))
    as (q & Hq & Hq0 & _ & _ & Hle).
  specialize (Hle Hcount). rewrite Qcmult_0_r in Hle.
  assert (Hz : q = 0%Qc) by (by apply Qcle_antisym).
  rewrite Hq, Hz. split; reflexivity.
Qed.

(** X17. A chosen target that contains an unknown-token placeholder is
    never auto-accepted when the confidence of the first-listed candidate is
    between 0 and 1: the composite confidence is then at most 0.77. *)
Theorem X17_placeholders_are_never_auto_accepted
    (result : Referee.Decision) :
  in_unit (source_confidence (extractFeatures result)) →
  0 < unknown_words (extractFeatures result) →
  Logger.determineStatus (confidence (calculateCompositeScore result))
  ≠ Logger.auto_accepted.
Proof.
  intros Hunit Hunk.
  destruct (in_unit_Fin _ Hunit) as [s Hsrc]. rewrite Hsrc in Hunit.
  destruct Hunit as [Hs0 Hs1].
  destruct (composite_bound result s Hsrc Hs0) as (q & Hq & _ & _ & Hle & _).
  rewrite Hq.
  assert (Hpow : (Q2Qc (Qmake 7 10) ^ unknown_words (extractFeatures result) * s
                  ≤ Q2Qc (Qmake 7 10))%Qc).
  { destruct (unknown_words (extractFeatures result)) as [|n]; [lia|].
    change (Q2Qc (Qmake 7 10) ^ S n)%Qc
      with (Q2Qc (Qmake 7 10) * Q2Qc (Qmake 7 10) ^ n)%Qc.
    rewrite <-Qcmult_assoc.
    apply Qc_scale_le; [done|apply Qcle_refl| |].
    - apply Qcmult_nonneg_nonneg; [|done].
      apply Qclt_le_weak, Qcpower_pos, seven_tenths_pos.
    - apply (Qc_scale_le _ 1%Qc); try done.
      + apply Qclt_le_weak, Qcpower_pos, seven_tenths_pos.
      + by apply Qcpower_le_1. }
  assert (Hq77 : (q ≤ Q2Qc (Qmake 77 100))%Qc).
  { etrans; [exact Hle|].
    etrans; [apply Qcmult_le_mono_nonneg_l; [done|exact Hpow]|]. done. }
  unfold Logger.determineStatus, dec. cbn [geb].
  rewrite bool_decide_eq_false_2.
  - by case_bool_decide.
  - intros H80. assert (H : (Q2Qc (Qmake 8 10) ≤ Q2Qc (Qmake 77 100))%Qc) by by etrans.
    by apply Qcle_not_lt in H.
Qed.

End ScoreBounds.

Lemma X15_penalties_witness :
  Scorer.source_confidence (Scorer.extractFeatures Examples.unknownResult)
  = Fin (Q2Qc (Qmake 1 10))
  ∧ (0 ≤ Q2Qc (Qmake 1 10))%Qc
  ∧ ∃ q, Scorer.confidence (Scorer.calculateCompositeScore Examples.unknownResult) = Fin q
         ∧ (0 ≤ q)%Qc ∧ (q ≤ 1)%Qc
         ∧ (Scorer.candidate_count (Scorer.extractFeatures Examples.unknownResult) ≤ 1 →
            (q ≤ Q2Qc (Qmake 1 10))%Qc).
Proof.
  assert (Hsrc : Scorer.source_confidence (Scorer.extractFeatures Examples.unknownResult)
                 = Fin (Q2Qc (Qmake 1 10))) by num_eq.
  assert (Hs : (0 ≤ Q2Qc (Qmake 1 10))%Qc) by done.
  split; [exact Hsrc|]. split; [exact Hs|].
  exact (X15_penalties_never_raise_the_score Examples.unknownResult
           (Q2Qc (Qmake 1 10)) Hsrc Hs).
Defined.

Lemma X16_no_candidate_witness :
  Referee.candidates Examples.emptyResult = []
  ∧ Scorer.confidence (Scorer.calculateCompositeScore Examples.emptyResult) = zero
  ∧ Logger.determineStatus
      (Scorer.confidence (Scorer.calculateCompositeScore Examples.emptyResult))
    = Logger.manual_review_required.
Proof.
  assert (Hnone : Referee.candidates Examples.emptyResult = []) by reflexivity.
  split; [exact Hnone|].
  exact (X16_no_candidate_scores_zero Examples.emptyResult Hnone).
Defined.

Lemma X17_placeholders_witness :
  in_unit (Scorer.source_confidence (Scorer.extractFeatures Examples.unknownResult))
  ∧ 0 < Scorer.unknown_words (Scorer.extractFeatures Examples.unknownResult)
  ∧ Logger.determineStatus
      (Scorer.confidence (Scorer.calculateCompositeScore Examples.unknownResult))
    ≠ Logger.auto_accepted.
Proof.
  assert (Hunit : in_unit (Scorer.source_confidence
                             (Scorer.extractFeatures Examples.unknownResult)))
    by (vm_compute; split; discriminate).
  assert (Hunk : 0 < Scorer.unknown_words (Scorer.extractFeatures Examples.unknownResult))
    by (vm_compute; lia).
  split; [exact Hunit|]. split; [exact Hunk|].
  exact (X17_placeholders_are_never_auto_accepted Examples.unknownResult Hunit Hunk).
Defined.

(** ** The status of a record *)

(** X18. The review status is monotone in the confidence: when a
    confidence is at least another one, it is auto-accepted whenever the
    other one is, and it needs a manual review only if the other one does. *)
Theorem X18_status_is_monotone (c1 c2 : number) :
  (c2 >=? c1)%js = true →
  (Logger.determineStatus c1 = Logger.auto_accepted →
   Logger.determineStatus c2 = Logger.auto_accepted)
  ∧ (Logger.determineStatus c2 = Logger.manual_review_required →
     Logger.determineStatus c1 = Logger.manual_review_required).
Proof.
  intros Hge. unfold Logger.determineStatus. split.
  - destruct (c1 >=? dec 8 10)%js eqn:H1.
    + by rewrite (geb_trans _ _ _ Hge H1).
    + by destruct (c1 >=? dec 5 10)%js.
  - destruct (c1 >=? dec 8 10)%js eqn:H1.
    + by rewrite (geb_trans _ _ _ Hge H1).
    + destruct (c1 >=? dec 5 10)%js eqn:H2; [|done].
      rewrite (geb_trans _ _ _ Hge H2). by destruct (c2 >=? dec 8 10)%js.
Qed.

Lemma X18_status_witness :
  (dec 9 10 >=? dec 1 2)%js = true
  ∧ (Logger.determineStatus (dec 1 2) = Logger.auto_accepted →
     Logger.determineStatus (dec 9 10) = Logger.auto_accepted)
  ∧ (Logger.determineStatus (dec 9 10) = Logger.manual_review_required →
     Logger.determineStatus (dec 1 2) = Logger.manual_review_required).
Proof.
  assert (Hge : (dec 9 10 >=? dec 1 2)%js = true) by (vm_compute; reflexivity).
  split; [exact Hge|].
  exact (X18_status_is_monotone (dec 1 2) (dec 9 10) Hge).
Defined.

(** ** The orchestrator *)

Lemma total_in_unit (xs : list number) (t : Qc) :
  Forall in_unit xs →
  ∃ q, fold_left Num.add xs (Fin t) = Fin q
       ∧ (t ≤ q)%Qc ∧ (q ≤ t + Qc_of_Z (Z.of_nat (length xs)))%Qc.
Proof.
  intros Hxs. revert t. induction Hxs as [|x xs Hx _ IH]; intros t.
  - exists t. split; [done|]. split; [apply Qcle_refl|].
    cbn [length]. change (Z.of_nat 0) with 0%Z. rewrite Z2Qc_inj_0, Qcplus_0_r.
    apply Qcle_refl.
  - destruct (in_unit_Fin _ Hx) as [a ->]. destruct Hx as [Ha0 Ha1].
    cbn [fold_left Num.add length].
    destruct (IH (t + a)%Qc) as (q & -> & Hq0 & Hq1). exists q. split; [done|]. split.
    + etrans; [|exact Hq0]. rewrite <-(Qcplus_0_r t) at 1. by apply Qcplus_le_mono_l.
    + etrans; [exact Hq1|].
      rewrite Nat2Z.inj_succ, <-Z.add_1_r, Z2Qc_inj_add, Z2Qc_inj_1.
      rewrite <-(Qcplus_assoc t a), (Qcplus_comm (Qc_of_Z (Z.of_nat (length xs))) 1).
      apply Qcplus_le_mono_l. by apply Qcplus_le_mono_r.
Qed.

Lemma mean_in_unit (xs : list number) :
  xs ≠ [] → Forall in_unit xs → in_unit (Referee.totalOf xs / of_nat (length xs))%js.
Proof.
  intros Hne Hxs. unfold Referee.totalOf, zero.
  destruct (total_in_unit xs 0%Qc Hxs) as (q & -> & Hq0 & Hq1).
  rewrite Qcplus_0_l in Hq1.
  assert (Hn : 0 < length xs) by (destruct xs; [done|simpl; lia]).
  unfold of_nat. cbn [Num.div]. rewrite (sign_of_pos_nat _ Hn). simpl.
  assert (Hu : (0 < Qc_of_Z (Z.of_nat (length xs)))%Qc) by (unfold Qclt, Qlt; simpl; lia).
  pose proof (Qcinv_pos _ Hu) as Hinv.
  split.
  - apply Qcmult_nonneg_nonneg; [done|by apply Qclt_le_weak].
  - unfold Qcdiv. rewrite <-(Qcmult_inv_r (Qc_of_Z (Z.of_nat (length xs)))).
    + apply Qcmult_le_mono_nonneg_r; [by apply Qclt_le_weak|done].
    + intros Hz. rewrite Hz in Hu. by apply (irreflexivity Qclt) in Hu.
Qed.

Lemma avgConfidence_mean (scored_results : list Scorer.ScoredResult) :
  Report.avgConfidence scored_results
  = (Referee.totalOf (Scorer.composite_confidence <$> scored_results)
     / of_nat (length (Scorer.composite_confidence <$> scored_results)))%js.
Proof.
  unfold Report.avgConfidence, Referee.totalOf. rewrite length_fmap. f_equal.
  generalize zero. induction scored_results as [|r rs IH]; intros acc; simpl; [done|].
  apply IH.
Qed.

Lemma geb_in_unit (x : number) :
  (x >=? zero)%js && (one >=? x)%js = true → in_unit x.
Proof.
  destruct x as [| | |q]; simpl; try done.
  intros [H0 H1]%andb_prop. apply bool_decide_eq_true in H0, H1. done.
Qed.

Lemma in_unit_top (x : number) : in_unit x → (x >=? one)%js = true → x = one.
Proof.
  destruct x as [| | |q]; simpl; try done.
  intros [_ H1] Hge. apply bool_decide_eq_true in Hge.
  unfold one. f_equal. by apply Qcle_antisym.
Qed.

Section PipelineFacts.
Context `{Host}.
Import Splitter.
Import DictionaryLookup.

Lemma loadDictionary_idem (readFile readFile' : jsstring → option jsstring) (this : t) :
  loadDictionary readFile' (loadDictionary readFile this) = loadDictionary readFile this.
Proof.
  unfold loadDictionary. destruct (loaded this) eqn:Hloaded.
  - by rewrite Hloaded.
  - by destruct (readFile (dictPath this)).
Qed.

Lemma loadCorpus_idem (JSON_parse JSON_parse' : jsstring → option CorpusRetriever.JsonEntry)
    (readFile readFile' : jsstring → option jsstring) (this : CorpusRetriever.t) :
  CorpusRetriever.loadCorpus JSON_parse' readFile'
    (CorpusRetriever.loadCorpus JSON_parse readFile this)
  = CorpusRetriever.loadCorpus JSON_parse readFile this.
Proof.
  unfold CorpusRetriever.loadCorpus. destruct (CorpusRetriever.loaded this) eqn:Hloaded.
  - by rewrite Hloaded.
  - by destruct (readFile (CorpusRetriever.corpusPath this)).
Qed.

(** The pipeline object after a sentence: both tables are loaded. *)
Lemma translateSentence_state
    (JSON_parse : jsstring → option CorpusRetriever.JsonEntry)
    (readFile : jsstring → option jsstring)
    (this : AfropairPipeline.t) (frenchSentence : jsstring) :
  (AfropairPipeline.translateSentence JSON_parse readFile this frenchSentence).1
  = {| AfropairPipeline.dictLookup :=
         loadDictionary readFile (AfropairPipeline.dictLookup this);
       AfropairPipeline.corpusRetriever :=
         CorpusRetriever.loadCorpus JSON_parse readFile
           (AfropairPipeline.corpusRetriever this) |}.
Proof.
  unfold AfropairPipeline.translateSentence, DictionaryLookup.process,
    CorpusRetriever.process.
  set (d := dictionary (loadDictionary readFile (AfropairPipeline.dictLookup this))).
  destruct (resultsLoop_total d (Splitter.process frenchSentence) [])
    as (results & Hrun & Hres); [apply process_segments|constructor|].
  rewrite Hrun. simpl.
  by destruct (calculateCoverage_total d results Hres) as [coverage ->].
Qed.

(** The answer depends on the pipeline object and on the files only
    through the two loaded tables. *)
Lemma translateSentence_tables
    (JSON_parse JSON_parse' : jsstring → option CorpusRetriever.JsonEntry)
    (readFile readFile' : jsstring → option jsstring)
    (this this' : AfropairPipeline.t) (frenchSentence : jsstring) :
  dictionary (loadDictionary readFile (AfropairPipeline.dictLookup this))
  = dictionary (loadDictionary readFile' (AfropairPipeline.dictLookup this')) →
  CorpusRetriever.corpus
    (CorpusRetriever.loadCorpus JSON_parse readFile (AfropairPipeline.corpusRetriever this))
  = CorpusRetriever.corpus
      (CorpusRetriever.loadCorpus JSON_parse' readFile'
         (AfropairPipeline.corpusRetriever this')) →
  (AfropairPipeline.translateSentence JSON_parse readFile this frenchSentence).2
  = (AfropairPipeline.translateSentence JSON_parse' readFile' this' frenchSentence).2.
Proof.
  intros Hd Hc. by rewrite !translateSentence_per_segment, Hd, Hc.
Qed.

Lemma translateSentence_again
    (JSON_parse JSON_parse' : jsstring → option CorpusRetriever.JsonEntry)
    (readFile readFile' : jsstring → option jsstring)
    (this : AfropairPipeline.t) (first sentence : jsstring) :
  (AfropairPipeline.translateSentence JSON_parse' readFile'
     (AfropairPipeline.translateSentence JSON_parse readFile this first).1 sentence).2
  = (AfropairPipeline.translateSentence JSON_parse readFile this sentence).2.
Proof.
  apply translateSentence_tables; rewrite translateSentence_state;
    cbn [AfropairPipeline.dictLookup AfropairPipeline.corpusRetriever].
  - by rewrite loadDictionary_idem.
  - by rewrite loadCorpus_idem.
Qed.

(** X21. The tables are read once per pipeline object: after a first
    sentence, a sentence gets the answer it would have got as the first one,
    whatever the files hold by then. *)
Theorem X21_tables_are_read_once
    (JSON_parse JSON_parse' : jsstring → option CorpusRetriever.JsonEntry)
    (readFile readFile' : jsstring → option jsstring)
    (this : AfropairPipeline.t) (first sentence : jsstring) :
  (AfropairPipeline.translateSentence JSON_parse' readFile'
     (AfropairPipeline.translateSentence JSON_parse readFile this first).1 sentence).2
  = (AfropairPipeline.translateSentence JSON_parse readFile this sentence).2.
Proof. apply translateSentence_again. Qed.

(** X22. Each sentence of a batch gets from [batchTranslate] the answer
    that [translateSentence] would give it alone on the same pipeline
    object, in the order of the sentences: the sentences of a batch do not
    influence one another. *)
Theorem X22_batch_sentences_are_independent
    (JSON_parse : jsstring → option CorpusRetriever.JsonEntry)
    (readFile : jsstring → option jsstring)
    (this : AfropairPipeline.t) (frenchSentences : list jsstring) :
  (Report.batchTranslate JSON_parse readFile this frenchSentences).2
  = (λ sentence,
       (AfropairPipeline.translateSentence JSON_parse readFile this sentence).2)
      <$> frenchSentences.
Proof.
  revert this. induction frenchSentences as [|sentence rest IH]; intros this; [done|].
  cbn [Report.batchTranslate].
  destruct (AfropairPipeline.translateSentence JSON_parse readFile this sentence)
    as [this2 result] eqn:Hfirst.
  specialize (IH this2).
  destruct (Report.batchTranslate JSON_parse readFile this2 rest) as [this3 results].
  cbn [snd] in *. rewrite fmap_cons, Hfirst. cbn [snd]. f_equal.
  rewrite IH. apply list_fmap_ext. intros i s _.
  replace this2
    with (AfropairPipeline.translateSentence JSON_parse readFile this sentence).1
    by by rewrite Hfirst.
  apply translateSentence_again.
Qed.

(** X23. For a sentence made only of white space and of the characters
    [.], [!], [?], whatever the two files hold, the pipeline reaches the
    logger with no scored result: the translation it reports is the empty
    string and the average confidence is [NaN], the quotient 0/0. *)
Theorem X23_blank_sentence_reports_NaN
    (JSON_parse : jsstring → option CorpusRetriever.JsonEntry)
    (readFile : jsstring → option jsstring)
    (this : AfropairPipeline.t) (frenchSentence : jsstring) :
  Forall (λ c, isTerminator c || isWhiteSpace c = true) frenchSentence →
  ∃ results,
    (AfropairPipeline.translateSentence JSON_parse readFile this frenchSentence).2
    = Some results
    ∧ results = []
    ∧ Report.translation results = []
    ∧ Report.avgConfidence results = NaN.
Proof.
  intros Hblank. apply process_blank_iff in Hblank.
  rewrite translateSentence_per_segment, Hblank.
  exists []. split_and!; reflexivity.
Qed.

(** The stages between the splitter and the scorer, for a dictionary file
    and a loaded corpus: the lookup stage returns, and the referee, given
    the lookup objects and one corpus result per segment, returns the
    decisions of the segments. *)
Lemma stages_per_segment (readFile : jsstring → option jsstring) (this : t)
    (c : list CorpusRetriever.CorpusEntry) (src : jsstring) :
  ∃ out,
    (process readFile this (Splitter.process src)).2 = Some out
    ∧ Referee.process (Splitter.process src) (dictionary_results out)
        ((λ segment,
                {| CorpusRetriever.seg_id := Splitter.seg_id segment;
                   CorpusRetriever.matches :=
                     CorpusRetriever.searchCorpus c (Splitter.text segment) |})
               <$> Splitter.process src)
      = Some ((λ seg,
                 Referee.makeDecision seg
                   (segmentLoop (dictionary (loadDictionary readFile this)) (tokens seg) [])
                   {| CorpusRetriever.seg_id := seg_id seg;
                      CorpusRetriever.matches :=
                        CorpusRetriever.searchCorpus c (text seg) |})
                <$> Splitter.process src).
Proof.
  unfold process. cbn [snd].
  set (d := dictionary (loadDictionary readFile this)).
  destruct (resultsLoop_get d (Splitter.process src) [])
    as (results & Hrun & Hget & _);
    [apply process_segments|apply process_seg_ids_NoDup|].
  destruct (resultsLoop_total d (Splitter.process src) [])
    as (results2 & Hrun2 & Hres); [apply process_segments|constructor|].
  rewrite Hrun in Hrun2. injection Hrun2 as <-.
  rewrite Hrun. simpl.
  destruct (calculateCoverage_total d results Hres) as [coverage ->]. simpl.
  eexists. split; [reflexivity|]. cbn [dictionary_results].
  unfold Referee.process.
  lazymatch goal with
  | |- context [Referee.processLoop 0 ?segs ?dr (?f <$> ?segs)] =>
      pose proof (processLoop_map f dr [] segs) as Hmap
  end.
  cbn [length app] in Hmap. rewrite Hmap.
  f_equal. apply list_fmap_ext. intros i seg Hseg.
  apply list_elem_of_lookup_2 in Hseg. by rewrite (Hget seg Hseg).
Qed.

(** The corpus results that [CorpusRetriever.process] hands to the referee:
    one search of the loaded corpus per segment. *)
Lemma process_corpus_results
    (JSON_parse : jsstring → option CorpusRetriever.JsonEntry)
    (readFile : jsstring → option jsstring)
    (this : CorpusRetriever.t) (segments : list Segment) :
  (CorpusRetriever.process JSON_parse readFile this segments).2
  = (λ segment,
       {| CorpusRetriever.seg_id := Splitter.seg_id segment;
          CorpusRetriever.matches :=
            CorpusRetriever.searchCorpus
              (CorpusRetriever.corpus (CorpusRetriever.loadCorpus JSON_parse readFile this))
              (Splitter.text segment) |})
      <$> segments.
Proof. reflexivity. Qed.

(** X19. For the segments of any sentence, any dictionary file and any
    corpus of entries with string texts, the lookup stage returns, and the
    referee, run on the lookup objects and on the corpus results of the
    segments, returns one decision per segment, in the order of the
    segments: the decision carries the segment's id and text, and its
    candidates are at most five corpus matches followed by at most one
    dictionary composition. *)
Theorem X19_one_decision_per_segment
    (readFile : jsstring → option jsstring) (this : DictionaryLookup.t)
    (c : list CorpusRetriever.CorpusEntry) (src : jsstring) :
  ∃ out decisions,
    (DictionaryLookup.process readFile this (Splitter.process src)).2 = Some out
    ∧ Referee.process (Splitter.process src) (DictionaryLookup.dictionary_results out)
        ((λ segment,
                {| CorpusRetriever.seg_id := Splitter.seg_id segment;
                   CorpusRetriever.matches :=
                     CorpusRetriever.searchCorpus c (Splitter.text segment) |})
               <$> Splitter.process src)
      = Some decisions
    ∧ Forall2 (λ seg decision,
        Referee.seg_id decision = Splitter.seg_id seg
        ∧ Referee.src_text decision = Splitter.text seg
        ∧ ∃ fromCorpus fromDictionary,
            Referee.candidates decision = fromCorpus ++ fromDictionary
            ∧ length fromCorpus ≤ 5
            ∧ Forall (λ c, Referee.source c = Referee.corpus) fromCorpus
            ∧ length fromDictionary ≤ 1
            ∧ Forall (λ c, Referee.source c = Referee.dictionary) fromDictionary)
      (Splitter.process src) decisions.
Proof.
  destruct (stages_per_segment readFile this c src) as (out & Hout & Hreferee).
  eexists out, _. split; [exact Hout|]. split; [exact Hreferee|].
  apply Forall2_fmap_r, Forall_Forall2_diag, Forall_forall. intros seg _.
  cbn [Referee.makeDecision Referee.seg_id Referee.src_text Referee.candidates].
  split_and!; try reflexivity.
  unfold Referee.makeDecision. cbn [Referee.candidates].
  lazymatch goal with
  | |- context [Referee.assemble ?dr ?cr] =>
      destruct (assemble_shape dr cr) as (cs & ds & Heq & Hcs & Hsrc & Hlen & Hds)
  end.
  exists cs, ds. split_and!; try done.
  - rewrite Hcs, length_fmap. cbn [CorpusRetriever.matches].
    unfold CorpusRetriever.searchCorpus. rewrite length_take. lia.
  - eapply Forall_impl; [exact Hds|]. by intros c' [? _].
Qed.

Lemma winner_in_unit (d : gmap jsstring (list LexEntry)) (token : jsstring) :
  map_Forall (λ _ entries,
                Forall (λ e, (score e >=? zero)%js && (one >=? score e)%js = true) entries)
             d →
  in_unit (score (winner d token)).
Proof.
  intros Hd. unfold winner, lookup. cbn zeta.
  destruct (d !! toLowerCase token) as [entries|] eqn:Hentries; simpl; [|by split].
  destruct entries as [|e entries]; simpl; [by split|].
  apply Hd in Hentries. apply Forall_cons in Hentries as [He _]. by apply geb_in_unit.
Qed.

Lemma searchCorpus_units (c : list CorpusRetriever.CorpusEntry) (query : jsstring) :
  Forall (λ m, in_unit (CorpusRetriever.sim m)) (CorpusRetriever.searchCorpus c query).
Proof.
  unfold CorpusRetriever.searchCorpus. cbn zeta. apply Forall_take.
  rewrite Array_sort_perm.
  eapply Forall_impl; [apply collectMatches_sims|]. by intros m [_ ?].
Qed.

Lemma decision_units (d : gmap jsstring (list LexEntry)) (seg : Segment)
    (corpusResult : CorpusRetriever.Result) :
  map_Forall (λ _ entries,
                Forall (λ e, (score e >=? zero)%js && (one >=? score e)%js = true) entries)
             d →
  proto_key ∉ tokens seg →
  Forall (λ m, in_unit (CorpusRetriever.sim m)) (CorpusRetriever.matches corpusResult) →
  Forall (λ c, in_unit (Referee.confidence c))
         (Referee.assemble (segmentLoop d (tokens seg) []) corpusResult).
Proof.
  intros Hd Hproto Hsims.
  destruct (segmentLoop_total d (tokens seg) Hproto) as (o & Hrun & _ & Hval & _).
  rewrite Hrun.
  destruct (assemble_shape (Some o) corpusResult) as (cs & ds & -> & -> & _ & _ & Hds).
  apply Forall_app. split.
  - by apply Forall_fmap.
  - eapply Forall_impl; [exact Hds|]. intros c (_ & dr & [= <-] & _ & -> & _).
    rewrite (compose_lookups d o Hval). cbn [Referee.dc_confidence].
    case_bool_decide as Hlen; [|by split].
    replace (length o) with (length ((λ t, score (winner d t)) <$> o.*1))
      by by rewrite !length_fmap.
    apply mean_in_unit.
    + destruct o; [simpl in Hlen; lia|done].
    + apply Forall_fmap, Forall_forall. intros t _. by apply winner_in_unit.
Qed.

(** X20. When every score of the loaded table lies between 0 and 1, then
    for the segments of any sentence and any corpus of entries with string
    texts the composite confidence of every scored decision is a number
    between 0 and 1, and so is the average of the composite confidences
    when the sentence has at least one segment. *)
Theorem X20_scores_in_range_keep_confidences_in_range
    (readFile : jsstring → option jsstring) (this : DictionaryLookup.t)
    (c : list CorpusRetriever.CorpusEntry) (src : jsstring) :
  map_Forall (λ _ entries,
                Forall (λ e, (DictionaryLookup.score e >=? zero)%js
                             && (one >=? DictionaryLookup.score e)%js = true) entries)
    (DictionaryLookup.dictionary (DictionaryLookup.loadDictionary readFile this)) →
  ∃ out decisions,
    (DictionaryLookup.process readFile this (Splitter.process src)).2 = Some out
    ∧ Referee.process (Splitter.process src) (DictionaryLookup.dictionary_results out)
        ((λ segment,
                {| CorpusRetriever.seg_id := Splitter.seg_id segment;
                   CorpusRetriever.matches :=
                     CorpusRetriever.searchCorpus c (Splitter.text segment) |})
               <$> Splitter.process src)
      = Some decisions
    ∧ Forall (λ r, in_unit (Scorer.composite_confidence r)) (Scorer.process decisions)
    ∧ (Splitter.process src ≠ [] →
       in_unit (Report.avgConfidence (Scorer.process decisions))).
Proof.
  intros Hd.
  destruct (stages_per_segment readFile this c src) as (out & Hout & Hreferee).
  eexists out, _. split; [exact Hout|]. split; [exact Hreferee|].
  assert (Hunit : Forall (λ r, in_unit (Scorer.composite_confidence r))
            (Scorer.process
               ((λ seg,
                   Referee.makeDecision seg
                     (segmentLoop (dictionary (loadDictionary readFile this)) (tokens seg) [])
                     {| CorpusRetriever.seg_id := seg_id seg;
                        CorpusRetriever.matches :=
                          CorpusRetriever.searchCorpus c (text seg) |})
                  <$> Splitter.process src))).
  { unfold Scorer.process. rewrite <-list_fmap_compose.
    apply Forall_fmap, Forall_forall. intros seg Hseg.
    cbn [compose Scorer.composite_confidence].
    apply composite_in_unit. rewrite source_confidence_first.
    cbn [Referee.makeDecision Referee.candidates].
    lazymatch goal with
    | |- context [Referee.assemble ?dr ?cr] =>
        pose proof (decision_units _ seg cr Hd) as Hcands
    end.
    cbn [CorpusRetriever.matches] in Hcands.
    specialize (Hcands (proj1 (proj1 (Forall_forall _ _) (process_segments src) seg Hseg))
                       (searchCorpus_units _ _)).
    destruct (Referee.assemble _ _) as [|first rest]; [done|].
    apply Forall_cons in Hcands as [Hfirst _].
    by destruct (Referee.confidence first). }
  split; [exact Hunit|].
  intros Hsegs. rewrite avgConfidence_mean. apply mean_in_unit.
  - unfold Scorer.process. rewrite <-!list_fmap_compose.
    by destruct (Splitter.process src).
  - by apply Forall_fmap.
Qed.

Lemma exact_match_decision (d : gmap jsstring (list LexEntry)) (seg : Segment)
    (c : list CorpusRetriever.CorpusEntry) (entry : CorpusRetriever.CorpusEntry) :
  map_Forall (λ _ entries,
                Forall (λ e, (score e >=? zero)%js && (one >=? score e)%js = true) entries)
             d →
  proto_key ∉ tokens seg →
  entry ∈ c →
  CorpusRetriever.calculateSimilarity (toLowerCase (text seg))
    (toLowerCase (CorpusRetriever.fr entry)) = one →
  ∃ m rest,
    CorpusRetriever.searchCorpus c (text seg) = m :: rest
    ∧ CorpusRetriever.sim m = one
    ∧ Referee.final
        (Referee.makeDecision seg (segmentLoop d (tokens seg) [])
           {| CorpusRetriever.seg_id := seg_id seg;
              CorpusRetriever.matches := CorpusRetriever.searchCorpus c (text seg) |})
      = CorpusRetriever.m_mos m
    ∧ Referee.explanation
        (Referee.makeDecision seg (segmentLoop d (tokens seg) [])
           {| CorpusRetriever.seg_id := seg_id seg;
              CorpusRetriever.matches := CorpusRetriever.searchCorpus c (text seg) |})
      = js "Corpus match selected with 100.0% similarity"
    ∧ Scorer.source_confidence
        (Scorer.extractFeatures
           (Referee.makeDecision seg (segmentLoop d (tokens seg) [])
              {| CorpusRetriever.seg_id := seg_id seg;
                 CorpusRetriever.matches := CorpusRetriever.searchCorpus c (text seg) |}))
      = one.
Proof.
  intros Hd Hproto Hentry Hsim.
  assert (Hgt : (CorpusRetriever.calculateSimilarity (toLowerCase (text seg))
                   (toLowerCase (CorpusRetriever.fr entry)) >? dec 6 10)%js = true).
  { rewrite Hsim. vm_compute. reflexivity. }
  destruct (searchCorpus_head_best c (text seg) entry Hentry Hgt) as (m & rest & Hsearch & Hge).
  rewrite Hsim in Hge.
  pose proof (searchCorpus_units c (text seg)) as Hunits.
  assert (Hone : CorpusRetriever.sim m = one).
  { apply in_unit_top; [|done]. rewrite Hsearch in Hunits.
    by apply Forall_cons in Hunits as [? _]. }
  exists m, rest. split; [done|]. split; [done|].
  pose proof (decision_units d seg
                {| CorpusRetriever.seg_id := seg_id seg;
                   CorpusRetriever.matches := CorpusRetriever.searchCorpus c (text seg) |}
                Hd Hproto Hunits) as Hcands.
  rewrite source_confidence_first.
  cbn [Referee.makeDecision Referee.final Referee.explanation Referee.candidates].
  unfold Referee.assemble in *. cbn [CorpusRetriever.matches] in *.
  rewrite Hsearch in *. rewrite fmap_cons in *.
  lazymatch goal with
  | |- context [(Referee.corpusCandidate m :: ?l1) ++ ?l2] =>
      change ((Referee.corpusCandidate m :: l1) ++ l2)
        with (Referee.corpusCandidate m :: (l1 ++ l2)) in *;
      set (tail := l1 ++ l2) in *
  end.
  assert (Hbest : Referee.selectBest seg (Referee.corpusCandidate m :: tail)
                  = Referee.corpusCandidate m).
  { cbn [Referee.selectBest].
    destruct (reduce_first_maximum (Referee.corpusCandidate m) tail)
      as (i & Hi & Hmax & Hfirst).
    destruct i as [|i]; [by injection Hi|].
    exfalso. apply (Hfirst 0 (Referee.corpusCandidate m)); [lia|done|].
    assert (Hin : fold_left Referee.pick tail (Referee.corpusCandidate m)
                  ∈ Referee.corpusCandidate m :: tail) by apply fold_pick_elem.
    apply (proj1 (Forall_forall _ _) Hcands) in Hin.
    specialize (Hmax (Referee.corpusCandidate m) ltac:(left)).
    cbn [Referee.corpusCandidate Referee.confidence] in Hmax |- *.
    rewrite Hone in Hmax |- *.
    destruct (Referee.confidence (fold_left Referee.pick tail (Referee.corpusCandidate m)))
      as [| | |q]; try done.
    destruct Hin as [_ Hq1]. unfold one, gtb, ltb in Hmax.
    apply bool_decide_eq_false, Qcnot_lt_le in Hmax.
    unfold one. f_equal. by apply Qcle_antisym. }
  rewrite Hbest. split_and!.
  - done.
  - unfold Referee.generateExplanation. cbn [length].
    rewrite bool_decide_eq_false_2 by done.
    cbn [Referee.corpusCandidate Referee.source Referee.confidence]. rewrite Hone.
    vm_compute. reflexivity.
  - done.
Qed.

(** X24. An exact corpus match has the priority.  When every score of the
    loaded table lies between 0 and 1 and a corpus of entries with string
    texts holds an entry whose lower-cased source text has the same words as
    the lower-cased text of a segment, so that their similarity is 1, the
    decision of the referee for that segment chooses the target of the first
    corpus match, which has similarity 1, its explanation is "Corpus match
    selected with 100.0% similarity", and the scorer reads the source
    confidence 1 from it. *)
Theorem X24_exact_corpus_match_wins
    (readFile : jsstring → option jsstring) (this : DictionaryLookup.t)
    (c : list CorpusRetriever.CorpusEntry) (src : jsstring)
    (i : nat) (seg : Splitter.Segment) (entry : CorpusRetriever.CorpusEntry) :
  map_Forall (λ _ entries,
                Forall (λ e, (DictionaryLookup.score e >=? zero)%js
                             && (one >=? DictionaryLookup.score e)%js = true) entries)
    (DictionaryLookup.dictionary (DictionaryLookup.loadDictionary readFile this)) →
  Splitter.process src !! i = Some seg →
  entry ∈ c →
  CorpusRetriever.calculateSimilarity (toLowerCase (Splitter.text seg))
    (toLowerCase (CorpusRetriever.fr entry)) = one →
  ∃ out decisions decision m rest,
    (DictionaryLookup.process readFile this (Splitter.process src)).2 = Some out
    ∧ Referee.process (Splitter.process src) (DictionaryLookup.dictionary_results out)
        ((λ segment,
                {| CorpusRetriever.seg_id := Splitter.seg_id segment;
                   CorpusRetriever.matches :=
                     CorpusRetriever.searchCorpus c (Splitter.text segment) |})
               <$> Splitter.process src)
      = Some decisions
    ∧ decisions !! i = Some decision
    ∧ CorpusRetriever.searchCorpus c (Splitter.text seg) = m :: rest
    ∧ CorpusRetriever.sim m = one
    ∧ Referee.final decision = CorpusRetriever.m_mos m
    ∧ Referee.explanation decision = js "Corpus match selected with 100.0% similarity"
    ∧ Scorer.source_confidence (Scorer.extractFeatures decision) = one.
Proof.
  intros Hd Hseg Hentry Hsim.
  assert (Hproto : proto_key ∉ tokens seg).
  { pose proof (process_segments src) as Hall.
    apply list_elem_of_lookup_2 in Hseg.
    by destruct (proj1 (Forall_forall _ _) Hall seg Hseg). }
  destruct (exact_match_decision _ seg c entry Hd Hproto Hentry Hsim)
    as (m & rest & Hsearch & Hone & Hfinal & Hexpl & Hsrc).
  destruct (stages_per_segment readFile this c src) as (out & Hout & Hreferee).
  eexists out, _, _, m, rest. split; [exact Hout|]. split; [exact Hreferee|].
  split; [by rewrite list_lookup_fmap, Hseg|].
  by split_and!.
Qed.

End PipelineFacts.

Lemma X23_blank_sentence_witness :
  Forall (λ c, Splitter.isTerminator c || isWhiteSpace c = true) Examples.blank_sentence
  ∧ ∃ results,
      (AfropairPipeline.translateSentence (H := latin1Host) Samples.parseSample
         (Samples.files (Some Samples.sampleDictionary) (Some Samples.sampleCorpusLine))
         Samples.newPipeline Examples.blank_sentence).2 = Some results
      ∧ results = []
      ∧ Report.translation results = []
      ∧ Report.avgConfidence results = NaN.
Proof.
  assert (Hblank : Forall (λ c, Splitter.isTerminator c || isWhiteSpace c = true)
                     Examples.blank_sentence) by (repeat constructor).
  split; [exact Hblank|].
  exact (X23_blank_sentence_reports_NaN (H := latin1Host) Samples.parseSample
           (Samples.files (Some Samples.sampleDictionary) (Some Samples.sampleCorpusLine))
           Samples.newPipeline Examples.blank_sentence Hblank).
Defined.

Lemma X20_scores_in_range_witness :
  map_Forall (λ _ entries,
                Forall (λ e, (DictionaryLookup.score e >=? zero)%js
                             && (one >=? DictionaryLookup.score e)%js = true) entries)
    (DictionaryLookup.dictionary
       (DictionaryLookup.loadDictionary (H := latin1Host)
          (Samples.files (Some Samples.sampleDictionary) None)
          (DictionaryLookup.new Samples.dictPath)))
  ∧ ∃ out decisions,
      (DictionaryLookup.process (H := latin1Host)
         (Samples.files (Some Samples.sampleDictionary) None)
         (DictionaryLookup.new Samples.dictPath)
         (Splitter.process (H := latin1Host) Samples.marche_sentence)).2 = Some out
      ∧ Referee.process (Splitter.process (H := latin1Host) Samples.marche_sentence)
          (DictionaryLookup.dictionary_results out)
          ((λ segment,
              {| CorpusRetriever.seg_id := Splitter.seg_id segment;
                 CorpusRetriever.matches :=
                   CorpusRetriever.searchCorpus (H := latin1Host) Samples.sampleCorpus
                     (Splitter.text segment) |})
             <$> Splitter.process (H := latin1Host) Samples.marche_sentence)
        = Some decisions
      ∧ Forall (λ r, in_unit (Scorer.composite_confidence r)) (Scorer.process decisions)
      ∧ (Splitter.process (H := latin1Host) Samples.marche_sentence ≠ [] →
         in_unit (Report.avgConfidence (Scorer.process decisions))).
Proof.
  assert (Hd :
    map_Forall (λ _ entries,
                  Forall (λ e, (DictionaryLookup.score e >=? zero)%js
                               && (one >=? DictionaryLookup.score e)%js = true) entries)
      (DictionaryLookup.dictionary
         (DictionaryLookup.loadDictionary (H := latin1Host)
            (Samples.files (Some Samples.sampleDictionary) None)
            (DictionaryLookup.new Samples.dictPath)))).
  { apply (bool_decide_unpack _). vm_compute. exact I. }
  split; [exact Hd|].
  exact (X20_scores_in_range_keep_confidences_in_range (H := latin1Host)
           (Samples.files (Some Samples.sampleDictionary) None)
           (DictionaryLookup.new Samples.dictPath) Samples.sampleCorpus
           Samples.marche_sentence Hd).
Defined.

Lemma X24_exact_corpus_match_witness :
  map_Forall (λ _ entries,
                Forall (λ e, (DictionaryLookup.score e >=? zero)%js
                             && (one >=? DictionaryLookup.score e)%js = true) entries)
    (DictionaryLookup.dictionary
       (DictionaryLookup.loadDictionary (H := latin1Host)
          (Samples.files (Some Samples.rizDictionary) None)
          (DictionaryLookup.new Samples.dictPath)))
  ∧ Splitter.process (H := latin1Host) Examples.riz_sentence !! 0
    = Some Examples.rizBlancSegment
  ∧ Examples.rizBlancEntry ∈ Samples.rizCorpus
  ∧ CorpusRetriever.calculateSimilarity
      (toLowerCase (Host := latin1Host) (Splitter.text Examples.rizBlancSegment))
      (toLowerCase (Host := latin1Host) (CorpusRetriever.fr Examples.rizBlancEntry)) = one
  ∧ ∃ out decisions decision m rest,
      (DictionaryLookup.process (H := latin1Host)
         (Samples.files (Some Samples.rizDictionary) None)
         (DictionaryLookup.new Samples.dictPath)
         (Splitter.process (H := latin1Host) Examples.riz_sentence)).2 = Some out
      ∧ Referee.process (Splitter.process (H := latin1Host) Examples.riz_sentence)
          (DictionaryLookup.dictionary_results out)
          ((λ segment,
              {| CorpusRetriever.seg_id := Splitter.seg_id segment;
                 CorpusRetriever.matches :=
                   CorpusRetriever.searchCorpus (H := latin1Host) Samples.rizCorpus
                     (Splitter.text segment) |})
             <$> Splitter.process (H := latin1Host) Examples.riz_sentence)
        = Some decisions
      ∧ decisions !! 0 = Some decision
      ∧ CorpusRetriever.searchCorpus (H := latin1Host) Samples.rizCorpus
          (Splitter.text Examples.rizBlancSegment) = m :: rest
      ∧ CorpusRetriever.sim m = one
      ∧ Referee.final decision = CorpusRetriever.m_mos m
      ∧ Referee.explanation decision = js "Corpus match selected with 100.0% similarity"
      ∧ Scorer.source_confidence (Scorer.extractFeatures decision) = one.
Proof.
  assert (Hd :
    map_Forall (λ _ entries,
                  Forall (λ e, (DictionaryLookup.score e >=? zero)%js
                               && (one >=? DictionaryLookup.score e)%js = true) entries)
      (DictionaryLookup.dictionary
         (DictionaryLookup.loadDictionary (H := latin1Host)
            (Samples.files (Some Samples.rizDictionary) None)
            (DictionaryLookup.new Samples.dictPath)))).
  { apply (bool_decide_unpack _). vm_compute. exact I. }
  assert (Hseg : Splitter.process (H := latin1Host) Examples.riz_sentence !! 0
                 = Some Examples.rizBlancSegment) by (vm_compute; reflexivity).
  assert (Hentry : Examples.rizBlancEntry ∈ Samples.rizCorpus) by left.
  assert (Hsim : CorpusRetriever.calculateSimilarity
      (toLowerCase (Host := latin1Host) (Splitter.text Examples.rizBlancSegment))
      (toLowerCase (Host := latin1Host) (CorpusRetriever.fr Examples.rizBlancEntry)) = one)
    by num_eq.
  split; [exact Hd|]. split; [exact Hseg|]. split; [exact Hentry|]. split; [exact Hsim|].
  exact (X24_exact_corpus_match_wins (H := latin1Host)
           (Samples.files (Some Samples.rizDictionary) None)
           (DictionaryLookup.new Samples.dictPath) Samples.rizCorpus
           Examples.riz_sentence 0 Examples.rizBlancSegment Examples.rizBlancEntry
           Hd Hseg Hentry Hsim).
Defined.

(** ** The order of the composed words *)

Section KeyOrder.
Context `{Host}.
Import Splitter.
Import DictionaryLookup.

Lemma obj_put_keys_order {V} (k : jsstring) (v : V) (o : obj V) :
  array_index k = None →
  (obj_put k v o).*1 = if bool_decide (k ∈ o.*1) then o.*1 else o.*1 ++ [k].
Proof.
  intros Hk. unfold obj_put, obj_has. case_bool_decide.
  - apply obj_replace_keys.
  - unfold obj_add. rewrite Hk. by rewrite fmap_app.
Qed.

Lemma segmentLoop_keys_order (d : gmap jsstring (list LexEntry)) (tokens : list jsstring)
    (o : obj (list LexEntry)) :
  proto_key ∉ tokens →
  Forall (λ t, array_index t = None) tokens →
  ∃ o', segmentLoop d tokens o = Some o'
        ∧ o'.*1 = fold_left (λ keys t, if bool_decide (t ∈ keys) then keys else keys ++ [t])
                    tokens o.*1.
Proof.
  intros Hproto Hidx. revert o.
  induction Hidx as [|t tokens Ht _ IH]; intros o; cbn [segmentLoop fold_left].
  - by exists o.
  - rewrite obj_set_Some by (intros ->; apply Hproto; left). simpl.
    assert (Hrest : proto_key ∉ tokens) by (intros Hin; apply Hproto; by right).
    destruct (IH Hrest (obj_put t (lookup d t) o)) as (o' & Hrun & Hkeys).
    exists o'. split; [done|]. by rewrite Hkeys, obj_put_keys_order.
Qed.

(** X25. When no token of a segment is an array index (a canonical decimal
    number), the lookup object lists the distinct tokens in the order of
    their first occurrence, and the dictionary composition is the
    translation of these tokens, word for word in that order, joined by
    single spaces. *)
Theorem X25_composition_follows_first_occurrences
    (d : gmap jsstring (list LexEntry)) (src : jsstring)
    (i : nat) (segment : Segment) :
  Splitter.process src !! i = Some segment →
  Forall (λ t, array_index t = None) (tokens segment) →
  ∃ dictResult,
    segmentLoop d (tokens segment) [] = Some dictResult
    ∧ dictResult.*1
      = fold_left (λ keys t, if bool_decide (t ∈ keys) then keys else keys ++ [t])
          (tokens segment) []
    ∧ Referee.dc_mos (Referee.composeDictionaryTranslation dictResult)
      = join (js " ") ((λ t, mos (winner d t)) <$> dictResult.*1).
Proof.
  intros Hseg Hidx.
  assert (Hproto : proto_key ∉ tokens segment).
  { pose proof (process_segments src) as Hall.
    apply list_elem_of_lookup_2 in Hseg.
    by destruct (proj1 (Forall_forall _ _) Hall segment Hseg). }
  destruct (segmentLoop_keys_order d (tokens segment) [] Hproto Hidx) as (o & Hrun & Hkeys).
  destruct (segmentLoop_total d (tokens segment) Hproto) as (o2 & Hrun2 & _ & Hval & _).
  rewrite Hrun in Hrun2. injection Hrun2 as <-.
  exists o. split; [done|]. split; [done|].
  by rewrite (compose_lookups d o Hval).
Qed.

End KeyOrder.

Lemma X25_composition_order_witness :
  Splitter.process (H := latin1Host) Samples.repeated_sentence !! 0
  = Some Samples.repeatedSegment
  ∧ Forall (λ t, array_index t = None) (Splitter.tokens Samples.repeatedSegment)
  ∧ ∃ dictResult,
      DictionaryLookup.segmentLoop (H := latin1Host) Samples.rizTable
        (Splitter.tokens Samples.repeatedSegment) [] = Some dictResult
      ∧ dictResult.*1
        = fold_left (λ keys t, if bool_decide (t ∈ keys) then keys else keys ++ [t])
            (Splitter.tokens Samples.repeatedSegment) []
      ∧ Referee.dc_mos (Referee.composeDictionaryTranslation dictResult)
        = join (js " ")
            ((λ t, DictionaryLookup.mos
                     (DictionaryLookup.winner (H := latin1Host) Samples.rizTable t))
               <$> dictResult.*1).
Proof.
  assert (Hseg : Splitter.process (H := latin1Host) Samples.repeated_sentence !! 0
                 = Some Samples.repeatedSegment) by (vm_compute; reflexivity).
  assert (Hidx : Forall (λ t, array_index t = None)
                   (Splitter.tokens Samples.repeatedSegment))
    by (repeat constructor).
  split; [exact Hseg|]. split; [exact Hidx|].
  exact (X25_composition_follows_first_occurrences (H := latin1Host) Samples.rizTable
           Samples.repeated_sentence 0 Samples.repeatedSegment Hseg Hidx).
Defined.
